(** * A shallow embedding of HotSpot's OS abstraction layer
      (src/hotspot/share/runtime/os.cpp)

    Machine words and the helper templates of utilities/ come first, then
    [os::PageSizes] and the NMT block header.  The functions of [os] follow
    in the order of the source file: the priority mapping, the signal
    dispatcher thread, the native heap facade ([os::malloc], [os::realloc],
    [os::free]) over the NMT ledger, the minimal-standard random generator,
    the safe-probe functions and [os::page_size_for_region]. *)

From stdpp Require Import base gmap list.
From Stdlib Require Import ZArith Lia List Bool Znumtheory Zpow_facts.
From Stdlib Require Import Strings.Byte Sorting.Sorted.

Local Open Scope Z_scope.

(** ** Machine words

  [size_t], [uintptr_t] and [unsigned int] values are integers in
  [0, 2^w); every C++ operation that can leave that range is followed by
  an explicit reduction modulo [2^w]. *)

Module Word.

Definition wrap (w x : Z) : Z := x mod 2 ^ w.

Definition in_range (w x : Z) : Prop := 0 <= x < 2 ^ w.

(** [~x] on a [w]-bit unsigned value. *)
Definition bit_not (w x : Z) : Z := wrap w (Z.lnot x).

(** [x + y], [x - y] and [x << n] on [w]-bit unsigned values. *)
Definition add (w x y : Z) : Z := wrap w (x + y).
Definition sub (w x y : Z) : Z := wrap w (x - y).
Definition shl (w x n : Z) : Z := wrap w (Z.shiftl x n).

Lemma wrap_small w x : in_range w x -> wrap w x = x.
Proof. intros H. unfold wrap. apply Z.mod_small. exact H. Qed.

Lemma wrap_range w x : 0 <= w -> in_range w (wrap w x).
Proof.
  intros Hw. unfold wrap, in_range. apply Z.mod_pos_bound.
  apply Z.pow_pos_nonneg; lia.
Qed.

Lemma pow2_in_range w k : 0 <= k < w -> in_range w (2 ^ k).
Proof.
  intros Hk. split.
  - apply Z.pow_nonneg. lia.
  - apply Z.pow_lt_mono_r; lia.
Qed.

Lemma pow2_pred_in_range w k : 0 <= k <= w -> in_range w (2 ^ k - 1).
Proof.
  intros Hk. unfold in_range.
  assert (0 < 2 ^ k) by (apply Z.pow_pos_nonneg; lia).
  assert (2 ^ k <= 2 ^ w) by (apply Z.pow_le_mono_r; lia).
  lia.
Qed.

Lemma testbit_in_range_high w x j :
  0 <= w -> in_range w x -> w <= j -> Z.testbit x j = false.
Proof.
  intros Hw [H0 H1] Hj.
  destruct (Z.eq_dec x 0) as [->|Hx]; [apply Z.bits_0|].
  apply Z.bits_above_log2; [lia|].
  assert (Z.log2 x < w) by (apply Z.log2_lt_pow2; lia). lia.
Qed.

Lemma testbit_true_lt w x j :
  0 <= w -> in_range w x -> Z.testbit x j = true -> j < w.
Proof.
  intros Hw Hx Hb. destruct (Z_lt_le_dec j w) as [Hlt|Hge]; [exact Hlt|].
  rewrite (testbit_in_range_high w x j Hw Hx Hge) in Hb. discriminate.
Qed.

Lemma bit_not_spec w x j :
  0 <= w -> 0 <= j ->
  Z.testbit (bit_not w x) j = (j <? w) && negb (Z.testbit x j).
Proof.
  intros Hw Hj. unfold bit_not, wrap.
  destruct (Z.ltb_spec j w) as [Hlt|Hge].
  - rewrite Z.mod_pow2_bits_low by lia. rewrite Z.lnot_spec by lia. reflexivity.
  - rewrite Z.mod_pow2_bits_high by lia. reflexivity.
Qed.

(** Unsigned addition wraps exactly when the wrapped sum is smaller than
    the first operand: the idiom behind [if (outer_size < size)]. *)
Lemma add_overflow_iff w x y :
  in_range w x -> in_range w y ->
  (add w x y < x <-> 2 ^ w <= x + y).
Proof.
  intros [Hx0 Hx1] [Hy0 Hy1]. unfold add, wrap. split.
  - intros Hlt.
    destruct (Z_lt_le_dec (x + y) (2 ^ w)) as [Hs|Hs]; [|exact Hs].
    rewrite Z.mod_small in Hlt by lia. lia.
  - intros Hge.
    replace (x + y) with ((x + y - 2 ^ w) + 1 * 2 ^ w) by ring.
    rewrite Z.mod_add by lia.
    rewrite Z.mod_small by lia. lia.
Qed.

Lemma add_no_overflow w x y :
  0 <= x -> 0 <= y -> x + y < 2 ^ w -> add w x y = x + y.
Proof. intros. unfold add, wrap. apply Z.mod_small. lia. Qed.

End Word.

(** ** Helper templates of utilities/powerOfTwo.hpp, align.hpp and
       count_trailing_zeros.hpp *)

(** Modelled from the spec: [is_power_of_2] is declared in
  utilities/powerOfTwo.hpp, which is not part of the sources at hand; a
  value is a power of two when it is positive and has a single bit set. *)
Definition is_power_of_2 (x : Z) : bool :=
  (0 <? x) && (Z.land x (x - 1) =? 0).

(** Modelled from the spec: [round_down_power_of_2] (utilities/powerOfTwo.hpp)
  yields the highest set bit of a positive value. *)
Definition round_down_power_of_2 (x : Z) : Z := 2 ^ Z.log2 x.

(** Modelled from the spec: [max_power_of_2<size_t>()]
  (utilities/powerOfTwo.hpp) is the largest power of two a [w]-bit
  unsigned value can hold. *)
Definition max_power_of_2 (w : Z) : Z := 2 ^ (w - 1).

Fixpoint ctz_pos (p : positive) : Z :=
  match p with
  | xO q => Z.succ (ctz_pos q)
  | _ => 0
  end.

(** Modelled from the spec: [count_trailing_zeros]
  (utilities/count_trailing_zeros.hpp) is the index of the lowest set bit;
  it is only called on non-zero values. *)
Definition count_trailing_zeros (x : Z) : Z :=
  match x with
  | Zpos p => ctz_pos p
  | Zneg p => ctz_pos p
  | Z0 => 0
  end.

(** Modelled from the spec: [align_down(x, a)] (utilities/align.hpp) clears
  the bits below the power-of-two alignment [a]. *)
Definition align_down (x a : Z) : Z := Z.land x (Z.lnot (a - 1)).

(** Modelled from the spec: [is_aligned(x, a)] (utilities/align.hpp). *)
Definition is_aligned (x a : Z) : bool := Z.land x (a - 1) =? 0.

Lemma is_power_of_2_pow2 k : 0 <= k -> is_power_of_2 (2 ^ k) = true.
Proof.
  intros Hk. unfold is_power_of_2.
  assert (0 < 2 ^ k) by (apply Z.pow_pos_nonneg; lia).
  apply andb_true_intro. split.
  - apply Z.ltb_lt. assumption.
  - apply Z.eqb_eq.
    replace (2 ^ k - 1) with (Z.ones k) by (rewrite Z.ones_equiv; lia).
    rewrite Z.land_ones by lia. apply Z.mod_same. lia.
Qed.

Lemma ctz_pos_nonneg p : 0 <= ctz_pos p.
Proof. induction p; simpl; lia. Qed.

Lemma ctz_pos_bit p : Z.testbit (Zpos p) (ctz_pos p) = true.
Proof.
  induction p as [p IH|p IH|]; simpl ctz_pos; try reflexivity.
  pose proof (ctz_pos_nonneg p).
  change (Zpos p~0) with (2 * Zpos p).
  rewrite Z.testbit_even_succ by lia. exact IH.
Qed.

Lemma ctz_pos_low p j : 0 <= j < ctz_pos p -> Z.testbit (Zpos p) j = false.
Proof.
  revert j. induction p as [p IH|p IH|]; simpl ctz_pos; intros j Hj; try lia.
  change (Zpos p~0) with (2 * Zpos p).
  destruct (Z.eq_dec j 0) as [->|Hne].
  - apply Z.testbit_even_0.
  - replace j with (Z.succ (j - 1)) by lia.
    rewrite Z.testbit_even_succ by lia. apply IH. lia.
Qed.

Lemma count_trailing_zeros_bit x :
  0 < x -> Z.testbit x (count_trailing_zeros x) = true.
Proof. destruct x; try lia. intros _. apply ctz_pos_bit. Qed.

Lemma count_trailing_zeros_low x j :
  0 < x -> 0 <= j < count_trailing_zeros x -> Z.testbit x j = false.
Proof. destruct x; try lia. intros _. apply ctz_pos_low. Qed.

Lemma count_trailing_zeros_nonneg x : 0 <= count_trailing_zeros x.
Proof. destruct x; simpl; try lia; apply ctz_pos_nonneg. Qed.

Lemma align_down_mod x k : 0 <= k -> align_down x (2 ^ k) = x - x mod 2 ^ k.
Proof.
  intros Hk. unfold align_down.
  replace (2 ^ k - 1) with (Z.ones k) by (rewrite Z.ones_equiv; lia).
  rewrite <- Z.ldiff_land, Z.ldiff_ones_r by lia.
  rewrite Z.shiftl_mul_pow2, Z.shiftr_div_pow2 by lia.
  assert (0 < 2 ^ k) by (apply Z.pow_pos_nonneg; lia).
  pose proof (Z.div_mod x (2 ^ k)). lia.
Qed.

Lemma is_aligned_divide x k :
  0 <= k -> (is_aligned x (2 ^ k) = true <-> (2 ^ k | x)).
Proof.
  intros Hk. unfold is_aligned.
  replace (2 ^ k - 1) with (Z.ones k) by (rewrite Z.ones_equiv; lia).
  rewrite Z.land_ones by lia.
  assert (0 < 2 ^ k) by (apply Z.pow_pos_nonneg; lia).
  rewrite Z.eqb_eq. rewrite Z.mod_divide by lia. reflexivity.
Qed.

(** ** [os::PageSizes]: a bit set of supported page sizes

  The class holds a single [size_t _v]; bit [k] set means that page size
  [2^k] is supported.  The mask is passed explicitly. *)

Module PageSizes.
Section WithSizeT.

(** Number of bits of [size_t]. *)
Variable w : Z.
Hypothesis w_pos : 0 < w.

Definition add (v page_size : Z) : Z := Z.lor v page_size.

Definition contains (v page_size : Z) : bool :=
  negb (Z.land v page_size =? 0).

Definition next_smaller (v page_size : Z) : Z :=
  let v2 := Z.land v (Word.sub w page_size 1) in
  if v2 =? 0 then 0 else round_down_power_of_2 v2.

Definition next_larger (v page_size : Z) : Z :=
  if page_size =? max_power_of_2 w then 0
  else
    let v2 :=
      Z.land v (Word.bit_not w (Word.add w page_size (Word.sub w page_size 1))) in
    if v2 =? 0 then 0 else Word.shl w 1 (count_trailing_zeros v2).

Definition largest (v : Z) : Z :=
  let max := max_power_of_2 w in
  if contains v max then max else next_smaller v max.

Definition smallest (v : Z) : Z := next_larger v 1.

(** *** What the queries are meant to compute, in the words of the
    specification: the page sizes of a mask are the powers of two whose
    bit is set. *)

Definition member (v s : Z) : Prop :=
  exists k, 0 <= k /\ s = 2 ^ k /\ Z.testbit v k = true.

(** [r] is the largest page size of [v] strictly below [p], or [0] when
    there is none. *)
Definition is_largest_below (v p r : Z) : Prop :=
  (r = 0 /\ forall s, member v s -> p <= s) \/
  (member v r /\ r < p /\ forall s, member v s -> s < p -> s <= r).

(** [r] is the smallest page size of [v] strictly above [p], or [0] when
    there is none. *)
Definition is_smallest_above (v p r : Z) : Prop :=
  (r = 0 /\ forall s, member v s -> s <= p) \/
  (member v r /\ p < r /\ forall s, member v s -> p < s -> r <= s).

(** The 4K/16K/2M mask of the specification's example. *)
Definition example_mask : Z := add (add (add 0 4096) 16384) 2097152.

(** *** Bit-level facts *)

Lemma pow2_lt_mono j k : 0 <= j -> j < k -> 2 ^ j < 2 ^ k.
Proof. intros Hj Hk. apply Z.pow_lt_mono_r; lia. Qed.

Lemma pow2_le_mono j k : 0 <= j -> j <= k -> 2 ^ j <= 2 ^ k.
Proof. intros Hj Hk. apply Z.pow_le_mono_r; lia. Qed.

Lemma pow2_lt_inv j k : 0 <= j -> 0 <= k -> 2 ^ j < 2 ^ k -> j < k.
Proof. intros Hj Hk H. apply (Z.pow_lt_mono_r_iff 2); lia. Qed.

Lemma member_pow2 v j : 0 <= j -> member v (2 ^ j) <-> Z.testbit v j = true.
Proof.
  intros Hj. split.
  - intros (k & Hk & He & Hb).
    apply Z.pow_inj_r in He; try lia. subst k. exact Hb.
  - intros Hb. exists j. auto.
Qed.

Lemma member_bound v s : Word.in_range w v -> member v s -> 0 < s < 2 ^ w.
Proof.
  intros Hv (k & Hk & -> & Hb). split.
  - apply Z.pow_pos_nonneg; lia.
  - apply pow2_lt_mono; try lia.
    apply (Word.testbit_true_lt w v k); (assumption || lia).
Qed.

Lemma contains_testbit v k : 0 <= k -> contains v (2 ^ k) = Z.testbit v k.
Proof.
  intros Hk. unfold contains.
  destruct (Z.testbit v k) eqn:Hb.
  - apply negb_true_iff, Z.eqb_neq. intros H0.
    assert (Hc : Z.testbit (Z.land v (2 ^ k)) k = true).
    { rewrite Z.land_spec, Hb, Z.pow2_bits_true by lia. reflexivity. }
    rewrite H0, Z.bits_0 in Hc. discriminate.
  - apply negb_false_iff, Z.eqb_eq. apply Z.bits_inj_0. intros n.
    rewrite Z.land_spec.
    destruct (Z.eq_dec n k) as [->|Hne].
    + rewrite Hb. reflexivity.
    + rewrite Z.pow2_bits_false by lia. apply andb_false_r.
Qed.

Lemma add_member v k s :
  0 <= k -> (member (add v (2 ^ k)) s <-> s = 2 ^ k \/ member v s).
Proof.
  intros Hk. unfold add. split.
  - intros (j & Hj & -> & Hb). rewrite Z.lor_spec in Hb.
    apply orb_true_iff in Hb as [Hb|Hb].
    + right. exists j. auto.
    + left. destruct (Z.eq_dec k j) as [->|Hne]; [reflexivity|].
      rewrite Z.pow2_bits_false in Hb by lia. discriminate.
  - intros [->|(j & Hj & -> & Hb)].
    + exists k. repeat split; try lia.
      rewrite Z.lor_spec, Z.pow2_bits_true by lia. apply orb_true_r.
    + exists j. repeat split; try lia.
      rewrite Z.lor_spec, Hb. reflexivity.
Qed.

Lemma next_smaller_eq v k :
  0 <= k < w ->
  next_smaller v (2 ^ k) =
  if v mod 2 ^ k =? 0 then 0 else 2 ^ Z.log2 (v mod 2 ^ k).
Proof.
  intros Hk. unfold next_smaller, round_down_power_of_2, Word.sub.
  rewrite Word.wrap_small by (apply Word.pow2_pred_in_range; lia).
  replace (2 ^ k - 1) with (Z.ones k) by (rewrite Z.ones_equiv; lia).
  rewrite Z.land_ones by lia. reflexivity.
Qed.

Lemma next_smaller_below v k :
  0 <= k < w -> is_largest_below v (2 ^ k) (next_smaller v (2 ^ k)).
Proof.
  intros Hk. rewrite next_smaller_eq by assumption.
  assert (Hp : 0 < 2 ^ k) by (apply Z.pow_pos_nonneg; lia).
  pose proof (Z.mod_pos_bound v (2 ^ k) Hp) as Hm.
  set (v2 := v mod 2 ^ k) in *.
  assert (Hlow : forall j, 0 <= j < k -> Z.testbit v j = Z.testbit v2 j).
  { intros j Hj. unfold v2. rewrite Z.mod_pow2_bits_low by lia. reflexivity. }
  destruct (Z.eqb_spec v2 0) as [Hz|Hnz].
  - left. split; [reflexivity|].
    intros s (j & Hj & -> & Hb).
    apply pow2_le_mono; try lia.
    destruct (Z_lt_le_dec j k) as [Hlt|Hge]; [|exact Hge].
    rewrite Hlow, Hz, Z.bits_0 in Hb by lia. discriminate.
  - right.
    assert (Hpos : 0 < v2) by lia.
    pose proof (Z.log2_nonneg v2) as Hl0.
    assert (Hl1 : Z.log2 v2 < k) by (apply Z.log2_lt_pow2; lia).
    split; [|split].
    + exists (Z.log2 v2). repeat split; try lia.
      rewrite Hlow by lia. apply Z.bit_log2. exact Hpos.
    + apply pow2_lt_mono; lia.
    + intros s (j & Hj & -> & Hb) Hlt.
      apply pow2_lt_inv in Hlt; try lia.
      apply pow2_le_mono; try lia.
      destruct (Z_lt_le_dec (Z.log2 v2) j) as [Habove|Hle]; [|exact Hle].
      rewrite Hlow in Hb by lia.
      rewrite Z.bits_above_log2 in Hb by lia. discriminate.
Qed.

(** The bits of [v] that survive the mask of [next_larger]. *)
Lemma larger_bits v k j :
  Word.in_range w v -> 0 <= k < w -> 0 <= j ->
  Z.testbit
    (Z.land v (Word.bit_not w (Word.add w (2 ^ k) (Word.sub w (2 ^ k) 1)))) j
  = Z.testbit v j && (k <? j).
Proof.
  intros Hv Hk Hj.
  assert (Hp : 0 < 2 ^ k) by (apply Z.pow_pos_nonneg; lia).
  unfold Word.sub. rewrite Word.wrap_small by (apply Word.pow2_pred_in_range; lia).
  assert (Hsum : 2 ^ k + (2 ^ k - 1) = Z.ones (k + 1)).
  { rewrite Z.ones_equiv, Z.pow_add_r by lia. change (2 ^ 1) with 2. lia. }
  unfold Word.add. rewrite Hsum.
  rewrite Word.wrap_small
    by (rewrite Z.ones_equiv; apply (Word.pow2_pred_in_range w (k + 1)); lia).
  rewrite Z.land_spec, Word.bit_not_spec by lia.
  rewrite Z.testbit_ones_nonneg by lia.
  destruct (Z.testbit v j) eqn:Hb; simpl; [|reflexivity].
  assert (Hjw : j < w)
    by (apply (Word.testbit_true_lt w v j); (assumption || lia)).
  destruct (Z.ltb_spec j w), (Z.ltb_spec j (k + 1)), (Z.ltb_spec k j);
    simpl; try reflexivity; lia.
Qed.

Lemma next_larger_max v : next_larger v (max_power_of_2 w) = 0.
Proof. unfold next_larger. rewrite Z.eqb_refl. reflexivity. Qed.

Lemma next_larger_above v k :
  Word.in_range w v -> 0 <= k < w ->
  is_smallest_above v (2 ^ k) (next_larger v (2 ^ k)).
Proof.
  intros Hv Hk. unfold next_larger, max_power_of_2.
  destruct (Z.eqb_spec (2 ^ k) (2 ^ (w - 1))) as [He|Hne].
  - apply Z.pow_inj_r in He; try lia.
    left. split; [reflexivity|].
    intros s Hs. pose proof (member_bound v s Hv Hs) as Hb.
    destruct Hs as (j & Hj & -> & _).
    apply pow2_le_mono; try lia.
    destruct Hb as [_ Hb]. apply pow2_lt_inv in Hb; lia.
  - assert (Hk' : k < w - 1).
    { destruct (Z.eq_dec k (w - 1)) as [->|]; [congruence|lia]. }
    pose proof (fun j => larger_bits v k j Hv Hk) as Hbits.
    set (v2 := Z.land v _) in *.
    assert (Hnn : 0 <= v2) by (apply Z.land_nonneg; left; apply Hv).
    destruct (Z.eqb_spec v2 0) as [Hz|Hnz].
    + left. split; [reflexivity|].
      intros s (j & Hj & -> & Hb).
      apply pow2_le_mono; try lia.
      destruct (Z_lt_le_dec k j) as [Hlt|Hle]; [|exact Hle].
      specialize (Hbits j Hj). rewrite Hz, Z.bits_0, Hb in Hbits.
      apply Z.ltb_lt in Hlt. rewrite Hlt in Hbits. discriminate.
    + right.
      assert (Hpos : 0 < v2) by lia.
      pose proof (count_trailing_zeros_nonneg v2) as Hc0.
      pose proof (count_trailing_zeros_bit v2 Hpos) as Hcb.
      rewrite Hbits in Hcb by assumption.
      apply andb_true_iff in Hcb as [Hvb Hkc]. apply Z.ltb_lt in Hkc.
      assert (Hcw : count_trailing_zeros v2 < w)
        by (apply (Word.testbit_true_lt w v); (assumption || lia)).
      unfold Word.shl. rewrite Z.shiftl_1_l.
      rewrite Word.wrap_small by (apply Word.pow2_in_range; lia).
      split; [|split].
      * exists (count_trailing_zeros v2). auto.
      * apply pow2_lt_mono; lia.
      * intros s (j & Hj & -> & Hb) Hlt.
        apply pow2_lt_inv in Hlt; try lia.
        apply pow2_le_mono; try lia.
        destruct (Z_lt_le_dec j (count_trailing_zeros v2)) as [Hlow|Hge];
          [|exact Hge].
        pose proof (count_trailing_zeros_low v2 j Hpos (conj Hj Hlow)) as Hf.
        rewrite Hbits, Hb in Hf by assumption.
        apply Z.ltb_lt in Hlt. rewrite Hlt in Hf. discriminate.
Qed.

(** *** [largest] and [smallest] *)

Lemma member_pos v s : member v s -> 0 < s.
Proof. intros (k & Hk & -> & _). apply Z.pow_pos_nonneg; lia. Qed.

Lemma is_smallest_above_unique v p r1 r2 :
  is_smallest_above v p r1 -> is_smallest_above v p r2 -> r1 = r2.
Proof.
  intros [[-> H1]|(Hm1 & Hp1 & H1)] [[-> H2]|(Hm2 & Hp2 & H2)].
  - reflexivity.
  - specialize (H1 r2 Hm2). lia.
  - specialize (H2 r1 Hm1). lia.
  - specialize (H1 r2 Hm2 Hp2). specialize (H2 r1 Hm1 Hp1). lia.
Qed.

Lemma is_largest_below_unique v p r1 r2 :
  is_largest_below v p r1 -> is_largest_below v p r2 -> r1 = r2.
Proof.
  intros [[-> H1]|(Hm1 & Hp1 & H1)] [[-> H2]|(Hm2 & Hp2 & H2)].
  - reflexivity.
  - specialize (H1 r2 Hm2). lia.
  - specialize (H2 r1 Hm1). lia.
  - specialize (H1 r2 Hm2 Hp2). specialize (H2 r1 Hm1 Hp1). lia.
Qed.

(** [largest] is the largest page size of the mask, [0] for the empty
    mask. *)
Lemma largest_spec v :
  Word.in_range w v ->
  (largest v = 0 /\ forall s, ~ member v s) \/
  (member v (largest v) /\ forall s, member v s -> s <= largest v).
Proof.
  intros Hv. unfold largest, max_power_of_2.
  rewrite contains_testbit by lia.
  destruct (Z.testbit v (w - 1)) eqn:Hb.
  - right. split.
    + exists (w - 1). repeat split; (lia || assumption).
    + intros s Hs. pose proof (member_bound v s Hv Hs) as [_ Hlt].
      destruct Hs as (j & Hj & -> & _).
      apply pow2_lt_inv in Hlt; try lia. apply pow2_le_mono; lia.
  - assert (Hk : 0 <= w - 1 < w) by lia.
    assert (Hall : forall s, member v s -> s < 2 ^ (w - 1)).
    { intros s Hs. pose proof (member_bound v s Hv Hs) as [_ Hlt].
      destruct Hs as (j & Hj & -> & Hbj).
      apply pow2_lt_inv in Hlt; try lia. apply pow2_lt_mono; try lia.
      destruct (Z.eq_dec j (w - 1)) as [->|]; [congruence|lia]. }
    destruct (next_smaller_below v (w - 1) Hk) as [[-> Hnone]|(Hm & Hlt & Hmax)].
    + left. split; [reflexivity|].
      intros s Hs. specialize (Hnone s Hs). specialize (Hall s Hs). lia.
    + right. split; [exact Hm|]. intros s Hs. apply Hmax; auto.
Qed.

(** *** The 4K/16K/2M example *)

Lemma example_members s :
  member example_mask s <-> s = 4096 \/ s = 16384 \/ s = 2097152.
Proof.
  unfold example_mask.
  change 4096 with (2 ^ 12). change 16384 with (2 ^ 14).
  change 2097152 with (2 ^ 21).
  rewrite !add_member by lia.
  assert (Hempty : ~ member 0 s).
  { intros (k & _ & _ & Hb). rewrite Z.bits_0 in Hb. discriminate. }
  tauto.
Qed.

Lemma example_in_range : 22 <= w -> Word.in_range w example_mask.
Proof.
  intros Hw. unfold Word.in_range.
  assert (2 ^ 22 <= 2 ^ w) by (apply Z.pow_le_mono_r; lia).
  change (2 ^ 22) with 4194304 in *.
  change example_mask with 2117632. lia.
Qed.

Lemma example_next_larger_4K : 22 <= w -> next_larger example_mask 4096 = 16384.
Proof.
  intros Hw. change 4096 with (2 ^ 12).
  apply (is_smallest_above_unique example_mask (2 ^ 12)).
  - apply next_larger_above; [apply example_in_range; assumption|lia].
  - right. rewrite !example_members. change (2 ^ 12) with 4096.
    repeat split; try lia.
    intros s Hs. rewrite example_members in Hs. lia.
Qed.

Lemma example_next_larger_2M : 22 <= w -> next_larger example_mask 2097152 = 0.
Proof.
  intros Hw. change 2097152 with (2 ^ 21).
  apply (is_smallest_above_unique example_mask (2 ^ 21)).
  - apply next_larger_above; [apply example_in_range; assumption|lia].
  - left. split; [reflexivity|]. change (2 ^ 21) with 2097152.
    intros s Hs. rewrite example_members in Hs. lia.
Qed.

Lemma example_next_smaller_2M : 22 <= w -> next_smaller example_mask 2097152 = 16384.
Proof.
  intros Hw. change 2097152 with (2 ^ 21).
  apply (is_largest_below_unique example_mask (2 ^ 21)).
  - apply next_smaller_below. lia.
  - right. rewrite !example_members. change (2 ^ 21) with 2097152.
    repeat split; try lia.
    intros s Hs. rewrite example_members in Hs. lia.
Qed.

Lemma example_smallest : 22 <= w -> smallest example_mask = 4096.
Proof.
  intros Hw. unfold smallest. change 1 with (2 ^ 0) at 1.
  apply (is_smallest_above_unique example_mask (2 ^ 0)).
  - apply next_larger_above; [apply example_in_range; assumption|lia].
  - right. rewrite !example_members. change (2 ^ 0) with 1.
    repeat split; try lia.
    intros s Hs. rewrite example_members in Hs. lia.
Qed.

Lemma example_largest : 22 <= w -> largest example_mask = 2097152.
Proof.
  intros Hw.
  destruct (largest_spec example_mask (example_in_range Hw))
    as [[_ Hnone]|[Hm Hmax]].
  - exfalso. apply (Hnone 4096). apply example_members. lia.
  - apply example_members in Hm.
    assert (H2M : member example_mask 2097152) by (apply example_members; lia).
    specialize (Hmax _ H2M). lia.
Qed.

End WithSizeT.

(** A power of two in the sense of [is_power_of_2] is [2^k] for the
  position [k] of its highest bit. *)
Lemma is_power_of_2_inv x :
  is_power_of_2 x = true -> exists k, 0 <= k /\ x = 2 ^ k.
Proof.
  unfold is_power_of_2. intros H.
  apply andb_true_iff in H as [Hpos Hland].
  apply Z.ltb_lt in Hpos. apply Z.eqb_eq in Hland.
  exists (Z.log2 x). split; [apply Z.log2_nonneg|].
  destruct (Z.log2_spec x Hpos) as [Hlo Hhi].
  destruct (Z.eq_dec x (2 ^ Z.log2 x)) as [He|Hne]; [exact He|exfalso].
  assert (Hb1 : Z.testbit x (Z.log2 x) = true) by (apply Z.bit_log2; lia).
  assert (Hl : Z.log2 (x - 1) = Z.log2 x).
  { apply Z.log2_unique; [apply Z.log2_nonneg|]. lia. }
  assert (Hb2 : Z.testbit (x - 1) (Z.log2 x) = true).
  { rewrite <- Hl. apply Z.bit_log2.
    assert (0 < 2 ^ Z.log2 x)
      by (apply Z.pow_pos_nonneg; [lia|apply Z.log2_nonneg]).
    lia. }
  assert (Hc : Z.testbit (Z.land x (x - 1)) (Z.log2 x) = true).
  { rewrite Z.land_spec, Hb1, Hb2. reflexivity. }
  rewrite Hland, Z.bits_0 in Hc. discriminate.
Qed.

(** C4. For a power of two [p] and a [size_t] mask [v], [next_smaller] is
  the largest page size of the mask strictly below [p] and [next_larger]
  the smallest one strictly above [p] ([0] when there is none);
  [next_larger] of the largest representable power of two is [0]; and on
  the mask {4K, 16K, 2M} the five queries of the specification give
  16K, 16K, 2M, 4K and 0. *)
Theorem page_sizes_queries (w v p : Z) :
  0 < w -> Word.in_range w v -> Word.in_range w p ->
  is_power_of_2 p = true ->
  is_largest_below v p (next_smaller w v p) /\
  is_smallest_above v p (next_larger w v p) /\
  next_larger w v (max_power_of_2 w) = 0 /\
  (22 <= w ->
   next_larger w example_mask 4096 = 16384 /\
   next_smaller w example_mask 2097152 = 16384 /\
   largest w example_mask = 2097152 /\
   smallest w example_mask = 4096 /\
   next_larger w example_mask 2097152 = 0).
Proof.
  intros Hw Hv Hp Hpow.
  destruct (is_power_of_2_inv p Hpow) as (k & Hk & ->).
  assert (Hkw : 0 <= k < w).
  { split; [exact Hk|]. destruct Hp as [_ Hp].
    apply pow2_lt_inv in Hp; lia. }
  split; [|split; [|split]].
  - apply next_smaller_below; assumption.
  - apply next_larger_above; assumption.
  - apply next_larger_max.
  - intros Hw22. repeat split.
    + apply example_next_larger_4K; assumption.
    + apply example_next_smaller_2M; assumption.
    + apply example_largest; assumption.
    + apply example_smallest; assumption.
    + apply example_next_larger_2M; assumption.
Qed.

Lemma page_sizes_queries_witness :
  0 < 64 /\ Word.in_range 64 example_mask /\ Word.in_range 64 16384 /\
  is_power_of_2 16384 = true /\
  is_largest_below example_mask 16384 (next_smaller 64 example_mask 16384) /\
  is_smallest_above example_mask 16384 (next_larger 64 example_mask 16384).
Proof.
  assert (H0 : 0 < 64) by lia.
  assert (H1 : Word.in_range 64 example_mask) by (vm_compute; split; congruence).
  assert (H2 : Word.in_range 64 16384) by (vm_compute; split; congruence).
  assert (H3 : is_power_of_2 16384 = true) by reflexivity.
  destruct (page_sizes_queries 64 example_mask 16384 H0 H1 H2 H3) as (A & B & _).
  repeat split; try assumption; try (vm_compute; congruence).
Defined.


(** *** Beyond the queries: [add], [largest], [smallest] *)

(** X1.  [add] followed by [contains]: the added size is found, and the other
    sizes are found exactly when they were there before. *)
Theorem add_contains (v k j : Z) :
  0 <= k -> 0 <= j ->
  contains (add v (2 ^ k)) (2 ^ j) = (j =? k) || contains v (2 ^ j).
Proof.
  intros Hk Hj. rewrite !contains_testbit by assumption.
  unfold add. rewrite Z.lor_spec, Z.pow2_bits_eqb by assumption.
  rewrite orb_comm. f_equal. apply Z.eqb_sym.
Qed.

Lemma add_contains_witness :
  0 <= 12 /\ 0 <= 21 /\
  contains (add 4096 (2 ^ 12)) (2 ^ 21) = (21 =? 12) || contains 4096 (2 ^ 21).
Proof.
  assert (H1 : 0 <= 12) by lia. assert (H2 : 0 <= 21) by lia.
  exact (conj H1 (conj H2 (add_contains 4096 12 21 H1 H2))).
Defined.

(** X2.  [largest] is the maximum of the registered sizes, [0] for the empty
    mask.  [smallest] is [next_larger(1)]: the least registered size above
    1, [0] if there is none; a registered size 1 is never reported. *)
Theorem largest_smallest_spec (w v : Z) :
  0 < w -> Word.in_range w v ->
  ((largest w v = 0 /\ forall s, ~ member v s) \/
   (member v (largest w v) /\ forall s, member v s -> s <= largest w v)) /\
  is_smallest_above v 1 (smallest w v) /\
  smallest w v <> 1.
Proof.
  intros Hw Hv. split; [apply largest_spec; assumption|].
  assert (Hs : is_smallest_above v 1 (smallest w v)).
  { unfold smallest. change 1 with (2 ^ 0) at 1 2.
    apply next_larger_above; (assumption || lia). }
  split; [exact Hs|].
  destruct Hs as [[-> _]|(_ & Hlt & _)]; lia.
Qed.

Lemma largest_smallest_spec_witness :
  0 < 64 /\ Word.in_range 64 7 /\
  is_smallest_above 7 1 (smallest 64 7) /\ smallest 64 7 <> 1.
Proof.
  assert (Hw : 0 < 64) by lia.
  assert (Hv : Word.in_range 64 7) by (vm_compute; split; congruence).
  destruct (largest_smallest_spec 64 7 Hw Hv) as (_ & Hs & Hne).
  exact (conj Hw (conj Hv (conj Hs Hne))).
Defined.


(** *** [print_on] *)

(** The calls on the output stream: [print_raw(", ")], [print] of a
    number with its unit, [print("empty")]. *)
Inductive print_call : Type :=
| print_separator
| print_k (n : Z)
| print_M (n : Z)
| print_G (n : Z)
| print_empty.

Section PrintOn.

(** Number of bits of [size_t]; the constants [K], [M] and [G]. *)
Variable w : Z.
Variable K M G : Z.

Definition print_size (sz : Z) : print_call :=
  if sz <? M then print_k (sz / K)
  else if sz <? G then print_M (sz / M)
  else print_G (sz / G).

(** The loop of [print_on], entered with [sz] and the flag [first]; the
    result is the calls made, in order, and the flag at the end.  [None]:
    not finished within [fuel] iterations. *)
Fixpoint print_loop (v : Z) (fuel : nat) (first : bool) (sz : Z)
  : option (list print_call * bool) :=
  match fuel with
  | O => None
  | S fuel' =>
      if negb (sz =? 0) then
        match print_loop v fuel' false (next_larger w v sz) with
        | Some (calls, first') =>
            Some ((if first then [] else [print_separator])
                  ++ print_size sz :: calls, first')
        | None => None
        end
      else Some ([], first)
  end.

Definition print_on (v : Z) : option (list print_call) :=
  match print_loop v (S (Z.to_nat w)) true (smallest w v) with
  | Some (calls, first) => Some (calls ++ if first then [print_empty] else [])
  | None => None
  end.

(** The calls that list [sizes], separated. *)
Definition listing (sizes : list Z) : list print_call :=
  match sizes with
  | [] => [print_empty]
  | sz :: rest =>
      print_size sz :: flat_map (fun s => [print_separator; print_size s]) rest
  end.

Lemma print_loop_sizes (v : Z) (fuel : nat) (first : bool) (k : Z) :
  0 < w -> Word.in_range w v ->
  0 <= k < w -> Z.testbit v k = true ->
  (Z.to_nat (w - k) < fuel)%nat ->
  exists sizes,
    print_loop v fuel first (2 ^ k)
    = Some ((if first then [] else [print_separator])
            ++ print_size (2 ^ k)
            :: flat_map (fun s => [print_separator; print_size s]) sizes, false) /\
    StronglySorted Z.lt (2 ^ k :: sizes) /\
    forall s, In s (2 ^ k :: sizes) <-> member v s /\ 2 ^ k <= s.
Proof.
  intros Hw Hv. revert first k.
  induction fuel as [|fuel IH]; intros first k Hk Hb Hf; [lia|].
  cbn [print_loop].
  assert (Hp : 0 < 2 ^ k) by (apply Z.pow_pos_nonneg; lia).
  assert (Hnz : negb (2 ^ k =? 0) = true).
  { apply negb_true_iff, Z.eqb_neq. lia. }
  rewrite Hnz.
  assert (Hmk : member v (2 ^ k)) by (exists k; repeat split; (lia || assumption)).
  destruct (next_larger_above w Hw v k Hv Hk) as [[Hz Hall]|(Hm & Hgt & Hleast)].
  - rewrite Hz. destruct fuel as [|fuel]; [lia|].
    cbn [print_loop]. change (negb (0 =? 0)) with false. cbv iota.
    exists []. split; [reflexivity|].
    split; [repeat constructor|].
    intros s. split.
    + intros [<-|[]]. split; [exact Hmk|lia].
    + intros [Hs Hle]. left. specialize (Hall s Hs). lia.
  - pose proof (member_bound w Hw v _ Hv Hm) as Hbound.
    destruct Hm as (k' & Hk' & He & Hb'). rewrite He in *.
    assert (Hkk : k < k') by (apply pow2_lt_inv; lia).
    assert (Hkw : k' < w) by (apply pow2_lt_inv; lia).
    destruct (IH false k' ltac:(lia) Hb' ltac:(lia)) as (sizes & Hloop & Hsort & Hin).
    rewrite Hloop. exists (2 ^ k' :: sizes).
    split; [reflexivity|].
    split.
    + constructor; [exact Hsort|].
      apply Forall_forall. intros s Hs. apply Hin in Hs. lia.
    + intros s. split.
      * intros [<-|Hs]; [split; [exact Hmk|lia]|].
        apply Hin in Hs. split; [tauto|lia].
      * intros [Hs Hle]. destruct (Z.eq_dec s (2 ^ k)) as [->|Hne]; [left; reflexivity|].
        right. apply Hin. split; [exact Hs|]. apply Hleast; [exact Hs|lia].
Qed.

(** X3.  [print_on] returns; it lists the page sizes of the mask above 1, each
    once, in ascending order and separated by [", "], and prints
    ["empty"] when there is none.  A page size of 1 is never listed. *)
Theorem print_on_listing (v : Z) :
  0 < w -> Word.in_range w v ->
  exists sizes,
    print_on v = Some (listing sizes) /\
    StronglySorted Z.lt sizes /\
    forall s, In s sizes <-> member v s /\ 1 < s.
Proof.
  intros Hw Hv. unfold print_on, smallest.
  destruct (next_larger_above w Hw v 0 Hv ltac:(lia)) as [[Hz Hall]|(Hm & Hgt & Hleast)];
    change (2 ^ 0) with 1 in *.
  - rewrite Hz. cbn [print_loop]. change (negb (0 =? 0)) with false. cbv iota.
    exists []. split; [reflexivity|]. split; [constructor|].
    intros s. split; [intros []|].
    intros [Hs Hlt]. specialize (Hall s Hs). lia.
  - pose proof (member_bound w Hw v _ Hv Hm) as Hbound.
    destruct Hm as (k & Hk & He & Hb). rewrite He in *.
    assert (Hkw : k < w) by (apply pow2_lt_inv; lia).
    destruct (print_loop_sizes v (S (Z.to_nat w)) true k Hw Hv ltac:(lia) Hb
                ltac:(lia)) as (sizes & Hloop & Hsort & Hin).
    rewrite Hloop. exists (2 ^ k :: sizes).
    split; [cbn [app listing]; rewrite app_nil_r; reflexivity|].
    split; [exact Hsort|].
    intros s. rewrite Hin. split.
    + intros [Hs Hle]. split; [exact Hs|lia].
    + intros [Hs Hlt]. split; [exact Hs|]. apply Hleast; assumption.
Qed.

End PrintOn.

Example print_on_example :
  print_on 64 1024 1048576 1073741824 example_mask
  = Some [print_k 4; print_separator; print_k 16; print_separator; print_M 2].
Proof. reflexivity. Qed.

Example print_on_one_only :
  print_on 64 1024 1048576 1073741824 1 = Some [print_empty].
Proof. reflexivity. Qed.

Lemma print_on_listing_witness :
  exists sizes,
    print_on 64 1024 1048576 1073741824 example_mask = Some (listing 1024 1048576 1073741824 sizes) /\
    StronglySorted Z.lt sizes /\
    forall s, In s sizes <-> member example_mask s /\ 1 < s.
Proof.
  apply (print_on_listing 64 1024 1048576 1073741824 example_mask).
  - lia.
  - vm_compute. split; congruence.
Defined.

End PageSizes.


(** ** The NMT block header: [MallocHeader] *)

Module MallocHeader.

(** Modelled from the spec: [MallocHeader] (nmt/mallocHeader.hpp) is not
    part of the sources at hand.  The record of an allocation holds the
    requested size, the category ([MEMFLAGS]) and the dead-mark. *)
Record t : Type := mk { size : Z; flags : Z; dead : bool }.

(** Modelled from the spec: [MallocHeader::FreeInfo], what is needed to
    deaccount a block once its header is gone. *)
Record FreeInfo : Type := mk_free_info { fi_size : Z; fi_flags : Z }.

Definition free_info (h : t) : FreeInfo := mk_free_info (size h) (flags h).

(** Modelled from the spec: [MallocHeader::mark_block_as_dead], the
    in-place tagging of an allocation record as invalid prior to a risky
    platform operation. *)
Definition mark_block_as_dead (h : t) : t := mk (size h) (flags h) true.

(** Modelled from the spec: [MallocHeader::revive] reverts the
    dead-mark. *)
Definition revive (h : t) : t := mk (size h) (flags h) false.

Lemma revive_mark_block_as_dead h :
  dead h = false -> revive (mark_block_as_dead h) = h.
Proof. destruct h as [s f d]. simpl. intros ->. reflexivity. Qed.

End MallocHeader.
(** ** [os]: the functions of os.cpp, in the order of the source file *)

Module os.

(** *** Thread priorities: [os::get_priority] *)

(** The two return codes of [OSReturn] that os.cpp names. *)
Inductive OSReturn : Type := OS_OK | OS_ERR.

Definition OSReturn_eqb (a b : OSReturn) : bool :=
  match a, b with
  | OS_OK, OS_OK | OS_ERR, OS_ERR => true
  | _, _ => false
  end.

Section Priority.

(** The bounds of the [ThreadPriority] enumeration (declared in os.hpp) and
    the platform's priority table [os::java_to_os_priority], an [int] array
    indexed by [ThreadPriority]. *)
Variable MinPriority MaxPriority : Z.
Variable java_to_os_priority : Z -> Z.

(** [os::get_native_priority(thread, &os_prio)]: the platform query, with
    the value it stores into [os_prio]. *)
Variable Thread : Type.
Variable get_native_priority : Thread -> OSReturn * Z.

(** [for (p = MaxPriority; p > MinPriority && tbl[p] <cmp> os_prio; p--) ;]
    started at [p]; the result is the value of [p] when the loop exits. *)
Fixpoint priority_scan (cmp : Z -> Z -> bool) (os_prio : Z)
    (fuel : nat) (p : Z) : option Z :=
  match fuel with
  | O => None
  | S fuel' =>
      if (p >? MinPriority) && cmp (java_to_os_priority p) os_prio
      then priority_scan cmp os_prio fuel' (p - 1)
      else Some p
  end.

(** The loop runs at most [MaxPriority - MinPriority] decrements. *)
Definition priority_scan_fuel : nat := S (Z.to_nat (MaxPriority - MinPriority)).

(** [get_priority thread priority] returns the status and the content of
    the reference parameter [priority] after the call; [None] only if the
    scan did not finish within [priority_scan_fuel] iterations. *)
Definition get_priority (thread : Thread) (priority : Z) : option (OSReturn * Z) :=
  let '(ret, os_prio) := get_native_priority thread in
  if negb (OSReturn_eqb ret OS_OK) then Some (ret, priority)
  else
    let scan :=
      if java_to_os_priority MaxPriority >? java_to_os_priority MinPriority
      then priority_scan Z.gtb os_prio priority_scan_fuel MaxPriority
      else (* niceness values are in reverse order *)
        priority_scan Z.ltb os_prio priority_scan_fuel MaxPriority in
    match scan with
    | Some p => Some (OS_OK, p)
    | None => None
    end.

Lemma priority_scan_bounds cmp os_prio fuel p :
  MinPriority <= p ->
  (Z.to_nat (p - MinPriority) < fuel)%nat ->
  exists q, priority_scan cmp os_prio fuel p = Some q /\ MinPriority <= q <= p.
Proof.
  revert p. induction fuel as [|fuel IH]; intros p Hp Hfuel; [lia|].
  simpl.
  destruct ((p >? MinPriority) && cmp (java_to_os_priority p) os_prio) eqn:Hc.
  - apply andb_true_iff in Hc as [Hgt _]. apply Z.gtb_lt in Hgt.
    destruct (IH (p - 1)) as (q & Hq & Hb); try lia.
    exists q. split; [exact Hq|lia].
  - exists p. split; [reflexivity|lia].
Qed.

(** C10. When the native query succeeds, [os::get_priority] returns
    [OS_OK] and stores a priority within [MinPriority, MaxPriority],
    whatever the native value and whatever the direction of the table. *)
Theorem get_priority_in_range (thread : Thread) (priority : Z) :
  MinPriority <= MaxPriority ->
  fst (get_native_priority thread) = OS_OK ->
  exists p, get_priority thread priority = Some (OS_OK, p) /\
            MinPriority <= p <= MaxPriority.
Proof.
  intros Hmm Hok. unfold get_priority.
  destruct (get_native_priority thread) as [ret os_prio]. simpl in Hok. subst ret.
  cbn [OSReturn_eqb negb].
  assert (Hfuel : (Z.to_nat (MaxPriority - MinPriority) < priority_scan_fuel)%nat)
    by (unfold priority_scan_fuel; lia).
  destruct (java_to_os_priority MaxPriority >? java_to_os_priority MinPriority).
  - destruct (priority_scan_bounds Z.gtb os_prio _ MaxPriority Hmm Hfuel)
      as (q & -> & Hq).
    exists q. auto.
  - destruct (priority_scan_bounds Z.ltb os_prio _ MaxPriority Hmm Hfuel)
      as (q & -> & Hq).
    exists q. auto.
Qed.

End Priority.

(** The Linux-style table: Java priorities 1..10 onto niceness 4..-5. *)
Definition niceness_table (p : Z) : Z := 5 - p.

Lemma get_priority_in_range_witness :
  1 <= 10 /\
  fst ((fun _ : unit => (OS_OK, 0)) tt) = OS_OK /\
  exists p,
    get_priority 1 10 niceness_table unit (fun _ => (OS_OK, 0)) tt 7
      = Some (OS_OK, p) /\ 1 <= p <= 10.
Proof.
  split; [lia|]. split; [reflexivity|].
  apply (get_priority_in_range 1 10 niceness_table unit (fun _ => (OS_OK, 0)) tt 7).
  - lia.
  - reflexivity.
Defined.

Example get_priority_niceness :
  get_priority 1 10 niceness_table unit (fun _ => (OS_OK, 0)) tt 7
  = Some (OS_OK, 5).
Proof. reflexivity. Qed.

Example get_priority_ascending :
  get_priority 1 10 (fun p => 10 * p) unit (fun _ => (OS_OK, 1000)) tt 7
  = Some (OS_OK, 10).
Proof. reflexivity. Qed.

(** *** The signal dispatcher thread: [signal_thread_entry] *)

Inductive AttachListenerState : Type :=
  AL_NOT_INITIALIZED | AL_INITIALIZING | AL_INITIALIZED.

Definition AttachListenerState_eqb (a b : AttachListenerState) : bool :=
  match a, b with
  | AL_NOT_INITIALIZED, AL_NOT_INITIALIZED
  | AL_INITIALIZING, AL_INITIALIZING
  | AL_INITIALIZED, AL_INITIALIZED => true
  | _, _ => false
  end.

(** What the thread does that the rest of the VM can observe, in program
    order.  Exceptions are identified by their class. *)
Inductive action : Type :=
| PrintThreads
| FindDeadlocks
| PrintHeapAtSIGBREAK
| HeapInspection
| PostDataDump
| JavaDispatch (sig : Z)
| Warning (exception_klass : Z) (sig : Z).

(** The part of the VM the dispatcher reads and writes: the state of the
    attach listener, the pending exception of the signal thread
    ([HAS_PENDING_EXCEPTION] / [CLEAR_PENDING_EXCEPTION]) and its output. *)
Record vm_state : Type := {
  attach_state : AttachListenerState;
  pending_exception : option Z;
  output : list action
}.

(** The answers of the callees while one signal is handled. *)
Record handler_env : Type := {
  is_init_trigger : bool;           (* AttachListener::is_init_trigger() *)
  check_socket_file : bool;         (* AttachListener::check_socket_file() *)
  should_post_data_dump : bool;     (* JvmtiExport::should_post_data_dump() *)
  resolved_klass : option Z;        (* SystemDictionary::resolve_or_null: the class, *)
  resolve_raises : option Z;        (*   and the exception it left pending, if any *)
  call_static_raises : option Z;    (* exception left pending by JavaCalls::call_static *)
  tty_is_null : bool
}.

Inductive iteration : Type :=
| Return (vm : vm_state)       (* [return]: the thread function ends *)
| Continue (vm : vm_state).    (* back to the head of [while (true)] *)

Section SignalThread.

Variable SIGBREAK : Z.
Variable sigexitnum_pd : Z.
Variable INCLUDE_SERVICES : bool.
Variable DisableAttachMechanism : bool.
Variable PrintClassHistogram : bool.

Definition set_attach_state (s : AttachListenerState) (vm : vm_state) : vm_state :=
  {| attach_state := s;
     pending_exception := pending_exception vm;
     output := output vm |}.

Definition set_pending_exception (e : option Z) (vm : vm_state) : vm_state :=
  {| attach_state := attach_state vm;
     pending_exception := e;
     output := output vm |}.

Definition emit (a : list action) (vm : vm_state) : vm_state :=
  {| attach_state := attach_state vm;
     pending_exception := pending_exception vm;
     output := output vm ++ a |}.

(** Modelled from the spec: [AttachListener::transit_state(to, from)]
    (services/attachListener.hpp) is a compare-and-swap on the listener
    state, so that only one initializer wins; it returns the state it
    found. *)
Definition transit_state (to from : AttachListenerState) (vm : vm_state)
  : AttachListenerState * vm_state :=
  let cur := attach_state vm in
  if AttachListenerState_eqb cur from then (cur, set_attach_state to vm)
  else (cur, vm).

(** The stack-trace, deadlock, heap and histogram dumps of [case SIGBREAK]. *)
Definition print_stack_traces (env : handler_env) (vm : vm_state) : vm_state :=
  let vm := emit [PrintThreads; FindDeadlocks; PrintHeapAtSIGBREAK] vm in
  let vm := if PrintClassHistogram then emit [HeapInspection] vm else vm in
  if should_post_data_dump env then emit [PostDataDump] vm else vm.

(** [case SIGBREAK]; each [continue] of the source is a return of the state
    without the dumps. *)
Definition handle_SIGBREAK (env : handler_env) (vm : vm_state) : vm_state :=
  if INCLUDE_SERVICES && negb DisableAttachMechanism then
    let '(cur_state, vm) := transit_state AL_INITIALIZING AL_NOT_INITIALIZED vm in
    match cur_state with
    | AL_INITIALIZING => vm
    | AL_NOT_INITIALIZED =>
        if is_init_trigger env then vm
        else print_stack_traces env (set_attach_state AL_NOT_INITIALIZED vm)
    | AL_INITIALIZED =>
        if check_socket_file env then vm else print_stack_traces env vm
    end
  else print_stack_traces env vm.

(** [default], first half: resolve [jdk.internal.misc.Signal] and call its
    static [dispatch(int)]; either call may leave an exception pending. *)
Definition dispatch_to_java (sig : Z) (env : handler_env) (vm : vm_state) : vm_state :=
  let vm :=
    match resolve_raises env with
    | Some e => set_pending_exception (Some e) vm
    | None => vm
    end in
  match resolved_klass env with
  | Some _ =>
      let vm := emit [JavaDispatch sig] vm in
      match call_static_raises env with
      | Some e => set_pending_exception (Some e) vm
      | None => vm
      end
  | None => vm
  end.

(** [default], second half: [if (HAS_PENDING_EXCEPTION) { ... warning ...;
    CLEAR_PENDING_EXCEPTION; }]. *)
Definition report_pending_exception (sig : Z) (env : handler_env) (vm : vm_state)
  : vm_state :=
  match pending_exception vm with
  | Some e =>
      let vm := if tty_is_null env then vm else emit [Warning e sig] vm in
      set_pending_exception None vm
  | None => vm
  end.

Definition handle_default (sig : Z) (env : handler_env) (vm : vm_state) : vm_state :=
  report_pending_exception sig env (dispatch_to_java sig env vm).

(** The [switch (sig)] statement. *)
Definition handle_signal (sig : Z) (env : handler_env) (vm : vm_state) : vm_state :=
  if sig =? SIGBREAK then handle_SIGBREAK env vm else handle_default sig env vm.

(** One pass through the body of [while (true)], for the signal number
    that [os::signal_wait()] returned. *)
Definition loop_body (sig : Z) (env : handler_env) (vm : vm_state) : iteration :=
  if sig =? sigexitnum_pd then Return vm
  else Continue (handle_signal sig env vm).

(** The two states of the dispatcher, and the state after its [return]. *)
Inductive thread_state : Type :=
| WAITING (vm : vm_state)
| DISPATCHING (sig : Z) (vm : vm_state)
| TERMINATED (vm : vm_state).

Inductive input : Type :=
| SignalReceived (sig : Z)          (* [os::signal_wait()] returns [sig] *)
| HandlerRuns (env : handler_env).  (* the handler runs to its end *)

(** The step relation of the loop: a signal received in [WAITING] either
    ends the thread or starts its handler; the handler leads back to
    [WAITING].  The three rules are the two halves of [loop_body]
    ([loop_body_steps] below). *)
Inductive step : thread_state -> input -> thread_state -> Prop :=
| step_exit vm sig :
    (sig =? sigexitnum_pd) = true ->
    step (WAITING vm) (SignalReceived sig) (TERMINATED vm)
| step_signal vm sig :
    (sig =? sigexitnum_pd) = false ->
    step (WAITING vm) (SignalReceived sig) (DISPATCHING sig vm)
| step_dispatch vm sig env :
    step (DISPATCHING sig vm) (HandlerRuns env) (WAITING (handle_signal sig env vm)).

(** The thread function run on the signals delivered so far, each with the
    answers of the callees of its handler; the result is the state the
    thread is in when these signals are consumed.  The initial
    [os::set_priority(thread, NearMaxPriority)] does not take part in the
    loop and is left out. *)
Fixpoint signal_thread_entry (deliveries : list (Z * handler_env)) (vm : vm_state)
  : thread_state :=
  match deliveries with
  | [] => WAITING vm
  | (sig, env) :: rest =>
      match loop_body sig env vm with
      | Return vm' => TERMINATED vm'
      | Continue vm' => signal_thread_entry rest vm'
      end
  end.

(** The step relation and [loop_body] describe the same loop. *)
Lemma loop_body_steps sig env vm :
  match loop_body sig env vm with
  | Return vm' => step (WAITING vm) (SignalReceived sig) (TERMINATED vm')
  | Continue vm' =>
      step (WAITING vm) (SignalReceived sig) (DISPATCHING sig vm) /\
      step (DISPATCHING sig vm) (HandlerRuns env) (WAITING vm')
  end.
Proof.
  unfold loop_body. destruct (sig =? sigexitnum_pd) eqn:He.
  - apply step_exit. exact He.
  - split; [apply step_signal; exact He|apply step_dispatch].
Qed.

Lemma report_pending_exception_clears sig env vm :
  pending_exception (report_pending_exception sig env vm) = None.
Proof.
  unfold report_pending_exception.
  destruct (pending_exception vm) eqn:Hp; [reflexivity|exact Hp].
Qed.

Lemma handle_default_clears sig env vm :
  pending_exception (handle_default sig env vm) = None.
Proof. apply report_pending_exception_clears. Qed.

Lemma handle_default_logs sig env vm k e :
  pending_exception vm = None ->
  resolve_raises env = None ->
  resolved_klass env = Some k ->
  call_static_raises env = Some e ->
  tty_is_null env = false ->
  output (handle_default sig env vm) = output vm ++ [JavaDispatch sig; Warning e sig].
Proof.
  intros Hp Hr Hk Hc Ht.
  unfold handle_default, dispatch_to_java, report_pending_exception.
  rewrite Hr, Hk, Hc. simpl. rewrite Ht. simpl.
  rewrite <- app_assoc. reflexivity.
Qed.

Lemma signal_thread_entry_terminates deliveries vm :
  (exists vm', signal_thread_entry deliveries vm = TERMINATED vm') <->
  In sigexitnum_pd (map fst deliveries).
Proof.
  revert vm. induction deliveries as [|[sig env] rest IH]; intros vm; simpl.
  - split; [intros [vm' H]; discriminate|tauto].
  - unfold loop_body. destruct (Z.eqb_spec sig sigexitnum_pd) as [->|Hne].
    + split; [auto|]. intros _. exists vm. reflexivity.
    + rewrite IH. split; [auto|]. intros [H|H]; [congruence|exact H].
Qed.

Lemma handle_SIGBREAK_pending env vm :
  pending_exception (handle_SIGBREAK env vm) = pending_exception vm.
Proof.
  unfold handle_SIGBREAK, transit_state, print_stack_traces.
  destruct (INCLUDE_SERVICES && negb DisableAttachMechanism),
    (attach_state vm), (is_init_trigger env), (check_socket_file env),
    PrintClassHistogram, (should_post_data_dump env); reflexivity.
Qed.

(** No exception is pending whenever the thread waits for the next
    signal. *)
Lemma signal_thread_entry_no_pending deliveries vm vm' :
  pending_exception vm = None ->
  signal_thread_entry deliveries vm = WAITING vm' ->
  pending_exception vm' = None.
Proof.
  revert vm. induction deliveries as [|[sig env] rest IH]; intros vm Hp Hw.
  - simpl in Hw. inversion Hw; subst. exact Hp.
  - simpl in Hw. unfold loop_body in Hw.
    destruct (sig =? sigexitnum_pd); [discriminate|].
    apply (IH (handle_signal sig env vm)); [|exact Hw].
    unfold handle_signal. destruct (sig =? SIGBREAK).
    + rewrite handle_SIGBREAK_pending. exact Hp.
    + apply handle_default_clears.
Qed.

Lemma handle_default_output sig env vm k e :
  pending_exception vm = None ->
  resolve_raises env = None ->
  resolved_klass env = Some k ->
  call_static_raises env = Some e ->
  output (handle_default sig env vm)
  = output vm ++ JavaDispatch sig
                 :: (if tty_is_null env then [] else [Warning e sig]).
Proof.
  intros Hp Hr Hk Hc.
  unfold handle_default, dispatch_to_java, report_pending_exception.
  rewrite Hr, Hk, Hc. simpl.
  destruct (tty_is_null env); simpl; [reflexivity|].
  rewrite <- app_assoc. reflexivity.
Qed.

(** C8, as amended.  The only step into [TERMINATED] is the reception of
    [sigexitnum_pd]; any other signal starts its handler, which leads back
    to [WAITING] and makes [loop_body] continue; the default handler leaves
    no pending exception; an exception raised by the Java upcall is
    reported on the tty before it is cleared when there is a tty, and
    cleared without a report when [tty] is null; the thread function ends
    on a sequence of signals exactly when the exit signal is among them. *)
Theorem signal_thread_exit_only :
  (forall s i vm', step s i (TERMINATED vm') ->
     s = WAITING vm' /\ i = SignalReceived sigexitnum_pd) /\
  (forall vm sig env, sig <> sigexitnum_pd ->
     step (WAITING vm) (SignalReceived sig) (DISPATCHING sig vm) /\
     step (DISPATCHING sig vm) (HandlerRuns env) (WAITING (handle_signal sig env vm)) /\
     (forall s', step (DISPATCHING sig vm) (HandlerRuns env) s' ->
        s' = WAITING (handle_signal sig env vm)) /\
     loop_body sig env vm = Continue (handle_signal sig env vm)) /\
  (forall vm sig env, sig <> SIGBREAK ->
     pending_exception (handle_signal sig env vm) = None) /\
  (forall vm sig env k e,
     sig <> SIGBREAK -> pending_exception vm = None ->
     resolve_raises env = None -> resolved_klass env = Some k ->
     call_static_raises env = Some e ->
     output (handle_signal sig env vm)
       = output vm ++ JavaDispatch sig
                      :: (if tty_is_null env then [] else [Warning e sig])) /\
  (forall deliveries vm,
     (exists vm', signal_thread_entry deliveries vm = TERMINATED vm') <->
     In sigexitnum_pd (map fst deliveries)).
Proof.
  split; [|split; [|split; [|split]]].
  - intros s i vm' Hstep. inversion Hstep as [vm sig He| |]; subst.
    apply Z.eqb_eq in He. subst. split; reflexivity.
  - intros vm sig env Hne. apply Z.eqb_neq in Hne.
    split; [apply step_signal; exact Hne|].
    split; [apply step_dispatch|].
    split.
    + intros s' Hs'. inversion Hs'; subst. reflexivity.
    + unfold loop_body. rewrite Hne. reflexivity.
  - intros vm sig env Hne. unfold handle_signal.
    apply Z.eqb_neq in Hne. rewrite Hne. apply handle_default_clears.
  - intros vm sig env k e Hne Hp Hr Hk Hc. unfold handle_signal.
    apply Z.eqb_neq in Hne. rewrite Hne.
    apply (handle_default_output sig env vm k e); assumption.
  - apply signal_thread_entry_terminates.
Qed.


(** **** Runs of the dispatcher *)

(** The signals handed to [jdk.internal.misc.Signal.dispatch], in the
    order of the upcalls. *)
Definition java_dispatches (out : list action) : list Z :=
  flat_map (fun a => match a with JavaDispatch sig => [sig] | _ => [] end) out.

Lemma java_dispatches_app out1 out2 :
  java_dispatches (out1 ++ out2) = java_dispatches out1 ++ java_dispatches out2.
Proof. apply flat_map_app. Qed.

Lemma handle_SIGBREAK_dispatches env vm :
  java_dispatches (output (handle_SIGBREAK env vm)) = java_dispatches (output vm).
Proof.
  unfold handle_SIGBREAK, transit_state, print_stack_traces.
  destruct (INCLUDE_SERVICES && negb DisableAttachMechanism),
    (attach_state vm), (is_init_trigger env), (check_socket_file env),
    PrintClassHistogram, (should_post_data_dump env);
    cbn [output emit set_attach_state AttachListenerState_eqb attach_state];
    rewrite ?java_dispatches_app, ?app_nil_r; reflexivity.
Qed.

Lemma handle_default_dispatches sig env vm :
  resolved_klass env <> None ->
  java_dispatches (output (handle_default sig env vm))
  = java_dispatches (output vm) ++ [sig].
Proof.
  intros Hk. unfold handle_default, dispatch_to_java, report_pending_exception.
  destruct (resolved_klass env) as [k|]; [|congruence].
  destruct vm as [st [e0|] out];
    destruct (resolve_raises env), (call_static_raises env), (tty_is_null env);
    cbn [output emit set_pending_exception pending_exception];
    rewrite ?java_dispatches_app; cbn [java_dispatches flat_map app];
    rewrite ?app_nil_r; reflexivity.
Qed.

(** X4.  As long as the exit signal does not arrive and the class
    [jdk.internal.misc.Signal] resolves, the thread keeps waiting, and the
    signals it hands to Java are the signals received other than
    [SIGBREAK], each once and in the order of their arrival. *)
Theorem signal_thread_dispatches_in_order (deliveries : list (Z * handler_env))
    (vm : vm_state) :
  ~ In sigexitnum_pd (map fst deliveries) ->
  Forall (fun d => resolved_klass (snd d) <> None) deliveries ->
  exists vm',
    signal_thread_entry deliveries vm = WAITING vm' /\
    java_dispatches (output vm')
    = java_dispatches (output vm)
      ++ filter (fun sig => negb (sig =? SIGBREAK)) (map fst deliveries).
Proof.
  intros Hexit Hres. revert vm.
  induction Hres as [|[sig env] rest Hk _ IH]; intros vm.
  - exists vm. split; [reflexivity|]. simpl. rewrite app_nil_r. reflexivity.
  - cbn [map fst In] in Hexit. cbn [signal_thread_entry]. unfold loop_body.
    destruct (Z.eqb_spec sig sigexitnum_pd) as [He|Hne]; [exfalso; auto|].
    destruct (IH ltac:(tauto) (handle_signal sig env vm)) as (vm' & Hrun & Hout).
    exists vm'. split; [exact Hrun|]. rewrite Hout.
    cbn [map fst]. unfold handle_signal.
    cbn [filter].
    destruct (sig =? SIGBREAK) eqn:Hb; cbn [negb].
    + rewrite handle_SIGBREAK_dispatches. reflexivity.
    + cbn [snd] in Hk. rewrite handle_default_dispatches by exact Hk.
      rewrite <- app_assoc. reflexivity.
Qed.

(** X5.  While the attach listener is being initialized, the dispatcher ignores
    [SIGBREAK]: no dump is printed and the state of the VM is as
    before, however many of them arrive. *)
Theorem signal_thread_ignores_SIGBREAK (envs : list handler_env) (vm : vm_state) :
  INCLUDE_SERVICES = true -> DisableAttachMechanism = false ->
  SIGBREAK <> sigexitnum_pd ->
  attach_state vm = AL_INITIALIZING ->
  signal_thread_entry (map (fun env => (SIGBREAK, env)) envs) vm = WAITING vm.
Proof.
  intros Hs Hd Hne Hst. induction envs as [|env rest IH]; [reflexivity|].
  cbn [map signal_thread_entry]. unfold loop_body.
  apply Z.eqb_neq in Hne. rewrite Hne.
  unfold handle_signal. rewrite Z.eqb_refl.
  unfold handle_SIGBREAK, transit_state. rewrite Hs, Hd, Hst.
  cbn [negb andb AttachListenerState_eqb]. exact IH.
Qed.

End SignalThread.


(** A run on Linux-like numbers: SIGQUIT is 3, the exit value 65.  An
    upcall for signal 10 raises an exception of class 7; the thread reports
    it and keeps going until the exit value arrives. *)
Definition quiet_env : handler_env :=
  {| is_init_trigger := false; check_socket_file := false;
     should_post_data_dump := false; resolved_klass := Some 1;
     resolve_raises := None; call_static_raises := None; tty_is_null := false |}.

Definition failing_env : handler_env :=
  {| is_init_trigger := false; check_socket_file := false;
     should_post_data_dump := false; resolved_klass := Some 1;
     resolve_raises := None; call_static_raises := Some 7; tty_is_null := false |}.

Definition vm0 : vm_state :=
  {| attach_state := AL_NOT_INITIALIZED; pending_exception := None; output := [] |}.

Example signal_thread_run :
  signal_thread_entry 3 65 true false false
    [(10, failing_env); (12, quiet_env); (65, quiet_env); (10, quiet_env)] vm0
  = TERMINATED
      {| attach_state := AL_NOT_INITIALIZED; pending_exception := None;
         output := [JavaDispatch 10; Warning 7 10; JavaDispatch 12] |}.
Proof. reflexivity. Qed.

Example signal_thread_keeps_waiting :
  signal_thread_entry 3 65 true false false
    [(10, failing_env); (3, quiet_env)] vm0
  = WAITING
      {| attach_state := AL_NOT_INITIALIZED; pending_exception := None;
         output := [JavaDispatch 10; Warning 7 10;
                    PrintThreads; FindDeadlocks; PrintHeapAtSIGBREAK] |}.
Proof. reflexivity. Qed.

Lemma signal_thread_exit_only_witness :
  10 <> 65 /\ 10 <> 3 /\
  step 3 65 true false false (WAITING vm0) (SignalReceived 10) (DISPATCHING 10 vm0) /\
  pending_exception (handle_signal 3 true false false 10 failing_env vm0) = None /\
  output (handle_signal 3 true false false 10 failing_env vm0)
    = [JavaDispatch 10; Warning 7 10].
Proof.
  assert (Hexit : 10 <> 65) by lia.
  assert (Hbreak : 10 <> 3) by lia.
  destruct (signal_thread_exit_only 3 65 true false false)
    as (_ & Hother & Hclear & Hlog & _).
  destruct (Hother vm0 10 failing_env Hexit) as (Hstep & _).
  refine (conj Hexit (conj Hbreak (conj Hstep (conj _ _)))).
  - apply Hclear. exact Hbreak.
  - apply (Hlog vm0 10 failing_env 1 7); (exact Hbreak || reflexivity).
Defined.


(** The upcall raises an exception of class 7 and there is no tty. *)
Definition null_tty_env : handler_env :=
  {| is_init_trigger := false; check_socket_file := false;
     should_post_data_dump := false; resolved_klass := Some 1;
     resolve_raises := None; call_static_raises := Some 7; tty_is_null := true |}.

(** With [tty] null the exception of the upcall is cleared and nothing is
    reported: the output holds the upcall and no warning. *)
Lemma signal_thread_exception_not_logged :
  call_static_raises null_tty_env = Some 7 /\
  pending_exception (handle_signal 3 true false false 10 null_tty_env vm0) = None /\
  output (handle_signal 3 true false false 10 null_tty_env vm0) = [JavaDispatch 10] /\
  ~ In (Warning 7 10) (output (handle_signal 3 true false false 10 null_tty_env vm0)) /\
  signal_thread_entry 3 65 true false false [(10, null_tty_env)] vm0
  = WAITING {| attach_state := AL_NOT_INITIALIZED; pending_exception := None;
               output := [JavaDispatch 10] |}.
Proof.
  split; [reflexivity|]. split; [reflexivity|]. split; [reflexivity|].
  split; [|reflexivity].
  simpl. intros [H|[]]. discriminate.
Qed.


Lemma signal_thread_dispatches_in_order_witness :
  exists vm',
    signal_thread_entry 3 65 true false false
      [(10, failing_env); (3, quiet_env); (12, quiet_env)] vm0 = WAITING vm' /\
    java_dispatches (output vm') = [10; 12].
Proof.
  apply (signal_thread_dispatches_in_order 3 65 true false false
           [(10, failing_env); (3, quiet_env); (12, quiet_env)] vm0).
  - simpl. lia.
  - repeat constructor; discriminate.
Defined.

(** The VM with the attach listener on its way up. *)
Definition vm_initializing : vm_state :=
  {| attach_state := AL_INITIALIZING; pending_exception := None; output := [] |}.

Lemma signal_thread_ignores_SIGBREAK_witness :
  signal_thread_entry 3 65 true false false
    [(3, quiet_env); (3, failing_env)] vm_initializing
  = WAITING vm_initializing.
Proof.
  apply (signal_thread_ignores_SIGBREAK 3 65 true false false
           [quiet_env; failing_env] vm_initializing).
  - reflexivity.
  - reflexivity.
  - lia.
  - reflexivity.
Defined.


(** *** The native heap: [os::malloc], [os::realloc], [os::free] *)

(** Calls into the platform allocator and marks on a block header, in
    program order.  Pointers are addresses; [0] is [nullptr]. *)
Inductive heap_event : Type :=
| EvMalloc (outer_size result : Z)
| EvRealloc (ptr new_size result : Z)
| EvFree (ptr : Z)
| EvMarkDead (header : Z)
| EvRevive (header : Z).

(** The C heap as the platform allocator sees it (live block ↦ its size),
    the NMT headers stored at the start of blocks, the ledger (bytes
    accounted per category) and the trace of events. *)
Record heap_state : Type := {
  c_heap : gmap Z Z;
  headers : gmap Z MallocHeader.t;
  summary : gmap Z Z;
  trace : list heap_event
}.

Definition set_c_heap (f : gmap Z Z -> gmap Z Z) (st : heap_state) : heap_state :=
  {| c_heap := f (c_heap st); headers := headers st;
     summary := summary st; trace := trace st |}.

Definition set_headers (f : gmap Z MallocHeader.t -> gmap Z MallocHeader.t)
    (st : heap_state) : heap_state :=
  {| c_heap := c_heap st; headers := f (headers st);
     summary := summary st; trace := trace st |}.

Definition set_summary (f : gmap Z Z -> gmap Z Z) (st : heap_state) : heap_state :=
  {| c_heap := c_heap st; headers := headers st;
     summary := f (summary st); trace := trace st |}.

Definition log_event (e : heap_event) (st : heap_state) : heap_state :=
  {| c_heap := c_heap st; headers := headers st;
     summary := summary st; trace := trace st ++ [e] |}.

(** A computation on the heap either yields a value and a new state or
    stops the VM ([fatal], or undefined behaviour of the platform). *)
Inductive outcome (A : Type) : Type :=
| Ok (a : A) (st : heap_state)
| Abort.
Arguments Ok {A} a st.
Arguments Abort {A}.

Definition M (A : Type) : Type := heap_state -> outcome A.

Definition ret {A} (a : A) : M A := fun st => Ok a st.

Definition bind {A B} (c : M A) (k : A -> M B) : M B :=
  fun st => match c st with
            | Ok a st' => k a st'
            | Abort => Abort
            end.

Definition modify (f : heap_state -> heap_state) : M unit :=
  fun st => Ok tt (f st).

Definition abort {A} : M A := fun _ => Abort.

(** The instances give [M] the sequencing notations [x ← c; k] and
    [c;; k]. *)
#[global] Instance M_ret : MRet M := @ret.
#[global] Instance M_bind : MBind M := fun A B k c => bind c k.

Section NativeHeap.

(** Number of bits of [size_t]. *)
Variable w : Z.

(** [MemTracker::enabled()]; [sizeof(MallocHeader)] and the size of the
    footer that follows the user data. *)
Variable NMT_enabled : bool.
Variable header_size footer_size : Z.

(** The verdict of the malloc limit for a request of [size] bytes in a
    category, given the current ledger. *)
Variable malloc_limit_reached : gmap Z Z -> Z -> Z -> bool.

(** The address the platform's [::malloc] / [::realloc] hands out for a
    request, [0] when it fails. *)
Variable libc_malloc : gmap Z Z -> Z -> Z.
Variable libc_realloc : gmap Z Z -> Z -> Z -> Z.

(** The hooks of the NMT pre-initialization phase: [None] when the hook
    returns [false] and leaves the call to the code below. *)
Variable NMTPreInit_handle_malloc : heap_state -> Z -> option (Z * heap_state).
Variable NMTPreInit_handle_realloc :
  heap_state -> Z -> Z -> Z -> option (Z * heap_state).
Variable NMTPreInit_handle_free : heap_state -> Z -> option heap_state.

(** **** The platform allocator *)

Definition c_malloc (n : Z) : M Z := fun st =>
  let p := libc_malloc (c_heap st) n in
  let st := log_event (EvMalloc n p) st in
  if p =? 0 then Ok 0 st
  else Ok p (set_c_heap (fun h => <[p := n]> h) st).

(** [::realloc] of a pointer that is not a live block is undefined.  On
    failure the old block is untouched; on success the block, with its
    content and so with a header stored in it, is at the new address. *)
Definition c_realloc (ptr n : Z) : M Z := fun st =>
  match c_heap st !! ptr with
  | None => Abort
  | Some _ =>
      let q := libc_realloc (c_heap st) ptr n in
      let st := log_event (EvRealloc ptr n q) st in
      if q =? 0 then Ok 0 st
      else
        let st := set_c_heap (fun h => <[q := n]> (delete ptr h)) st in
        Ok q (set_headers
                (fun hs => match hs !! ptr with
                           | Some h => <[q := h]> (delete ptr hs)
                           | None => delete q (delete ptr hs)
                           end) st)
  end.

Definition c_free (ptr : Z) : M unit := fun st =>
  match c_heap st !! ptr with
  | None => Abort
  | Some _ => Ok tt (set_c_heap (fun h => delete ptr h) (log_event (EvFree ptr) st))
  end.

(** **** The ledger: [MemTracker] and [MallocTracker]

    nmt/memTracker.hpp and nmt/mallocTracker.hpp are not part of the
    sources at hand; the operations [os::malloc], [os::realloc] and
    [os::free] call are modelled from section 4.1 of the specification. *)

(** Modelled from the spec: [MemTracker::overhead_per_malloc()]; with
    tracking off there is no overhead. *)
Definition overhead_per_malloc : Z :=
  if NMT_enabled then header_size + footer_size else 0.

(** Modelled from the spec: [MemTracker::check_exceeds_limit(size, flags)]
    enforces the configured ceiling and rejects the request without
    aborting. *)
Definition check_exceeds_limit (size memflags : Z) : M bool := fun st =>
  Ok (NMT_enabled && malloc_limit_reached (summary st) size memflags) st.

Definition accounted (s : gmap Z Z) (memflags : Z) : Z :=
  match s !! memflags with Some n => n | None => 0 end.

Definition account (size memflags : Z) : M unit :=
  modify (set_summary (fun s => <[memflags := accounted s memflags + size]> s)).

(** Modelled from the spec: [MemTracker::deaccount(free_info)] takes the
    block out of the accounting of its category. *)
Definition deaccount (free_info : MallocHeader.FreeInfo) : M unit :=
  modify (set_summary (fun s =>
    <[MallocHeader.fi_flags free_info :=
        accounted s (MallocHeader.fi_flags free_info)
        - MallocHeader.fi_size free_info]> s)).

(** Modelled from the spec: [MemTracker::record_malloc(outer_ptr, size,
    flags, stack)] associates the metadata with the block and returns the
    pointer callers may use; a pass-through with tracking off.  The call
    stack is not modelled. *)
Definition record_malloc (outer_ptr size memflags : Z) : M Z :=
  if NMT_enabled then
    modify (set_headers (fun hs =>
      <[outer_ptr := MallocHeader.mk size memflags false]> hs));;
    account size memflags;;
    ret (outer_ptr + header_size)
  else ret outer_ptr.

(** Modelled from the spec: [MallocTracker::malloc_header(memblock)], the
    header in front of the user data, unchecked: the address and the
    content read there. *)
Definition malloc_header (memblock : Z) : M (Z * MallocHeader.t) := fun st =>
  match headers st !! (memblock - header_size) with
  | Some h => Ok (memblock - header_size, h) st
  | None => Abort
  end.

(** Modelled from the spec: [MallocHeader::resolve_checked(memblock)]; an
    already-dead marker is a corruption, detected synchronously and
    fatal. *)
Definition resolve_checked (memblock : Z) : M (Z * MallocHeader.t) :=
  '(header, h) ← malloc_header memblock;
  if MallocHeader.dead h then abort else ret (header, h).

(** [header->mark_block_as_dead()] and [header->revive()] on the header
    stored at address [header]. *)
Definition mark_block_as_dead (header : Z) : M unit :=
  modify (fun st =>
    log_event (EvMarkDead header)
      (set_headers (fun hs => alter MallocHeader.mark_block_as_dead header hs) st)).

Definition revive (header : Z) : M unit :=
  modify (fun st =>
    log_event (EvRevive header)
      (set_headers (fun hs => alter MallocHeader.revive header hs) st)).

(** Modelled from the spec: [MemTracker::record_free(ptr)] validates and
    removes the record and returns the original allocation for release; a
    pass-through with tracking off. *)
Definition record_free (memblock : Z) : M Z :=
  if NMT_enabled then
    '(header, h) ← resolve_checked memblock;
    deaccount (MallocHeader.free_info h);;
    mark_block_as_dead header;;
    ret header
  else ret memblock.

(** **** The facade

    The content of the blocks is not modelled, and so neither are the
    [memset] calls that fill a new block. *)

Definition malloc (size memflags : Z) : M Z := fun st =>
  match NMTPreInit_handle_malloc st size with
  | Some (rc, st') => Ok rc st'
  | None =>
      let size := Z.max 1 size in
      (exceeds ← check_exceeds_limit size memflags;
       if (exceeds : bool) then ret 0
       else
         let outer_size := Word.add w size overhead_per_malloc in
         if outer_size <? size then ret 0
         else
           outer_ptr ← c_malloc outer_size;
           if outer_ptr =? 0 then ret 0
           else record_malloc outer_ptr size memflags) st
  end.

Definition realloc (memblock size memflags : Z) : M Z := fun st =>
  match NMTPreInit_handle_realloc st memblock size memflags with
  | Some (rc, st') => Ok rc st'
  | None =>
      if memblock =? 0 then malloc size memflags st
      else
        let size := Z.max 1 size in
        (if NMT_enabled then
           let new_outer_size := Word.add w size overhead_per_malloc in
           if new_outer_size <? size then ret 0
           else
             '(_, old_header) ← malloc_header memblock;
             let old_size := MallocHeader.size old_header in
             exceeds ←
               (if size >? old_size
                then check_exceeds_limit (Word.sub w size old_size) memflags
                else ret false);
             if (exceeds : bool) then ret 0
             else
               '(header, h) ← resolve_checked memblock;
               let free_info := MallocHeader.free_info h in
               mark_block_as_dead header;;
               new_outer_ptr ← c_realloc header new_outer_size;
               if new_outer_ptr =? 0 then
                 revive header;; ret 0
               else
                 deaccount free_info;;
                 record_malloc new_outer_ptr size memflags
         else
           rc ← c_realloc memblock size;
           if rc =? 0 then ret 0 else ret rc) st
  end.

Definition free (memblock : Z) : M unit := fun st =>
  match NMTPreInit_handle_free st memblock with
  | Some st' => Ok tt st'
  | None =>
      if memblock =? 0 then Ok tt st
      else (old_outer_ptr ← record_free memblock; c_free old_outer_ptr) st
  end.

(** **** Blocks handed out by [os::malloc] *)

(** The address the platform allocator knows a block by. *)
Definition outer_ptr_of (memblock : Z) : Z :=
  if NMT_enabled then memblock - header_size else memblock.

(** [memblock] is a block that [os::malloc] returned for [size] bytes in
    category [memflags] and that has not been freed: the platform block is
    live and, with tracking on, its header is in place and not dead. *)
Definition live_block (st : heap_state) (memblock size memflags : Z) : Prop :=
  is_Some (c_heap st !! outer_ptr_of memblock) /\
  (NMT_enabled = true ->
   headers st !! outer_ptr_of memblock
     = Some (MallocHeader.mk size memflags false)).

(** [os::free(memblock)] goes through without corruption report. *)
Definition freeable (st : heap_state) (memblock : Z) : Prop :=
  NMTPreInit_handle_free st memblock = None ->
  exists st', free memblock st = Ok tt st' /\
              c_heap st' !! outer_ptr_of memblock = None.


Lemma live_block_freeable st memblock size memflags :
  memblock <> 0 -> live_block st memblock size memflags -> freeable st memblock.
Proof.
  intros Hnz [[n Hheap] Hhdr] Hpre. unfold free. rewrite Hpre.
  apply Z.eqb_neq in Hnz. rewrite Hnz.
  unfold record_free, outer_ptr_of in *.
  destruct NMT_enabled.
  - specialize (Hhdr eq_refl).
    unfold resolve_checked, malloc_header, deaccount, mark_block_as_dead,
      c_free, modify, ret, mbind, M_bind, bind. simpl.
    rewrite Hhdr. simpl. rewrite Hheap. simpl.
    eexists. split; [reflexivity|]. simpl. apply lookup_delete_eq.
  - unfold c_free, ret, mbind, M_bind, bind. simpl. rewrite Hheap.
    eexists. split; [reflexivity|]. simpl. apply lookup_delete_eq.
Qed.

(** What a successful [os::malloc] establishes. *)
Lemma malloc_returns_live_block st size memflags ptr st' :
  0 <= header_size ->
  NMTPreInit_handle_malloc st size = None ->
  malloc size memflags st = Ok ptr st' ->
  ptr <> 0 ->
  libc_malloc (c_heap st) (Word.add w (Z.max 1 size) overhead_per_malloc) <> 0 /\
  live_block st' ptr (Z.max 1 size) memflags.
Proof.
  intros Hhs Hpre Hm Hnz. unfold malloc in Hm. rewrite Hpre in Hm.
  unfold check_exceeds_limit, mbind, M_bind, bind in Hm.
  destruct (NMT_enabled && malloc_limit_reached (summary st) (Z.max 1 size) memflags);
    [inversion Hm; congruence|].
  destruct (Word.add w (Z.max 1 size) overhead_per_malloc <? Z.max 1 size);
    [inversion Hm; congruence|].
  unfold c_malloc in Hm.
  set (p := libc_malloc (c_heap st) (Word.add w (Z.max 1 size) overhead_per_malloc)) in *.
  destruct (Z.eqb_spec p 0) as [Hp|Hp].
  - rewrite Z.eqb_refl in Hm. inversion Hm; congruence.
  - split; [exact Hp|].
    apply Z.eqb_neq in Hp. rewrite Hp in Hm.
    unfold record_malloc, live_block, outer_ptr_of in *.
    destruct NMT_enabled.
    + unfold account, modify, ret, mbind, M_bind, bind in Hm. simpl in Hm.
      inversion Hm; subst ptr st'; clear Hm. simpl.
      replace (p + header_size - header_size) with p by lia.
      split; [rewrite lookup_insert_eq; eauto|].
      intros _. apply lookup_insert_eq.
    + unfold ret in Hm. inversion Hm; subst ptr st'; clear Hm. simpl.
      split; [rewrite lookup_insert_eq; eauto|discriminate].
Qed.


(** **** Size overflow *)

Lemma max_1_in_range size : 0 < w -> Word.in_range w size -> Word.in_range w (Z.max 1 size).
Proof.
  intros Hw [H0 H1]. unfold Word.in_range.
  assert (2 ^ 1 <= 2 ^ w) by (apply Z.pow_le_mono_r; lia).
  change (2 ^ 1) with 2 in *. lia.
Qed.

Lemma malloc_overflow st size memflags :
  NMTPreInit_handle_malloc st size = None ->
  Word.add w (Z.max 1 size) overhead_per_malloc < Z.max 1 size ->
  malloc size memflags st = Ok 0 st.
Proof.
  intros Hpre Hov. unfold malloc. rewrite Hpre.
  unfold check_exceeds_limit, mbind, M_bind, bind.
  destruct (NMT_enabled && malloc_limit_reached (summary st) (Z.max 1 size) memflags);
    [reflexivity|].
  apply Z.ltb_lt in Hov. rewrite Hov. reflexivity.
Qed.

Lemma realloc_overflow st memblock size memflags :
  0 < w -> Word.in_range w size ->
  NMTPreInit_handle_malloc st size = None ->
  NMTPreInit_handle_realloc st memblock size memflags = None ->
  Word.add w (Z.max 1 size) overhead_per_malloc < Z.max 1 size ->
  realloc memblock size memflags st = Ok 0 st.
Proof.
  intros Hw Hsize Hpm Hpre Hov. unfold realloc. rewrite Hpre.
  destruct (memblock =? 0); [apply malloc_overflow; assumption|].
  unfold overhead_per_malloc in *. destruct NMT_enabled.
  - apply Z.ltb_lt in Hov. rewrite Hov. reflexivity.
  - exfalso. unfold Word.add in Hov. rewrite Z.add_0_r in Hov.
    rewrite Word.wrap_small in Hov by (apply max_1_in_range; assumption). lia.
Qed.

(** C3. [os::malloc] computes the outer size in wrap-around arithmetic;
    the test [outer_size < size] holds exactly when the addition
    overflows, and then [os::malloc] returns null with the heap, the
    ledger and the trace of platform calls unchanged; [os::realloc] does
    the same on its new outer size. *)
Theorem malloc_overflow_returns_null st memblock size memflags :
  0 < w ->
  Word.in_range w size -> Word.in_range w overhead_per_malloc ->
  NMTPreInit_handle_malloc st size = None ->
  NMTPreInit_handle_realloc st memblock size memflags = None ->
  (Word.add w (Z.max 1 size) overhead_per_malloc < Z.max 1 size <->
   2 ^ w <= Z.max 1 size + overhead_per_malloc) /\
  (2 ^ w <= Z.max 1 size + overhead_per_malloc ->
   malloc size memflags st = Ok 0 st /\
   realloc memblock size memflags st = Ok 0 st).
Proof.
  intros Hw Hsize Hov Hpm Hpr.
  assert (Hiff : Word.add w (Z.max 1 size) overhead_per_malloc < Z.max 1 size <->
                 2 ^ w <= Z.max 1 size + overhead_per_malloc).
  { apply Word.add_overflow_iff; [apply max_1_in_range|]; assumption. }
  split; [exact Hiff|].
  intros Hwrap. apply Hiff in Hwrap. split.
  - apply malloc_overflow; assumption.
  - apply realloc_overflow; assumption.
Qed.

(** **** Zero-sized requests *)

Lemma record_malloc_Ok outer_ptr size memflags st :
  exists st',
    record_malloc outer_ptr size memflags st
    = Ok (if NMT_enabled then outer_ptr + header_size else outer_ptr) st'.
Proof.
  unfold record_malloc. destruct NMT_enabled.
  - unfold account, modify, ret, mbind, M_bind, bind. eexists. reflexivity.
  - unfold ret. eexists. reflexivity.
Qed.

(** C2. [os::malloc(0, flags)] is [os::malloc(1, flags)]; when the limit
    is not reached and the platform allocator returns a block, the result
    is a non-null pointer to a live block that [os::free] accepts. *)
Theorem malloc_zero_is_malloc_one st memflags :
  NMTPreInit_handle_malloc st 0 = None ->
  NMTPreInit_handle_malloc st 1 = None ->
  malloc 0 memflags st = malloc 1 memflags st /\
  (0 <= header_size -> 0 <= footer_size ->
   1 + overhead_per_malloc < 2 ^ w ->
   NMT_enabled && malloc_limit_reached (summary st) 1 memflags = false ->
   0 < libc_malloc (c_heap st) (1 + overhead_per_malloc) ->
   exists ptr st',
     malloc 0 memflags st = Ok ptr st' /\ ptr <> 0 /\
     live_block st' ptr 1 memflags /\ freeable st' ptr).
Proof.
  intros Hp0 Hp1. split.
  - unfold malloc. rewrite Hp0, Hp1. reflexivity.
  - intros Hhs Hfs Hfit Hlim Hplat.
    assert (Hov0 : 0 <= overhead_per_malloc).
    { unfold overhead_per_malloc. destruct NMT_enabled; lia. }
    assert (Hsum : Word.add w 1 overhead_per_malloc = 1 + overhead_per_malloc).
    { apply Word.add_no_overflow; lia. }
    assert (Hge : (1 + overhead_per_malloc <? 1) = false)
      by (apply Z.ltb_ge; lia).
    set (p := libc_malloc (c_heap st) (1 + overhead_per_malloc)) in *.
    assert (Hpz : (p =? 0) = false) by (apply Z.eqb_neq; lia).
    destruct (record_malloc_Ok p 1 memflags
                (set_c_heap (fun h => <[p := 1 + overhead_per_malloc]> h)
                   (log_event (EvMalloc (1 + overhead_per_malloc) p) st)))
      as [st' Hrec].
    set (ptr := if NMT_enabled then p + header_size else p) in *.
    assert (Hm : malloc 0 memflags st = Ok ptr st').
    { unfold malloc. rewrite Hp0. change (Z.max 1 0) with 1.
      unfold check_exceeds_limit, mbind, M_bind, bind.
      rewrite Hlim, Hsum, Hge. unfold c_malloc. fold p.
      rewrite Hpz. cbv beta iota. rewrite Hpz. exact Hrec. }
    assert (Hnz : ptr <> 0) by (unfold ptr; destruct NMT_enabled; lia).
    destruct (malloc_returns_live_block st 0 memflags ptr st' Hhs Hp0 Hm Hnz)
      as [_ Hlive].
    change (Z.max 1 0) with 1 in Hlive.
    exists ptr, st'. split; [exact Hm|]. split; [exact Hnz|].
    split; [exact Hlive|].
    apply (live_block_freeable st' ptr 1 memflags); assumption.
Qed.

(** **** Failure of the platform [realloc] *)








(** **** Round trip, double free and the successful [os::realloc] *)

Lemma malloc_Ok_inv st size memflags ptr st' :
  NMTPreInit_handle_malloc st size = None ->
  malloc size memflags st = Ok ptr st' -> ptr <> 0 ->
  exists n p,
    n = Word.add w (Z.max 1 size) overhead_per_malloc /\
    p = libc_malloc (c_heap st) n /\ p <> 0 /\
    record_malloc p (Z.max 1 size) memflags
      (set_c_heap (fun h => <[p := n]> h) (log_event (EvMalloc n p) st))
    = Ok ptr st'.
Proof.
  intros Hpre Hm Hnz. unfold malloc in Hm. rewrite Hpre in Hm.
  unfold check_exceeds_limit, mbind, M_bind, bind in Hm.
  destruct (NMT_enabled && malloc_limit_reached (summary st) (Z.max 1 size) memflags);
    [inversion Hm; congruence|].
  destruct (Word.add w (Z.max 1 size) overhead_per_malloc <? Z.max 1 size);
    [inversion Hm; congruence|].
  unfold c_malloc in Hm.
  destruct (libc_malloc (c_heap st) (Word.add w (Z.max 1 size) overhead_per_malloc)
            =? 0) eqn:Hpz.
  - rewrite Z.eqb_refl in Hm. inversion Hm; congruence.
  - rewrite Hpz in Hm. apply Z.eqb_neq in Hpz.
    eexists _, _. split; [reflexivity|]. split; [reflexivity|].
    split; [exact Hpz|exact Hm].
Qed.

(** X6.  A block handed out by [os::malloc] and given back to [os::free]: when
    the platform allocator returned an address that was not in use, the
    platform heap is as before the allocation and so is the amount
    accounted to every category; the platform [::free] receives the very
    address the platform [::malloc] returned. *)
Theorem malloc_free_round_trip st size memflags ptr st1 :
  NMTPreInit_handle_malloc st size = None ->
  malloc size memflags st = Ok ptr st1 ->
  ptr <> 0 ->
  c_heap st !! outer_ptr_of ptr = None ->
  NMTPreInit_handle_free st1 ptr = None ->
  exists st2,
    free ptr st1 = Ok tt st2 /\
    c_heap st2 = c_heap st /\
    (forall f, accounted (summary st2) f = accounted (summary st) f) /\
    trace st2 =
      trace st ++
      EvMalloc (Word.add w (Z.max 1 size) overhead_per_malloc) (outer_ptr_of ptr)
      :: (if NMT_enabled then [EvMarkDead (outer_ptr_of ptr)] else [])
      ++ [EvFree (outer_ptr_of ptr)].
Proof.
  intros Hpre Hm Hnz Hfresh Hfree.
  destruct (malloc_Ok_inv st size memflags ptr st1 Hpre Hm Hnz)
    as (n & p & Hn & Hp & Hpnz & Hrec).
  rewrite <- Hn. clear Hm Hn Hp.
  unfold free. rewrite Hfree. apply Z.eqb_neq in Hnz. rewrite Hnz.
  unfold record_malloc, record_free, outer_ptr_of in *.
  destruct NMT_enabled.
  - unfold account, modify, ret, mbind, M_bind, bind in Hrec. simpl in Hrec.
    inversion Hrec; subst ptr st1; clear Hrec.
    replace (p + header_size - header_size) with p in * by lia.
    unfold resolve_checked, malloc_header, deaccount, mark_block_as_dead,
      c_free, modify, ret, mbind, M_bind, bind. simpl.
    replace (p + header_size - header_size) with p by lia.
    rewrite lookup_insert_eq. simpl. rewrite lookup_insert_eq.
    eexists. split; [reflexivity|]. simpl.
    split; [apply delete_insert_id; exact Hfresh|].
    split; [|rewrite <- !app_assoc; reflexivity].
    intros f. unfold accounted.
    destruct (decide (f = memflags)) as [->|Hne].
    + rewrite !lookup_insert_eq. lia.
    + rewrite !lookup_insert_ne by congruence. reflexivity.
  - unfold ret in Hrec. inversion Hrec; subst ptr st1; clear Hrec.
    unfold c_free, ret, mbind, M_bind, bind. simpl.
    rewrite lookup_insert_eq.
    eexists. split; [reflexivity|]. simpl.
    split; [apply delete_insert_id; exact Hfresh|].
    split; [reflexivity|rewrite <- !app_assoc; reflexivity].
Qed.

(** X7.  With tracking on, [os::free] of a live block leaves its header marked
    dead, and a second [os::free] of the same pointer is stopped by the
    check of the header: the platform [::free] is not called again. *)
Theorem double_free_aborts st memblock size memflags :
  NMT_enabled = true ->
  memblock <> 0 ->
  live_block st memblock size memflags ->
  (forall s, NMTPreInit_handle_free s memblock = None) ->
  exists st',
    free memblock st = Ok tt st' /\
    trace st' = trace st ++ [EvMarkDead (memblock - header_size);
                             EvFree (memblock - header_size)] /\
    headers st' !! (memblock - header_size)
      = Some (MallocHeader.mk size memflags true) /\
    record_free memblock st' = Abort /\
    free memblock st' = Abort.
Proof.
  intros Hnmt Hnz [[n Hheap] Hhdr] Hpre. specialize (Hhdr Hnmt).
  unfold free. rewrite !Hpre.
  apply Z.eqb_neq in Hnz. rewrite Hnz.
  unfold record_free, outer_ptr_of in *. rewrite Hnmt in *.
  unfold resolve_checked, malloc_header, deaccount, mark_block_as_dead,
    c_free, modify, ret, mbind, M_bind, bind. simpl.
  rewrite Hhdr. simpl. rewrite Hheap.
  eexists. split; [reflexivity|]. simpl.
  split; [rewrite <- app_assoc; reflexivity|].
  rewrite Hpre, lookup_alter_eq, Hhdr. simpl.
  split; [reflexivity|]. split; reflexivity.
Qed.



End NativeHeap.


(** **** A concrete platform

    64-bit [size_t], tracking on with a 16-byte header and a 2-byte footer,
    no malloc limit, initialization phase over.  [::malloc] hands out
    page-aligned addresses; [::realloc] is out of memory. *)

Definition heap0 : heap_state :=
  {| c_heap := ∅; headers := ∅; summary := ∅; trace := [] |}.

Definition bump_malloc (heap : gmap Z Z) (n : Z) : Z :=
  4096 * (1 + Z.of_nat (size heap)).

Definition no_limit (s : gmap Z Z) (size memflags : Z) : bool := false.
Definition exhausted_realloc (heap : gmap Z Z) (ptr n : Z) : Z := 0.
Definition init_done_malloc (st : heap_state) (size : Z)
  : option (Z * heap_state) := None.
Definition init_done_realloc (st : heap_state) (memblock size memflags : Z)
  : option (Z * heap_state) := None.
Definition init_done_free (st : heap_state) (memblock : Z)
  : option heap_state := None.

Definition malloc64 : Z -> Z -> M Z :=
  malloc 64 true 16 2 no_limit bump_malloc init_done_malloc.
Definition realloc64 : Z -> Z -> Z -> M Z :=
  realloc 64 true 16 2 no_limit bump_malloc exhausted_realloc
          init_done_malloc init_done_realloc.
Definition free64 : Z -> M unit := free true 16 init_done_free.

(** The state after [os::malloc(100, 5)] on the empty heap. *)
Definition heap1 : heap_state :=
  match malloc64 100 5 heap0 with
  | Ok _ st => st
  | Abort => heap0
  end.

Example malloc64_100 :
  exists st, malloc64 100 5 heap0 = Ok 4112 st /\
             c_heap st !! 4096 = Some 118 /\
             headers st !! 4096 = Some (MallocHeader.mk 100 5 false) /\
             summary st !! 5 = Some 100 /\
             trace st = [EvMalloc 118 4096].
Proof. eexists. repeat split; vm_compute; reflexivity. Qed.

Lemma heap1_live_block : live_block true 16 heap1 4112 100 5.
Proof.
  split.
  - exists 118. vm_compute. reflexivity.
  - intros _. vm_compute. reflexivity.
Qed.



Lemma malloc_zero_is_malloc_one_witness :
  malloc64 0 5 heap0 = malloc64 1 5 heap0 /\
  exists ptr st',
    malloc64 0 5 heap0 = Ok ptr st' /\ ptr <> 0 /\
    live_block true 16 st' ptr 1 5 /\ freeable true 16 init_done_free st' ptr.
Proof.
  destruct (malloc_zero_is_malloc_one 64 true 16 2 no_limit bump_malloc
              init_done_malloc init_done_free heap0 5 eq_refl eq_refl)
    as [Heq Hok].
  split; [exact Heq|].
  apply Hok.
  - lia.
  - lia.
  - vm_compute. reflexivity.
  - reflexivity.
  - vm_compute. reflexivity.
Defined.

Lemma malloc_overflow_returns_null_witness :
  malloc64 (2 ^ 64 - 10) 5 heap1 = Ok 0 heap1 /\
  realloc64 4112 (2 ^ 64 - 10) 5 heap1 = Ok 0 heap1.
Proof.
  destruct (malloc_overflow_returns_null 64 true 16 2 no_limit bump_malloc
              exhausted_realloc init_done_malloc init_done_realloc
              heap1 4112 (2 ^ 64 - 10) 5) as [_ Hnull].
  - lia.
  - vm_compute. split; congruence.
  - vm_compute. split; congruence.
  - reflexivity.
  - reflexivity.
  - apply Hnull. vm_compute. congruence.
Defined.

(** With the same platform but a [::realloc] that moves the block, the old
    record is deaccounted and a new one created at the new address. *)
Example realloc_success :
  exists st,
    realloc 64 true 16 2 no_limit bump_malloc (fun _ _ _ => 40960)
            init_done_malloc init_done_realloc 4112 200 5 heap1
    = Ok 40976 st /\
    c_heap st !! 4096 = None /\ c_heap st !! 40960 = Some 218 /\
    headers st !! 40960 = Some (MallocHeader.mk 200 5 false) /\
    summary st !! 5 = Some 200.
Proof. eexists. repeat split; vm_compute; reflexivity. Qed.

(** Freeing twice is caught by the dead header. *)
Example double_free_detected :
  match free64 4112 heap1 with
  | Ok _ st => free64 4112 st
  | Abort => Ok tt heap0
  end = Abort.
Proof. vm_compute. reflexivity. Qed.



Lemma malloc_free_round_trip_witness :
  exists st2,
    free64 4112 heap1 = Ok tt st2 /\
    c_heap st2 = c_heap heap0 /\
    (forall f, accounted (summary st2) f = accounted (summary heap0) f) /\
    trace st2 = [EvMalloc 118 4096; EvMarkDead 4096; EvFree 4096].
Proof.
  apply (malloc_free_round_trip 64 true 16 2 no_limit bump_malloc
           init_done_malloc init_done_free heap0 100 5 4112 heap1).
  - reflexivity.
  - vm_compute. reflexivity.
  - lia.
  - vm_compute. reflexivity.
  - reflexivity.
Defined.

Lemma double_free_aborts_witness :
  exists st',
    free64 4112 heap1 = Ok tt st' /\
    trace st' = trace heap1 ++ [EvMarkDead 4096; EvFree 4096] /\
    headers st' !! 4096 = Some (MallocHeader.mk 100 5 true) /\
    record_free true 16 4112 st' = Abort /\
    free64 4112 st' = Abort.
Proof.
  apply (double_free_aborts true 16 init_done_free heap1 4112 100 5).
  - reflexivity.
  - lia.
  - exact heap1_live_block.
  - intros s. reflexivity.
Defined.



(** *** The random generator: [os::next_random], [os::random] *)

(** Conversion of an [unsigned int] to [int]. *)
Definition to_int (x : Z) : Z := if x <? 2 ^ 31 then x else x - 2 ^ 32.

(** The body of [next_random] up to its [return]: the final value of the
    [unsigned int lo]. *)
Definition next_random_lo (rand_seed : Z) : Z :=
  let a := 16807 in
  let m := 2147483647 in
  (* compute az=2^31p+q *)
  let lo := Word.wrap 32 (a * Z.land rand_seed 65535) in
  let hi := Word.wrap 32 (a * Z.shiftr rand_seed 16) in
  let lo := Word.add 32 lo (Word.shl 32 (Z.land hi 32767) 16) in
  (* if q overflowed, ignore the overflow and increment q *)
  let lo := if lo >? m then Word.add 32 (Z.land lo m) 1 else lo in
  let lo := Word.add 32 lo (Z.shiftr hi 15) in
  (* if (p+q) overflowed, ignore the overflow and increment (p+q) *)
  let lo := if lo >? m then Word.add 32 (Z.land lo m) 1 else lo in
  lo.

Definition next_random (rand_seed : Z) : Z := to_int (next_random_lo rand_seed).

(** [os::random()] without concurrent callers: the compare-and-swap
    succeeds at once; the result is the value returned and the new
    [_rand_seed]. *)
Definition random (_rand_seed : Z) : Z * Z :=
  let seed := _rand_seed in
  let rand := Word.wrap 32 (next_random seed) in
  (to_int rand, rand).

Example next_random_1 : next_random 1 = 16807.
Proof. reflexivity. Qed.

Example next_random_16807 : next_random 16807 = 282475249.
Proof. reflexivity. Qed.

Example next_random_large : next_random 2147483646 = 2147466840.
Proof. reflexivity. Qed.

Lemma land_0xFFFF x : Z.land x 65535 = x mod 65536.
Proof. change 65535 with (Z.ones 16). rewrite Z.land_ones by lia. reflexivity. Qed.

Lemma land_0x7FFF x : Z.land x 32767 = x mod 32768.
Proof. change 32767 with (Z.ones 15). rewrite Z.land_ones by lia. reflexivity. Qed.

Lemma land_0x7FFFFFFF x : Z.land x 2147483647 = x mod 2147483648.
Proof.
  change 2147483647 with (Z.ones 31). rewrite Z.land_ones by lia. reflexivity.
Qed.

(** The value of [lo] is congruent to [16807 * seed] modulo [2^31 - 1] and
    at most [2^31 - 1]. *)
Lemma next_random_lo_decompose x :
  0 <= x < 2 ^ 31 ->
  exists c, 0 <= c /\ 0 <= next_random_lo x <= 2147483647 /\
            16807 * x = next_random_lo x + c * 2147483647.
Proof.
  intros Hx. change (2 ^ 31) with 2147483648 in Hx.
  unfold next_random_lo. cbv zeta.
  rewrite !land_0x7FFFFFFF, !land_0xFFFF, !land_0x7FFF.
  rewrite !Z.shiftr_div_pow2 by lia.
  unfold Word.shl, Word.add, Word.wrap. rewrite Z.shiftl_mul_pow2 by lia.
  change (2 ^ 16) with 65536. change (2 ^ 15) with 32768.
  change (2 ^ 32) with 4294967296.
  pose proof (Z.div_mod x 65536 ltac:(lia)) as Hdx.
  pose proof (Z.mod_pos_bound x 65536 ltac:(lia)) as Hx0.
  assert (Hx1 : 0 <= x / 65536 < 32768).
  { split; [apply Z.div_pos; lia|apply Z.div_lt_upper_bound; lia]. }
  set (x0 := x mod 65536) in *. set (x1 := x / 65536) in *.
  rewrite (Z.mod_small (16807 * x0)) by lia.
  rewrite (Z.mod_small (16807 * x1)) by lia.
  set (hi := 16807 * x1) in *.
  pose proof (Z.div_mod hi 32768 ltac:(lia)) as Hdh.
  pose proof (Z.mod_pos_bound hi 32768 ltac:(lia)) as Hh0.
  assert (Hh1 : 0 <= hi / 32768 < 32768).
  { split; [apply Z.div_pos; lia|apply Z.div_lt_upper_bound; lia]. }
  set (h0 := hi mod 32768) in *. set (h1 := hi / 32768) in *.
  rewrite (Z.mod_small (h0 * 65536)) by lia.
  rewrite (Z.mod_small (16807 * x0 + h0 * 65536)) by lia.
  set (lo1 := 16807 * x0 + h0 * 65536) in *.
  assert (Hlo1 : 0 <= lo1 < 4294967296) by (unfold lo1; lia).
  assert (Hax : 16807 * x = lo1 + h1 * 2147483648) by (unfold lo1, hi in *; lia).
  (* first correction *)
  assert (Hlo2 : exists lo2 c2,
             (if lo1 >? 2147483647
              then (lo1 mod 2147483648 + 1) mod 4294967296 else lo1) = lo2 /\
             0 <= lo2 <= 2147483648 /\ 0 <= c2 /\ lo1 = lo2 + c2 * 2147483647).
  { destruct (Z.gtb_spec lo1 2147483647) as [Hgt|Hle].
    - exists (lo1 - 2147483647), 1.
      assert (Hm : lo1 mod 2147483648 = lo1 - 2147483648).
      { symmetry. apply (Z.mod_unique lo1 2147483648 1); lia. }
      rewrite Hm. rewrite Z.mod_small by lia. lia.
    - exists lo1, 0. lia. }
  destruct Hlo2 as (lo2 & c2 & -> & Hb2 & Hc2 & He2).
  rewrite (Z.mod_small (lo2 + h1)) by lia.
  set (lo3 := lo2 + h1) in *.
  (* second correction *)
  destruct (Z.gtb_spec lo3 2147483647) as [Hgt|Hle].
  - assert (Hm : lo3 mod 2147483648 = lo3 - 2147483648).
    { symmetry. apply (Z.mod_unique lo3 2147483648 1); lia. }
    rewrite Hm. rewrite Z.mod_small by lia.
    exists (c2 + h1 + 1). lia.
  - exists (c2 + h1). lia.
Qed.


Lemma coprime_modulus_multiplier : Z.gcd 2147483647 16807 = 1.
Proof. vm_compute. reflexivity. Qed.

Lemma modulus_not_divide x :
  1 <= x <= 2147483646 -> ~ (2147483647 | 16807 * x).
Proof.
  intros Hx Hd. apply Z.gauss in Hd; [|exact coprime_modulus_multiplier].
  apply Z.divide_pos_le in Hd; lia.
Qed.

Lemma next_random_lcg x :
  1 <= x <= 2147483646 -> next_random x = (16807 * x) mod 2147483647.
Proof.
  intros Hx.
  destruct (next_random_lo_decompose x) as (c & Hc & Hb & He);
    [change (2 ^ 31) with 2147483648; lia|].
  assert (Hne : next_random_lo x <> 2147483647).
  { intros Hm. apply (modulus_not_divide x Hx). exists (c + 1). lia. }
  unfold next_random, to_int. change (2 ^ 31) with 2147483648.
  destruct (Z.ltb_spec (next_random_lo x) 2147483648) as [_|?]; [|lia].
  apply (Z.mod_unique _ _ c); lia.
Qed.

Lemma next_random_range x :
  1 <= x <= 2147483646 -> 1 <= next_random x <= 2147483646.
Proof.
  intros Hx. rewrite next_random_lcg by assumption.
  pose proof (Z.mod_pos_bound (16807 * x) 2147483647 ltac:(lia)) as Hb.
  assert (Hnz : (16807 * x) mod 2147483647 <> 0).
  { intros H0. apply Z.mod_divide in H0; [|lia].
    exact (modulus_not_divide x Hx H0). }
  lia.
Qed.

(** Without concurrent callers [os::random()] returns [next_random] of the
    seed and stores it as the new seed. *)
Lemma random_next_random seed :
  1 <= seed <= 2147483646 ->
  random seed = (next_random seed, next_random seed).
Proof.
  intros Hs. pose proof (next_random_range seed Hs) as Hr.
  unfold random. cbv zeta.
  rewrite Word.wrap_small
    by (unfold Word.in_range; change (2 ^ 32) with 4294967296; lia).
  unfold to_int at 1. change (2 ^ 31) with 2147483648.
  destruct (Z.ltb_spec (next_random seed) 2147483648); [reflexivity|lia].
Qed.

(** The sequence generated from a seed: the [n]-th value is the [n]-fold
    application of [next_random], as [os::random] produces it. *)
Lemma iter_next_random n seed :
  1 <= seed <= 2147483646 ->
  Nat.iter n next_random seed = (16807 ^ Z.of_nat n * seed) mod 2147483647 /\
  1 <= Nat.iter n next_random seed <= 2147483646.
Proof.
  intros Hs. induction n as [|n [IHeq IHr]].
  - simpl. rewrite Z.mod_small by lia. lia.
  - change (Nat.iter (S n) next_random seed)
      with (next_random (Nat.iter n next_random seed)).
    split; [|apply next_random_range; exact IHr].
    rewrite next_random_lcg by exact IHr. rewrite IHeq.
    rewrite Z.mul_mod_idemp_r by lia.
    rewrite Nat2Z.inj_succ, Z.pow_succ_r by lia.
    f_equal. ring.
Qed.

(** **** Primality by trial division *)

Fixpoint no_divisor_from (p : Z) (fuel : nat) (d : Z) : bool :=
  match fuel with
  | O => true
  | S fuel' => if p mod d =? 0 then false else no_divisor_from p fuel' (d + 1)
  end.

Definition trial_division (p : Z) : bool :=
  (1 <? p) && no_divisor_from p (Z.to_nat (Z.sqrt p - 1)) 2.

Lemma no_divisor_from_sound p fuel d e :
  no_divisor_from p fuel d = true ->
  d <= e < d + Z.of_nat fuel -> p mod e <> 0.
Proof.
  revert d. induction fuel as [|fuel IH]; intros d Hc He; [lia|].
  simpl in Hc. destruct (Z.eqb_spec (p mod d) 0) as [|Hne]; [discriminate|].
  destruct (Z.eq_dec e d) as [->|Hed]; [exact Hne|].
  apply (IH (d + 1)); [exact Hc|lia].
Qed.

Lemma trial_division_sound p : trial_division p = true -> Z.prime p.
Proof.
  unfold trial_division. intros H. apply andb_true_iff in H as [H1 Hnd].
  apply Z.ltb_lt in H1. split; [exact H1|].
  intros n Hn [k Hk].
  pose proof (Z.sqrt_spec p ltac:(lia)) as Hs. cbv zeta in Hs.
  pose proof (Z.sqrt_nonneg p) as Hs0.
  assert (Hk1 : 1 < k < p) by nia.
  assert (Hsmall : exists e, 2 <= e <= Z.sqrt p /\ p mod e = 0).
  { destruct (Z_le_gt_dec n (Z.sqrt p)) as [Hle|Hgt].
    - exists n. split; [lia|]. apply Z.mod_divide; [lia|]. exists k. exact Hk.
    - exists k. split; [nia|].
      apply Z.mod_divide; [lia|]. exists n. lia. }
  destruct Hsmall as (e & He & Hmod).
  apply (no_divisor_from_sound p _ 2 e Hnd); [lia|exact Hmod].
Qed.

Lemma prime_modulus : Z.prime 2147483647.
Proof. apply trial_division_sound. vm_compute. reflexivity. Qed.


(** **** The multiplicative order of 16807 modulo [2^31 - 1] *)

Definition pow_is_one (k : Z) : Prop := 16807 ^ k mod 2147483647 = 1.

Lemma pow_is_one_sub i j :
  0 <= i -> 0 <= j -> pow_is_one (i + j) -> pow_is_one j -> pow_is_one i.
Proof.
  unfold pow_is_one. intros Hi Hj Hij Hone.
  rewrite Z.pow_add_r, Z.mul_mod, Hone, Z.mul_1_r, Z.mod_mod in Hij by lia.
  exact Hij.
Qed.

Lemma pow_is_one_mul j t :
  0 <= j -> 0 <= t -> pow_is_one j -> pow_is_one (j * t).
Proof.
  unfold pow_is_one. intros Hj Ht Hone.
  rewrite Z.pow_mul_r, Zpower_mod, Hone, Z.pow_1_l by lia.
  reflexivity.
Qed.

Lemma pow_is_one_mod k n :
  0 <= k -> 0 < n -> pow_is_one k -> pow_is_one n -> pow_is_one (k mod n).
Proof.
  intros Hk Hn Pk Pn.
  pose proof (Z.div_mod k n ltac:(lia)) as Hdm.
  pose proof (Z.mod_pos_bound k n Hn) as Hb.
  assert (Hq : 0 <= k / n) by (apply Z.div_pos; lia).
  apply (pow_is_one_sub (k mod n) (n * (k / n))); try lia.
  - replace (k mod n + n * (k / n)) with k by lia. exact Pk.
  - apply pow_is_one_mul; assumption || lia.
Qed.

Lemma pow_is_one_gcd y :
  0 <= y -> forall x, 0 <= x -> pow_is_one x -> pow_is_one y ->
  pow_is_one (Z.gcd x y).
Proof.
  intros Hy. pattern y. apply Zlt_0_ind; [clear y Hy|exact Hy].
  intros y IH Hy x Hx Px Py.
  destruct (Z.eq_dec y 0) as [->|Hnz].
  - rewrite Z.gcd_0_r, Z.abs_eq by lia. exact Px.
  - rewrite Z.gcd_comm, <- Z.gcd_mod by lia.
    pose proof (Z.mod_pos_bound x y ltac:(lia)) as Hb.
    rewrite Z.gcd_comm.
    apply IH; try lia; try assumption.
    apply pow_is_one_mod; assumption || lia.
Qed.

(** [2^31 - 2 = 2 * 3^2 * 7 * 11 * 31 * 151 * 331]. *)
Definition order_prime_factors : list Z := [2; 3; 7; 11; 31; 151; 331].

Lemma order_prime_factors_prime :
  Forall Z.prime order_prime_factors.
Proof.
  unfold order_prime_factors.
  repeat constructor; apply trial_division_sound; vm_compute; reflexivity.
Qed.

Lemma pow_is_one_order : pow_is_one 2147483646.
Proof.
  unfold pow_is_one. rewrite <- Zpow_mod_correct by lia.
  vm_compute. reflexivity.
Qed.

Lemma pow_not_one_cofactors :
  Forall (fun q => ~ pow_is_one (2147483646 / q)) order_prime_factors.
Proof.
  unfold order_prime_factors, pow_is_one.
  repeat constructor; rewrite <- Zpow_mod_correct by lia;
    vm_compute; discriminate.
Qed.

Lemma strip_prime t q M :
  Z.prime q -> ~ (q | t) -> (t | q * M) -> (t | M).
Proof.
  intros Hq Hnd Hd. apply (Z.gauss t q M Hd).
  rewrite Z.gcd_comm. apply Z.coprime_prime_l; assumption.
Qed.

Lemma divisor_has_prime_factor t :
  1 < t -> (t | 2147483646) -> Exists (fun q => (q | t)) order_prime_factors.
Proof.
  intros Ht Hd. pose proof order_prime_factors_prime as Hp.
  unfold order_prime_factors in *.
  repeat match goal with
         | H : Forall _ (_ :: _) |- _ => apply Forall_cons_iff in H as [? H]
         end.
  destruct (Z.BoolSpec_divide 2 t) as [|N2]; [apply Exists_cons_hd; assumption|].
  destruct (Z.BoolSpec_divide 3 t) as [|N3];
    [apply Exists_cons_tl, Exists_cons_hd; assumption|].
  destruct (Z.BoolSpec_divide 7 t) as [|N7];
    [do 2 apply Exists_cons_tl; apply Exists_cons_hd; assumption|].
  destruct (Z.BoolSpec_divide 11 t) as [|N11];
    [do 3 apply Exists_cons_tl; apply Exists_cons_hd; assumption|].
  destruct (Z.BoolSpec_divide 31 t) as [|N31];
    [do 4 apply Exists_cons_tl; apply Exists_cons_hd; assumption|].
  destruct (Z.BoolSpec_divide 151 t) as [|N151];
    [do 5 apply Exists_cons_tl; apply Exists_cons_hd; assumption|].
  destruct (Z.BoolSpec_divide 331 t) as [|N331];
    [do 6 apply Exists_cons_tl; apply Exists_cons_hd; assumption|].
  exfalso.
  change 2147483646 with (2 * (3 * (3 * (7 * (11 * (31 * (151 * (331 * 1))))))))
    in Hd.
  do 8 (apply strip_prime in Hd; [|assumption..]).
  apply Z.divide_pos_le in Hd; lia.
Qed.

(** The order of 16807 is [2^31 - 2]: it is a primitive root. *)
Lemma pow_is_one_iff k :
  0 <= k -> (pow_is_one k <-> (2147483646 | k)).
Proof.
  intros Hk. split.
  - intros Pk.
    pose proof (pow_is_one_gcd 2147483646 ltac:(lia) k Hk Pk pow_is_one_order) as Pg.
    pose proof (Z.gcd_divide_r k 2147483646) as [t Ht].
    pose proof (Z.gcd_nonneg k 2147483646) as Hg0.
    remember (Z.gcd k 2147483646) as g eqn:Hg.
    assert (Hgnz : g <> 0)
      by (intros E; rewrite E, Z.mul_0_r in Ht; discriminate).
    assert (Hgpos : 0 < g) by lia.
    assert (Htpos : 0 < t) by nia.
    destruct (Z.eq_dec t 1) as [->|Hne].
    + replace 2147483646 with g by lia. rewrite Hg. apply Z.gcd_divide_l.
    + exfalso.
      assert (Hdt : (t | 2147483646)) by (exists g; lia).
      pose proof (divisor_has_prime_factor t ltac:(lia) Hdt) as Hex.
      pose proof pow_not_one_cofactors as Hco.
      rewrite Exists_exists in Hex. destruct Hex as (q & Hin & [u Hu]).
      rewrite Forall_forall in Hco. apply (Hco q Hin).
      assert (Hq : 1 < q).
      { unfold order_prime_factors in Hin. simpl in Hin. intuition lia. }
      assert (Hu0 : 0 <= u) by nia.
      replace (2147483646 / q) with (g * u).
      * apply pow_is_one_mul; assumption || lia.
      * apply Z.div_unique_exact; [lia|]. rewrite Ht, Hu. ring.
  - intros [t Ht]. subst k.
    rewrite Z.mul_comm. apply pow_is_one_mul; try lia.
    exact pow_is_one_order.
Qed.

(** C6. On seeds in [1, 2^31 - 2], [os::next_random] is the Lehmer
    generator [16807 * seed mod (2^31 - 1)] over the integers, although it
    is computed in 32-bit arithmetic; the sequence it generates is
    [16807^n * seed mod (2^31 - 1)], stays within [1, 2^31 - 2] and comes
    back to the seed exactly at the multiples of [2^31 - 2]: the full
    period. *)
Theorem next_random_full_period seed :
  1 <= seed <= 2 ^ 31 - 2 ->
  next_random seed = (16807 * seed) mod (2 ^ 31 - 1) /\
  (forall n : nat,
     Nat.iter n next_random seed = (16807 ^ Z.of_nat n * seed) mod (2 ^ 31 - 1) /\
     1 <= Nat.iter n next_random seed <= 2 ^ 31 - 2) /\
  (forall n : nat,
     Nat.iter n next_random seed = seed <-> (2 ^ 31 - 2 | Z.of_nat n)).
Proof.
  change (2 ^ 31 - 2) with 2147483646. change (2 ^ 31 - 1) with 2147483647.
  intros Hs. split; [apply next_random_lcg; exact Hs|].
  split; [intros n; apply iter_next_random; exact Hs|].
  intros n. destruct (iter_next_random n seed Hs) as [-> _].
  rewrite <- pow_is_one_iff by lia. unfold pow_is_one.
  set (an := 16807 ^ Z.of_nat n). split.
  - intros Heq.
    assert (Hd : (2147483647 | seed * (an - 1))).
    { apply Z.mod_divide; [lia|].
      replace (seed * (an - 1)) with (an * seed - seed) by ring.
      rewrite Zminus_mod, Heq, (Z.mod_small seed) by lia.
      rewrite Z.sub_diag. reflexivity. }
    apply Z.gauss in Hd.
    + destruct Hd as [u Hu].
      replace an with (1 + u * 2147483647) by lia.
      rewrite Z.mod_add by lia. reflexivity.
    + apply Z.coprime_prime_small; [exact prime_modulus|lia].
  - intros Hone.
    rewrite <- Z.mul_mod_idemp_l, Hone, Z.mul_1_l by lia.
    apply Z.mod_small. lia.
Qed.

Lemma next_random_full_period_witness :
  1 <= 42 <= 2 ^ 31 - 2 /\
  next_random 42 = (16807 * 42) mod (2 ^ 31 - 1) /\
  (Nat.iter 3 next_random 42 = 42 <-> (2 ^ 31 - 2 | Z.of_nat 3)).
Proof.
  assert (H : 1 <= 42 <= 2 ^ 31 - 2) by (change (2 ^ 31 - 2) with 2147483646; lia).
  destruct (next_random_full_period 42 H) as (Hlcg & _ & Hperiod).
  exact (conj H (conj Hlcg (Hperiod 3%nat))).
Defined.


(** *** Safe probes: [os::is_readable_pointer], [os::is_readable_range] *)

Section SafeProbe.

(** Number of bits of [uintptr_t]. *)
Variable w : Z.

(** The 32-bit words that can be read: [memory a] is the [int] stored at
    the 4-byte aligned address [a], [None] where a read would fault. *)
Variable memory : Z -> option Z.

(** [os::min_page_size()]. *)
Variable min_page_size : Z.

(** Modelled from the spec: [SafeFetch32] (runtime/safefetch.hpp) is not
    part of the sources at hand; the read either returns the actual value
    or the sentinel passed by the caller, without crashing the process. *)
Definition SafeFetch32 (adr errValue : Z) : Z :=
  match memory adr with
  | Some v => v
  | None => errValue
  end.

Definition cafebabe : Z := to_int 0xcafebabe.  (* tester value 1 *)
Definition deadbeef : Z := to_int 0xdeadbeef.  (* tester value 2 *)

Definition is_readable_pointer (p : Z) : bool :=
  let aligned := align_down p 4 in
  negb (SafeFetch32 aligned cafebabe =? cafebabe)
  || negb (SafeFetch32 aligned deadbeef =? deadbeef).

(** The loop of [is_readable_range], entered with the current [p]; the
    result comes with the list of the pointers handed to
    [is_readable_pointer], in order.  [None]: not finished within [fuel]
    iterations. *)
Fixpoint range_probe (fuel : nat) (to p : Z) : option (bool * list Z) :=
  match fuel with
  | O => None
  | S fuel' =>
      if p <? to then
        if negb (is_readable_pointer p) then Some (false, [p])
        else
          match range_probe fuel' to (Word.add w p min_page_size) with
          | Some (b, probed) => Some (b, p :: probed)
          | None => None
          end
      else Some (true, [])
  end.

Definition is_readable_range (fuel : nat) (from to : Z) : option (bool * list Z) :=
  if from >=? to then Some (false, [])
  else range_probe fuel to (align_down from min_page_size).

Lemma align_down_4 p : align_down p 4 = 4 * (p / 4).
Proof.
  change 4 with (2 ^ 2) at 1. rewrite align_down_mod by lia.
  change (2 ^ 2) with 4. pose proof (Z.div_mod p 4 ltac:(lia)). lia.
Qed.

(** C7. With the fetch returning the stored value where the address is
    readable and the sentinel where it is not, [os::is_readable_pointer(p)]
    looks at [p] aligned down to a multiple of 4 and is true exactly when
    that address is readable, whatever the value stored there, the two
    tester values included. *)
Theorem is_readable_pointer_iff (p : Z) :
  align_down p 4 = 4 * (p / 4) /\
  (is_readable_pointer p = true <-> memory (align_down p 4) <> None) /\
  (memory (align_down p 4) = Some cafebabe -> is_readable_pointer p = true) /\
  (memory (align_down p 4) = Some deadbeef -> is_readable_pointer p = true).
Proof.
  split; [apply align_down_4|].
  assert (Hsome : forall v, memory (align_down p 4) = Some v ->
                            is_readable_pointer p = true).
  { intros v Hv. unfold is_readable_pointer, SafeFetch32. rewrite Hv.
    destruct (Z.eqb_spec v cafebabe) as [->|Hne]; [|reflexivity].
    reflexivity. }
  split; [|split; apply Hsome].
  split.
  - intros Ht Hnone. unfold is_readable_pointer, SafeFetch32 in Ht.
    rewrite Hnone, !Z.eqb_refl in Ht. discriminate.
  - intros Hne. destruct (memory (align_down p 4)) as [v|]; [|congruence].
    apply (Hsome v eq_refl).
Qed.

Lemma range_probe_true fuel to p probed :
  0 <= p -> to <= 2 ^ w -> 0 <= min_page_size ->
  range_probe fuel to p = Some (true, probed) ->
  forall i, 0 <= i -> p + i * min_page_size < to ->
    In (p + i * min_page_size) probed /\
    is_readable_pointer (p + i * min_page_size) = true.
Proof.
  intros Hp Hto Hmps. revert p probed Hp.
  induction fuel as [|fuel IH]; intros p probed Hp Hr i Hi Hlt; [discriminate|].
  simpl in Hr.
  destruct (Z.ltb_spec p to) as [Hpt|Hpt]; [|nia].
  destruct (is_readable_pointer p) eqn:Hrd; simpl in Hr; [|discriminate].
  destruct (range_probe fuel to (Word.add w p min_page_size))
    as [[b rest]|] eqn:Hrest; [|discriminate].
  inversion Hr; subst b probed; clear Hr.
  destruct (Z.eq_dec i 0) as [->|Hi0].
  - rewrite Z.mul_0_l, Z.add_0_r. split; [left; reflexivity|exact Hrd].
  - assert (Hfit : p + min_page_size < 2 ^ w) by nia.
    rewrite Word.add_no_overflow in Hrest by lia.
    destruct (IH (p + min_page_size) rest ltac:(lia) Hrest (i - 1) ltac:(lia))
      as [Hin Hok]; [nia|].
    replace (p + min_page_size + (i - 1) * min_page_size)
      with (p + i * min_page_size) in * by ring.
    split; [right; exact Hin|exact Hok].
Qed.

(** The loop ends, with the verdict of the probes, when the stride cannot
    wrap around the address space. *)
Lemma range_probe_total fuel to p :
  0 <= p -> 0 < min_page_size -> to + min_page_size <= 2 ^ w ->
  Z.max 0 (to - p + min_page_size) < Z.of_nat fuel * min_page_size ->
  exists b probed,
    range_probe fuel to p = Some (b, probed) /\
    (b = true <->
     forall i, 0 <= i -> p + i * min_page_size < to ->
       is_readable_pointer (p + i * min_page_size) = true).
Proof.
  intros Hp Hmps Hto. revert p Hp.
  induction fuel as [|fuel IH]; intros p Hp Hfuel.
  - exfalso. simpl in Hfuel. lia.
  - simpl. destruct (Z.ltb_spec p to) as [Hpt|Hpt].
    + destruct (is_readable_pointer p) eqn:Hrd; simpl.
      * rewrite Word.add_no_overflow by lia.
        destruct (IH (p + min_page_size) ltac:(lia) ltac:(nia))
          as (b & rest & -> & Hb).
        exists b, (p :: rest). split; [reflexivity|].
        rewrite Hb. split.
        -- intros Hall i Hi Hlt.
           destruct (Z.eq_dec i 0) as [->|Hi0].
           ++ rewrite Z.mul_0_l, Z.add_0_r. exact Hrd.
           ++ replace (p + i * min_page_size)
                with (p + min_page_size + (i - 1) * min_page_size) by ring.
              apply Hall; [lia|].
              replace (p + min_page_size + (i - 1) * min_page_size)
                with (p + i * min_page_size) by ring. exact Hlt.
        -- intros Hall i Hi Hlt.
           replace (p + min_page_size + i * min_page_size)
             with (p + (i + 1) * min_page_size) in * by ring.
           apply Hall; lia.
      * exists false, [p]. split; [reflexivity|].
        split; [discriminate|].
        intros Hall. specialize (Hall 0 ltac:(lia)).
        rewrite Z.mul_0_l, Z.add_0_r in Hall. rewrite Hall in Hrd by lia.
        discriminate.
    + exists true, []. split; [reflexivity|].
      split; [|reflexivity]. intros _ i Hi Hlt. nia.
Qed.

Lemma align_down_bounds x k :
  0 <= k -> 0 <= x -> 0 <= align_down x (2 ^ k) <= x.
Proof.
  intros Hk Hx. rewrite align_down_mod by assumption.
  assert (Hpos : 0 < 2 ^ k) by (apply Z.pow_pos_nonneg; lia).
  pose proof (Z.mod_pos_bound x (2 ^ k) Hpos).
  pose proof (Z.mod_le x (2 ^ k) Hx Hpos). lia.
Qed.

(** C9. For [from >= to], [os::is_readable_range] is false and calls
    [is_readable_pointer] on nothing.  For [from < to], a result [true]
    means that every address [align_down(from) + i * min_page_size] below
    [to] was handed to [is_readable_pointer] and found readable; and
    where the stride cannot wrap around the address space the loop ends,
    with [true] exactly when all these probes succeed. *)
Theorem is_readable_range_sound (from to k : Z) :
  0 <= k -> min_page_size = 2 ^ k ->
  0 <= from -> to <= 2 ^ w ->
  (from >= to ->
   forall fuel, is_readable_range fuel from to = Some (false, [])) /\
  (from < to ->
   (forall fuel probed,
      is_readable_range fuel from to = Some (true, probed) ->
      forall i, 0 <= i ->
        align_down from min_page_size + i * min_page_size < to ->
        In (align_down from min_page_size + i * min_page_size) probed /\
        is_readable_pointer (align_down from min_page_size + i * min_page_size)
          = true) /\
   (to + min_page_size <= 2 ^ w ->
    exists fuel b probed,
      is_readable_range fuel from to = Some (b, probed) /\
      (b = true <->
       forall i, 0 <= i ->
         align_down from min_page_size + i * min_page_size < to ->
         is_readable_pointer (align_down from min_page_size + i * min_page_size)
           = true))).
Proof.
  intros Hk Hmps Hfrom Hto.
  assert (Hpos : 0 < min_page_size)
    by (rewrite Hmps; apply Z.pow_pos_nonneg; lia).
  assert (Hal : 0 <= align_down from min_page_size <= from)
    by (rewrite Hmps; apply align_down_bounds; assumption).
  split.
  - intros Hge fuel. unfold is_readable_range.
    destruct (Z.geb_spec from to) as [_|?]; [reflexivity|lia].
  - intros Hlt.
    assert (Hgeb : (from >=? to) = false).
    { destruct (Z.geb_spec from to); [lia|reflexivity]. }
    split.
    + intros fuel probed Hr. unfold is_readable_range in Hr. rewrite Hgeb in Hr.
      apply (range_probe_true fuel to _ probed); try lia. exact Hr.
    + intros Hnowrap. unfold is_readable_range. rewrite Hgeb.
      set (p0 := align_down from min_page_size) in *.
      exists (Z.to_nat (to - p0 + 2)).
      apply range_probe_total; try lia.
      rewrite Z2Nat.id by lia. nia.
Qed.

End SafeProbe.


(** Two readable pages at 4096 and 8192 whose words all hold the first
    tester value: the second fetch tells them from unreadable memory. *)
Definition page_memory (a : Z) : option Z :=
  if (4096 <=? a) && (a <? 12288) then Some cafebabe else None.

Example is_readable_pointer_sentinel : is_readable_pointer page_memory 4099 = true.
Proof. reflexivity. Qed.

Example is_readable_pointer_unmapped : is_readable_pointer page_memory 1 = false.
Proof. reflexivity. Qed.

Example is_readable_range_pages :
  is_readable_range 64 page_memory 4096 3 5000 9000 = Some (true, [4096; 8192]).
Proof. reflexivity. Qed.

Example is_readable_range_hole :
  is_readable_range 64 page_memory 4096 4 5000 13000
  = Some (false, [4096; 8192; 12288]).
Proof. reflexivity. Qed.

Example is_readable_range_inverted :
  is_readable_range 64 page_memory 4096 4 9000 5000 = Some (false, []).
Proof. reflexivity. Qed.

Lemma is_readable_range_sound_witness :
  0 <= 12 /\ 4096 = 2 ^ 12 /\ 0 <= 5000 /\ 9000 <= 2 ^ 64 /\
  (forall i, 0 <= i ->
     align_down 5000 4096 + i * 4096 < 9000 ->
     In (align_down 5000 4096 + i * 4096) [4096; 8192] /\
     is_readable_pointer page_memory (align_down 5000 4096 + i * 4096) = true).
Proof.
  assert (H1 : 0 <= 12) by lia.
  assert (H2 : 4096 = 2 ^ 12) by reflexivity.
  assert (H3 : 0 <= 5000) by lia.
  assert (H4 : 9000 <= 2 ^ 64) by (vm_compute; congruence).
  destruct (is_readable_range_sound 64 page_memory 4096 5000 9000 12 H1 H2 H3 H4)
    as [_ Hlt].
  destruct (Hlt ltac:(lia)) as [Hsound _].
  refine (conj H1 (conj H2 (conj H3 (conj H4 _)))).
  apply (Hsound 3%nat [4096; 8192]). reflexivity.
Defined.


(** *** [os::page_size_for_region] *)

Section PageSizeForRegion.

(** Number of bits of [size_t]; the flag [UseLargePages]; the mask of
    [os::_page_sizes]; [os::vm_page_size()]. *)
Variable w : Z.
Variable UseLargePages : bool.
Variable page_sizes : Z.
Variable vm_page_size : Z.

(** The [for] loop over [page_sizes().largest()], [next_smaller], ...,
    entered with the current [page_size]: [Some (Some s)] when the body
    returns [s], [Some None] when the loop runs to its end, [None] when it
    has not finished within [fuel] iterations. *)
Fixpoint page_size_walk (fuel : nat) (region_size max_page_size : Z)
    (must_be_aligned : bool) (page_size : Z) : option (option Z) :=
  match fuel with
  | O => None
  | S fuel' =>
      if page_size =? 0 then Some None
      else if (page_size <=? max_page_size)
              && (negb must_be_aligned || is_aligned region_size page_size)
           then Some (Some page_size)
           else page_size_walk fuel' region_size max_page_size must_be_aligned
                  (PageSizes.next_smaller w page_sizes page_size)
  end.

(** A mask has at most [w] page sizes. *)
Definition page_size_walk_fuel : nat := S (Z.to_nat w).

Definition page_size_for_region (region_size min_pages : Z)
    (must_be_aligned : bool) : option Z :=
  if UseLargePages then
    let max_page_size := region_size / min_pages in
    match page_size_walk page_size_walk_fuel region_size max_page_size
            must_be_aligned (PageSizes.largest w page_sizes) with
    | Some (Some page_size) => Some page_size
    | Some None => Some vm_page_size
    | None => None
    end
  else Some vm_page_size.

(** **** The selection in the words of the specification *)

(** The page sizes [2^k] of the mask [v] with [k < n], largest first. *)
Fixpoint sizes_below (v : Z) (n : nat) : list Z :=
  match n with
  | O => []
  | S m =>
      if Z.testbit v (Z.of_nat m) then 2 ^ Z.of_nat m :: sizes_below v m
      else sizes_below v m
  end.

(** The registered sizes, from largest to smallest. *)
Definition registered_sizes : list Z := sizes_below page_sizes (Z.to_nat w).

(** [region_size / min_pages >= page_size] and, if [must_be_aligned],
    [region_size] is a multiple of [page_size]. *)
Definition qualifies (region_size min_pages : Z) (must_be_aligned : bool)
    (page_size : Z) : bool :=
  (region_size / min_pages >=? page_size)
  && (negb must_be_aligned || (region_size mod page_size =? 0)).

(** The first registered size, from largest to smallest, that qualifies;
    the base page size if none does. *)
Definition first_qualifying_page_size (region_size min_pages : Z)
    (must_be_aligned : bool) : Z :=
  match find (qualifies region_size min_pages must_be_aligned) registered_sizes with
  | Some page_size => page_size
  | None => vm_page_size
  end.

(** **** The walk enumerates the registered sizes *)

Lemma sizes_below_largest v n :
  PageSizes.is_largest_below v (2 ^ Z.of_nat n) (hd 0 (sizes_below v n)).
Proof.
  induction n as [|m IH].
  - left. split; [reflexivity|].
    intros s Hs. apply PageSizes.member_pos in Hs. change (2 ^ Z.of_nat 0) with 1. lia.
  - cbn [sizes_below].
    assert (Hstep : forall j, 0 <= j -> 2 ^ j < 2 ^ Z.of_nat (S m) -> j <= Z.of_nat m).
    { intros j Hj Hlt. apply PageSizes.pow2_lt_inv in Hlt; lia. }
    destruct (Z.testbit v (Z.of_nat m)) eqn:Hb.
    + right. cbn [hd]. split; [|split].
      * exists (Z.of_nat m). repeat split; (lia || assumption).
      * apply PageSizes.pow2_lt_mono; lia.
      * intros s (j & Hj & -> & Hbj) Hlt.
        apply PageSizes.pow2_le_mono; [lia|]. apply Hstep; assumption.
    + assert (Hnot : forall j, 0 <= j -> Z.testbit v j = true -> j <> Z.of_nat m)
        by (intros j _ Hbj ->; congruence).
      destruct IH as [[-> Hnone]|(Hm & Hlt & Hmax)].
      * left. split; [reflexivity|].
        intros s Hs. specialize (Hnone s Hs).
        destruct Hs as (j & Hj & -> & Hbj).
        apply PageSizes.pow2_le_mono; [lia|].
        specialize (Hnot j Hj Hbj).
        destruct (Z_lt_le_dec j (Z.of_nat m)) as [Hjm|Hjm]; [|lia].
        apply (PageSizes.pow2_lt_mono j (Z.of_nat m)) in Hjm; lia.
      * right. split; [exact Hm|]. split.
        -- assert (2 ^ Z.of_nat m < 2 ^ Z.of_nat (S m))
             by (apply PageSizes.pow2_lt_mono; lia). lia.
        -- intros s Hs Hs_lt. apply Hmax; [exact Hs|].
           destruct Hs as (j & Hj & -> & Hbj).
           specialize (Hnot j Hj Hbj). specialize (Hstep j Hj Hs_lt).
           apply PageSizes.pow2_lt_mono; lia.
Qed.

Lemma next_smaller_hd v n :
  Z.of_nat n < w ->
  PageSizes.next_smaller w v (2 ^ Z.of_nat n) = hd 0 (sizes_below v n).
Proof.
  intros Hn.
  apply (PageSizes.is_largest_below_unique v (2 ^ Z.of_nat n)).
  - apply PageSizes.next_smaller_below. lia.
  - apply sizes_below_largest.
Qed.

Lemma largest_hd v :
  0 < w -> PageSizes.largest w v = hd 0 (sizes_below v (Z.to_nat w)).
Proof.
  intros Hw. unfold PageSizes.largest, max_power_of_2.
  remember (Z.to_nat (w - 1)) as n eqn:Hn.
  replace (Z.to_nat w) with (S n) by lia.
  replace (w - 1) with (Z.of_nat n) by lia.
  rewrite PageSizes.contains_testbit by lia.
  cbn [sizes_below].
  destruct (Z.testbit v (Z.of_nat n)); [reflexivity|].
  apply next_smaller_hd. lia.
Qed.

Lemma page_size_walk_find region_size max_page_size must_be_aligned n fuel :
  (n < fuel)%nat -> Z.of_nat n <= w ->
  page_size_walk fuel region_size max_page_size must_be_aligned
    (hd 0 (sizes_below page_sizes n))
  = Some (find (fun page_size =>
                  (page_size <=? max_page_size)
                  && (negb must_be_aligned || is_aligned region_size page_size))
               (sizes_below page_sizes n)).
Proof.
  revert fuel. induction n as [|m IH]; intros fuel Hfuel Hn.
  - destruct fuel as [|fuel]; [lia|]. reflexivity.
  - cbn [sizes_below].
    destruct (Z.testbit page_sizes (Z.of_nat m)) eqn:Hb.
    + destruct fuel as [|fuel]; [lia|]. cbn [hd find page_size_walk].
      assert (Hpos : 0 < 2 ^ Z.of_nat m) by (apply Z.pow_pos_nonneg; lia).
      destruct (Z.eqb_spec (2 ^ Z.of_nat m) 0) as [?|_]; [lia|].
      destruct ((2 ^ Z.of_nat m <=? max_page_size)
                && (negb must_be_aligned
                    || is_aligned region_size (2 ^ Z.of_nat m)));
        [reflexivity|].
      rewrite next_smaller_hd by lia. apply IH; lia.
    + apply IH; lia.
Qed.

Lemma sizes_below_pow2 v n :
  Forall (fun s => exists k, 0 <= k /\ s = 2 ^ k) (sizes_below v n).
Proof.
  induction n as [|m IH]; cbn [sizes_below]; [constructor|].
  destruct (Z.testbit v (Z.of_nat m)); [|exact IH].
  constructor; [|exact IH]. exists (Z.of_nat m). split; [lia|reflexivity].
Qed.

Lemma find_ext_Forall {A} (f g : A -> bool) (P : A -> Prop) l :
  Forall P l -> (forall x, P x -> f x = g x) -> find f l = find g l.
Proof.
  intros Hall Hfg. induction Hall as [|x l Hx _ IH]; [reflexivity|].
  simpl. rewrite (Hfg x Hx), IH. reflexivity.
Qed.

Lemma is_aligned_mod x k : 0 <= k -> is_aligned x (2 ^ k) = (x mod 2 ^ k =? 0).
Proof.
  intros Hk. unfold is_aligned.
  replace (2 ^ k - 1) with (Z.ones k) by (rewrite Z.ones_equiv; lia).
  rewrite Z.land_ones by lia. reflexivity.
Qed.

(** C5, as amended.  With [UseLargePages] on, [os::page_size_for_region]
    returns the first registered page size, from largest to smallest, with
    [region_size / min_pages >= page_size] and, if [must_be_aligned],
    [region_size] a multiple of it, and the base page size when none
    qualifies; with [UseLargePages] off it returns the base page size. *)
Theorem page_size_for_region_spec (region_size min_pages : Z)
    (must_be_aligned : bool) :
  0 < w -> 0 < min_pages ->
  page_size_for_region region_size min_pages must_be_aligned
  = Some (if UseLargePages
          then first_qualifying_page_size region_size min_pages must_be_aligned
          else vm_page_size).
Proof.
  intros Hw Hmin. unfold page_size_for_region.
  destruct UseLargePages; [|reflexivity].
  cbv zeta. rewrite largest_hd by assumption.
  rewrite page_size_walk_find
    by (unfold page_size_walk_fuel; lia).
  unfold first_qualifying_page_size, registered_sizes.
  rewrite (find_ext_Forall _ (qualifies region_size min_pages must_be_aligned)
             _ _ (sizes_below_pow2 page_sizes (Z.to_nat w))).
  - destruct (find _ _); reflexivity.
  - intros s (k & Hk & ->). unfold qualifies.
    rewrite is_aligned_mod by assumption.
    rewrite Z.geb_leb. reflexivity.
Qed.


(** **** [os::page_size_for_region_aligned] and
    [os::page_size_for_region_unaligned] *)

Definition page_size_for_region_aligned (region_size min_pages : Z) : option Z :=
  page_size_for_region region_size min_pages true.

Definition page_size_for_region_unaligned (region_size min_pages : Z) : option Z :=
  page_size_for_region region_size min_pages false.

Lemma sizes_below_member v n s :
  In s (sizes_below v n) ->
  PageSizes.member v s /\ s < 2 ^ Z.of_nat n.
Proof.
  induction n as [|m IH]; cbn [sizes_below]; [intros []|].
  assert (Hlt : 2 ^ Z.of_nat m < 2 ^ Z.of_nat (S m))
    by (apply PageSizes.pow2_lt_mono; lia).
  destruct (Z.testbit v (Z.of_nat m)) eqn:Hb.
  - intros [<-|Hin].
    + split; [|exact Hlt]. exists (Z.of_nat m). repeat split; (lia || assumption).
    + destruct (IH Hin) as [Hm Hs]. split; [exact Hm|lia].
  - intros Hin. destruct (IH Hin) as [Hm Hs]. split; [exact Hm|lia].
Qed.

Lemma find_weaker_sizes_below (f g : Z -> bool) v n a :
  (forall s, f s = true -> g s = true) ->
  find f (sizes_below v n) = Some a ->
  exists u, find g (sizes_below v n) = Some u /\ a <= u.
Proof.
  intros Hfg. induction n as [|m IH]; cbn [sizes_below]; [discriminate|].
  destruct (Z.testbit v (Z.of_nat m)); [|exact IH].
  cbn [find]. destruct (g (2 ^ Z.of_nat m)) eqn:Hg.
  - intros Hfind. exists (2 ^ Z.of_nat m). split; [reflexivity|].
    destruct (f (2 ^ Z.of_nat m)).
    + inversion Hfind. lia.
    + apply find_some in Hfind. destruct Hfind as [Hin _].
      apply sizes_below_member in Hin. lia.
  - destruct (f (2 ^ Z.of_nat m)) eqn:Hf; [|exact IH].
    apply Hfg in Hf. congruence.
Qed.

Lemma page_size_for_region_find (region_size min_pages : Z)
    (must_be_aligned : bool) :
  0 < w -> UseLargePages = true ->
  page_size_for_region region_size min_pages must_be_aligned
  = Some (match find (fun page_size =>
                        (page_size <=? region_size / min_pages)
                        && (negb must_be_aligned
                            || is_aligned region_size page_size))
                     (sizes_below page_sizes (Z.to_nat w)) with
          | Some page_size => page_size
          | None => vm_page_size
          end).
Proof.
  intros Hw Hlp. unfold page_size_for_region. rewrite Hlp. cbv zeta.
  rewrite largest_hd by assumption.
  rewrite page_size_walk_find by (unfold page_size_walk_fuel; lia).
  destruct (find _ _); reflexivity.
Qed.

(** X9.  With [UseLargePages] on, the size [os::page_size_for_region_aligned]
    returns is the base page size, or a registered size that divides the
    region and gives it at least [min_pages] pages; in this second case
    [os::page_size_for_region_unaligned] returns a registered size that is
    at least as large and gives the region at least [min_pages] pages
    too. *)
Theorem page_size_for_region_aligned_unaligned (region_size min_pages : Z) :
  0 < w -> 0 < min_pages -> UseLargePages = true ->
  exists a u,
    page_size_for_region_aligned region_size min_pages = Some a /\
    page_size_for_region_unaligned region_size min_pages = Some u /\
    (a = vm_page_size \/
     (PageSizes.member page_sizes a /\
      a * min_pages <= region_size /\ (a | region_size) /\
      PageSizes.member page_sizes u /\
      u * min_pages <= region_size /\ a <= u)).
Proof.
  intros Hw Hmin Hlp.
  unfold page_size_for_region_aligned, page_size_for_region_unaligned.
  rewrite !page_size_for_region_find by assumption.
  cbn [negb orb].
  set (fa := fun page_size =>
               (page_size <=? region_size / min_pages)
               && is_aligned region_size page_size).
  set (fu := fun page_size => (page_size <=? region_size / min_pages) && true).
  eexists _, _. split; [reflexivity|]. split; [reflexivity|].
  assert (Hpages : forall s, 0 < s -> s <= region_size / min_pages ->
                             s * min_pages <= region_size).
  { intros s Hs Hle.
    pose proof (Z.mul_div_le region_size min_pages Hmin). nia. }
  destruct (find fa (sizes_below page_sizes (Z.to_nat w))) as [a|] eqn:Ha;
    [right|left; reflexivity].
  destruct (find_weaker_sizes_below fa fu page_sizes (Z.to_nat w) a) as (u & Hu & Hau).
  { intros s Hs. unfold fa in Hs. unfold fu.
    apply andb_true_iff in Hs as [Hs _]. rewrite Hs. reflexivity. }
  { exact Ha. }
  rewrite Hu.
  apply find_some in Ha. destruct Ha as [Hina Hfa].
  apply find_some in Hu. destruct Hu as [Hinu Hfu].
  apply sizes_below_member in Hina. destruct Hina as [Hma _].
  apply sizes_below_member in Hinu. destruct Hinu as [Hmu _].
  unfold fa in Hfa. unfold fu in Hfu.
  apply andb_true_iff in Hfa as [Hale Hal].
  apply andb_true_iff in Hfu as [Hule _].
  apply Z.leb_le in Hale, Hule.
  pose proof (PageSizes.member_pos _ _ Hma) as Hapos.
  pose proof (PageSizes.member_pos _ _ Hmu) as Hupos.
  split; [exact Hma|]. split; [apply Hpages; assumption|].
  split.
  - destruct Hma as (k & Hk & -> & _).
    rewrite is_aligned_mod in Hal by assumption.
    apply Z.eqb_eq in Hal. apply Z.mod_divide; [lia|exact Hal].
  - split; [exact Hmu|]. split; [apply Hpages; assumption|exact Hau].
Qed.

End PageSizeForRegion.

Lemma page_size_for_region_spec_witness :
  0 < 64 /\ 0 < 4 /\
  page_size_for_region 64 true PageSizes.example_mask 4096 2097152 4 true
  = Some (first_qualifying_page_size 64 PageSizes.example_mask 4096 2097152 4 true).
Proof.
  assert (Hw : 0 < 64) by lia.
  assert (Hmin : 0 < 4) by lia.
  exact (conj Hw (conj Hmin
    (page_size_for_region_spec 64 true PageSizes.example_mask 4096
       2097152 4 true Hw Hmin))).
Defined.

(** The example of the specification: a 2M region in at least 4 pages
    takes 16K pages. *)
Example page_size_for_region_2M_in_4 :
  page_size_for_region 64 true PageSizes.example_mask 4096 2097152 4 true
  = Some 16384.
Proof. vm_compute. reflexivity. Qed.

(** With [UseLargePages] off the registered sizes are not consulted: for a
    4M region the first qualifying registered size is 2M, but the result
    is the base page size. *)
Lemma page_size_for_region_flag_off :
  page_size_for_region 64 false PageSizes.example_mask 4096 4194304 1 true
    = Some 4096 /\
  first_qualifying_page_size 64 PageSizes.example_mask 4096 4194304 1 true
    = 2097152 /\
  page_size_for_region 64 false PageSizes.example_mask 4096 4194304 1 true
    <> Some (first_qualifying_page_size 64 PageSizes.example_mask 4096
               4194304 1 true).
Proof.
  split; [reflexivity|]. split; [vm_compute; reflexivity|].
  vm_compute. discriminate.
Qed.

Lemma page_size_for_region_aligned_unaligned_witness :
  exists a u,
    page_size_for_region_aligned 64 true PageSizes.example_mask 4096 2129920 4
    = Some a /\
    page_size_for_region_unaligned 64 true PageSizes.example_mask 4096 2129920 4
    = Some u /\
    (a = 4096 \/
     (PageSizes.member PageSizes.example_mask a /\
      a * 4 <= 2129920 /\ (a | 2129920) /\
      PageSizes.member PageSizes.example_mask u /\
      u * 4 <= 2129920 /\ a <= u)).
Proof.
  apply (page_size_for_region_aligned_unaligned 64 true PageSizes.example_mask
           4096 2129920 4).
  - lia.
  - lia.
  - reflexivity.
Defined.

(** A region of 2M + 4K in at least 4 pages: 16K pages do not divide it
    evenly, so the aligned query goes down to 4K pages. *)
Example page_size_for_region_aligned_example :
  page_size_for_region_aligned 64 true PageSizes.example_mask 4096 2101248 4
  = Some 4096 /\
  page_size_for_region_unaligned 64 true PageSizes.example_mask 4096 2101248 4
  = Some 16384.
Proof. vm_compute. split; reflexivity. Qed.



(** ** Further functions of os.cpp *)

(** *** [os::set_priority] and the way back through [os::get_priority] *)

Section SetPriority.

Variable MinPriority MaxPriority CriticalPriority : Z.
Variable java_to_os_priority : Z -> Z.
Variable Thread : Type.
Variable is_ConcurrentGC_thread : Thread -> bool.

(** The platform's record of native priorities, with
    [os::set_native_priority] and [os::get_native_priority]. *)
Variable native : Type.
Variable set_native_priority : native -> Thread -> Z -> OSReturn * native.
Variable get_native_priority : native -> Thread -> OSReturn * Z.

Definition set_priority (st : native) (thread : Thread) (p : Z) : OSReturn * native :=
  if ((p >=? MinPriority) && (p <=? MaxPriority))
     || ((p =? CriticalPriority) && is_ConcurrentGC_thread thread)
  then
    let priority := java_to_os_priority p in
    set_native_priority st thread priority
  else (OS_ERR, st).

Lemma priority_scan_stops cmp os_prio fuel p0 p :
  priority_scan MinPriority java_to_os_priority cmp os_prio fuel p0 = Some p ->
  p <= p0 /\
  (forall q, p < q <= p0 -> cmp (java_to_os_priority q) os_prio = true) /\
  (MinPriority < p -> cmp (java_to_os_priority p) os_prio = false).
Proof.
  revert p0. induction fuel as [|fuel IH]; intros p0 Hs; [discriminate|].
  simpl in Hs.
  destruct (Z.gtb_spec p0 MinPriority) as [Hgt|Hle]; simpl in Hs.
  - destruct (cmp (java_to_os_priority p0) os_prio) eqn:Hc.
    + destruct (IH _ Hs) as (Hle & Hall & Hstop).
      split; [lia|]. split; [|exact Hstop].
      intros q Hq. destruct (Z.eq_dec q p0) as [->|Hne]; [exact Hc|].
      apply Hall. lia.
    + inversion Hs; subst p. split; [lia|]. split; [intros q Hq; lia|].
      intros _. exact Hc.
  - inversion Hs; subst p. split; [lia|]. split; [intros q Hq; lia|]. lia.
Qed.

Lemma get_priority_level (st : native) (thread : Thread)
    (priority os_prio : Z) :
  MinPriority <= MaxPriority ->
  get_native_priority st thread = (OS_OK, os_prio) ->
  exists p,
    get_priority MinPriority MaxPriority java_to_os_priority Thread
      (get_native_priority st) thread priority = Some (OS_OK, p) /\
    MinPriority <= p <= MaxPriority /\
    if java_to_os_priority MaxPriority >? java_to_os_priority MinPriority
    then (forall q, p < q <= MaxPriority -> os_prio < java_to_os_priority q) /\
         (MinPriority < p -> java_to_os_priority p <= os_prio)
    else (forall q, p < q <= MaxPriority -> java_to_os_priority q < os_prio) /\
         (MinPriority < p -> os_prio <= java_to_os_priority p).
Proof.
  intros Hmm Hnat. unfold get_priority. rewrite Hnat. cbn [OSReturn_eqb negb].
  assert (Hfuel : (Z.to_nat (MaxPriority - MinPriority)
                   < priority_scan_fuel MinPriority MaxPriority)%nat)
    by (unfold priority_scan_fuel; lia).
  destruct (java_to_os_priority MaxPriority >? java_to_os_priority MinPriority).
  - destruct (priority_scan_bounds MinPriority java_to_os_priority Z.gtb os_prio
                _ MaxPriority Hmm Hfuel) as (p & Hp & Hb).
    rewrite Hp. exists p. split; [reflexivity|]. split; [exact Hb|].
    destruct (priority_scan_stops _ _ _ _ _ Hp) as (_ & Hall & Hstop).
    split.
    + intros q Hq. specialize (Hall q Hq). apply Z.gtb_lt in Hall. exact Hall.
    + intros Hgt. specialize (Hstop Hgt).
      destruct (Z.gtb_spec (java_to_os_priority p) os_prio); [discriminate|lia].
  - destruct (priority_scan_bounds MinPriority java_to_os_priority Z.ltb os_prio
                _ MaxPriority Hmm Hfuel) as (p & Hp & Hb).
    rewrite Hp. exists p. split; [reflexivity|]. split; [exact Hb|].
    destruct (priority_scan_stops _ _ _ _ _ Hp) as (_ & Hall & Hstop).
    split.
    + intros q Hq. specialize (Hall q Hq). apply Z.ltb_lt in Hall. exact Hall.
    + intros Hgt. specialize (Hstop Hgt).
      destruct (Z.ltb_spec (java_to_os_priority p) os_prio); [discriminate|lia].
Qed.

(** X10.  [os::get_priority] returns the highest priority whose native value
    does not lie beyond the thread's native priority, in the direction of
    the table, and [MinPriority] when there is none. *)
Theorem get_priority_nearest (st : native) (thread : Thread)
    (priority os_prio : Z) :
  MinPriority <= MaxPriority ->
  get_native_priority st thread = (OS_OK, os_prio) ->
  exists p,
    get_priority MinPriority MaxPriority java_to_os_priority Thread
      (get_native_priority st) thread priority = Some (OS_OK, p) /\
    MinPriority <= p <= MaxPriority /\
    if java_to_os_priority MaxPriority >? java_to_os_priority MinPriority
    then (forall q, p < q <= MaxPriority -> os_prio < java_to_os_priority q) /\
         (MinPriority < p -> java_to_os_priority p <= os_prio)
    else (forall q, p < q <= MaxPriority -> java_to_os_priority q < os_prio) /\
         (MinPriority < p -> os_prio <= java_to_os_priority p).
Proof. intros Hmm Hnat. apply get_priority_level; assumption. Qed.

(** A priority table is strictly monotonic between the two extremes, in
    one direction or the other. *)
Definition strictly_monotonic : Prop :=
  (forall i j, MinPriority <= i -> i < j -> j <= MaxPriority ->
     java_to_os_priority i < java_to_os_priority j) \/
  (forall i j, MinPriority <= i -> i < j -> j <= MaxPriority ->
     java_to_os_priority j < java_to_os_priority i).

(** X11.  Round trip: on a strictly monotonic table, and a platform that reports
    the native priority it was given, [os::get_priority] after a successful
    [os::set_priority(thread, p)] gives [p] back. *)
Theorem set_get_priority (st st' : native) (thread : Thread) (p priority : Z) :
  MinPriority <= p <= MaxPriority ->
  strictly_monotonic ->
  (forall s t n s', set_native_priority s t n = (OS_OK, s') ->
                    get_native_priority s' t = (OS_OK, n)) ->
  set_priority st thread p = (OS_OK, st') ->
  get_priority MinPriority MaxPriority java_to_os_priority Thread
    (get_native_priority st') thread priority = Some (OS_OK, p).
Proof.
  intros Hp Hmono Hplat Hset.
  unfold set_priority in Hset.
  assert (Hin : (p >=? MinPriority) && (p <=? MaxPriority) = true).
  { apply andb_true_intro. split; [apply Z.geb_le|apply Z.leb_le]; lia. }
  rewrite Hin in Hset. cbn [orb] in Hset. cbv zeta in Hset.
  apply Hplat in Hset.
  destruct (get_priority_level st' thread priority (java_to_os_priority p)
              ltac:(lia) Hset) as (p' & Hget & Hb & Hnear).
  rewrite Hget. do 2 f_equal.
  destruct (Z.gtb_spec (java_to_os_priority MaxPriority)
                       (java_to_os_priority MinPriority)) as [Hdir|Hdir];
    destruct Hnear as [Hall Hstop];
    destruct (Z.lt_trichotomy p' p) as [Hlt|[Heq|Hgt]]; try exact Heq;
    exfalso.
  - specialize (Hall p ltac:(lia)). lia.
  - specialize (Hstop ltac:(lia)).
    destruct Hmono as [Hinc|Hdec].
    + specialize (Hinc p p' ltac:(lia) Hgt ltac:(lia)). lia.
    + specialize (Hdec MinPriority MaxPriority ltac:(lia) ltac:(lia) ltac:(lia)).
      lia.
  - specialize (Hall p ltac:(lia)). lia.
  - specialize (Hstop ltac:(lia)).
    destruct Hmono as [Hinc|Hdec].
    + destruct (Z.eq_dec MinPriority MaxPriority) as [He|Hne]; [lia|].
      specialize (Hinc MinPriority MaxPriority ltac:(lia) ltac:(lia) ltac:(lia)).
      lia.
    + specialize (Hdec p p' ltac:(lia) Hgt ltac:(lia)). lia.
Qed.

End SetPriority.

(** A platform that keeps one native priority. *)
Definition one_native_set (st : Z) (t : unit) (n : Z) : OSReturn * Z := (OS_OK, n).
Definition one_native_get (st : Z) (t : unit) : OSReturn * Z := (OS_OK, st).

Lemma niceness_table_monotonic : strictly_monotonic 1 10 niceness_table.
Proof. right. intros i j _ Hij _. unfold niceness_table. lia. Qed.

Lemma get_priority_nearest_witness :
  1 <= 10 /\ one_native_get 2 tt = (OS_OK, 2) /\
  exists p,
    get_priority 1 10 niceness_table unit (one_native_get 2) tt 7 = Some (OS_OK, p) /\
    1 <= p <= 10.
Proof.
  assert (H1 : 1 <= 10) by lia.
  destruct (get_priority_nearest 1 10 niceness_table unit Z one_native_get 2 tt 7 2
              H1 eq_refl) as (p & Hp & Hb & _).
  exact (conj H1 (conj eq_refl (ex_intro _ p (conj Hp Hb)))).
Defined.

Lemma set_get_priority_witness :
  1 <= 7 <= 10 /\
  set_priority 1 10 11 niceness_table unit (fun _ => false) Z one_native_set 0 tt 7
    = (OS_OK, -2) /\
  get_priority 1 10 niceness_table unit (one_native_get (-2)) tt 0 = Some (OS_OK, 7).
Proof.
  assert (Hp : 1 <= 7 <= 10) by lia.
  refine (conj Hp (conj eq_refl _)).
  apply (set_get_priority 1 10 11 niceness_table unit (fun _ => false) Z
           one_native_set one_native_get 0 (-2) tt 7 0 Hp niceness_table_monotonic).
  - intros s t n s' H. inversion H. reflexivity.
  - reflexivity.
Defined.


(** *** [read_safely_from] *)

Section ReadSafely.

(** The pointer-sized words that can be read: [memoryN a] is the
    [intptr_t] stored at address [a], [None] where a read would fault. *)
Variable memoryN : Z -> option Z.

(** Modelled from the spec: [SafeFetchN] (runtime/safefetch.hpp) is not
    part of the sources at hand; the read either returns the actual value
    or the sentinel passed by the caller, without crashing the process. *)
Definition SafeFetchN (adr errValue : Z) : Z :=
  match memoryN adr with
  | Some v => v
  | None => errValue
  end.

(** [None] stands for [return false]; [Some i] for [return true] with [i]
    stored in [*result]. *)
Definition read_safely_from (p : Z) : option Z :=
  let errval := 0x1717 in
  let i := SafeFetchN p errval in
  if i =? errval then
    let i := SafeFetchN p (Z.lnot errval) in
    if i =? Z.lnot errval then None
    else Some i
  else Some i.

(** X12.  [read_safely_from] gives the stored word exactly where the address is
    readable, also when the word stored there is one of the two
    sentinels. *)
Theorem read_safely_from_memory (p : Z) :
  read_safely_from p = memoryN p.
Proof.
  unfold read_safely_from, SafeFetchN.
  destruct (memoryN p) as [v|]; cbv zeta.
  - destruct (Z.eqb_spec v 0x1717) as [->|Hne]; reflexivity.
  - reflexivity.
Qed.

End ReadSafely.


(** *** [os::print_dhm] *)

(** The arguments of the [print_cr] call of [os::print_dhm]: the string
    and the three numbers of the format
    ["%s %ld days %ld:%02ld hours"].  [long] division truncates; a null
    [startStr] is the empty string. *)
Definition print_dhm (startStr : option (list Byte.byte)) (sec : Z)
  : list Byte.byte * Z * Z * Z :=
  let days := sec ÷ 86400 in
  let hours := (sec ÷ 3600) - (days * 24) in
  let minutes := (sec ÷ 60) - (days * 1440) - (hours * 60) in
  let startStr := match startStr with None => [] | Some s => s end in
  (startStr, days, hours, minutes).

(** X13.  The numbers printed split the duration: hours stay below 24, minutes
    below 60, and together with the days they add up to the duration
    rounded down to a full minute. *)
Theorem print_dhm_fields (startStr : option (list Byte.byte)) (sec : Z) :
  0 <= sec ->
  exists s days hours minutes,
    print_dhm startStr sec = (s, days, hours, minutes) /\
    0 <= days /\ 0 <= hours < 24 /\ 0 <= minutes < 60 /\
    days * 86400 + hours * 3600 + minutes * 60 = sec - sec mod 60.
Proof.
  intros Hsec. unfold print_dhm. eexists _, _, _, _. split; [reflexivity|].
  rewrite !Z.quot_div_nonneg by lia.
  pose proof (Z.div_mod sec 86400 ltac:(lia)) as Hd.
  pose proof (Z.mod_pos_bound sec 86400 ltac:(lia)) as Hdb.
  pose proof (Z.div_mod sec 3600 ltac:(lia)) as Hh.
  pose proof (Z.mod_pos_bound sec 3600 ltac:(lia)) as Hhb.
  pose proof (Z.div_mod sec 60 ltac:(lia)) as Hm.
  pose proof (Z.mod_pos_bound sec 60 ltac:(lia)) as Hmb.
  pose proof (Z.div_pos sec 86400 Hsec ltac:(lia)) as Hd0.
  lia.
Qed.

Lemma print_dhm_fields_witness :
  0 <= 200000 /\
  exists s days hours minutes,
    print_dhm None 200000 = (s, days, hours, minutes) /\
    0 <= days /\ 0 <= hours < 24 /\ 0 <= minutes < 60 /\
    days * 86400 + hours * 3600 + minutes * 60 = 200000 - 200000 mod 60.
Proof.
  assert (H : 0 <= 200000) by lia.
  exact (conj H (print_dhm_fields None 200000 H)).
Defined.

Example print_dhm_two_days :
  print_dhm None 200000 = ([], 2, 7, 33).
Proof. reflexivity. Qed.


(** *** [os::naked_sleep] *)

Section NakedSleep.

(** The loop of [os::naked_sleep]; the result is the list of the arguments
    of the calls of [naked_short_sleep], in order.  [None]: not finished
    within [fuel] iterations. *)
Fixpoint naked_sleep_loop (fuel : nat) (millis : Z) : option (list Z) :=
  let limit := 999 in
  match fuel with
  | O => None
  | S fuel' =>
      if millis >? limit then
        match naked_sleep_loop fuel' (millis - limit) with
        | Some calls => Some (limit :: calls)
        | None => None
        end
      else Some [millis]
  end.

Definition naked_sleep_fuel (millis : Z) : nat := S (Z.to_nat (millis / 999)).

Definition naked_sleep (millis : Z) : option (list Z) :=
  naked_sleep_loop (naked_sleep_fuel millis) millis.

Lemma naked_sleep_loop_calls fuel millis :
  (Z.to_nat (millis / 999) < fuel)%nat ->
  exists k r,
    naked_sleep_loop fuel millis = Some (repeat 999 k ++ [r]) /\
    millis = 999 * Z.of_nat k + r /\ r <= 999 /\ (k <> 0%nat -> 0 < r).
Proof.
  revert millis. induction fuel as [|fuel IH]; intros millis Hf; [lia|].
  cbn [naked_sleep_loop]. cbv zeta.
  destruct (Z.gtb_spec millis 999) as [Hgt|Hle].
  - destruct (IH (millis - 999)) as (k & r & Hk & Hsum & Hr & Hpos).
    { replace (millis - 999) with (millis + (-1) * 999) by lia.
      rewrite Z.div_add by lia.
      assert (1 <= millis / 999) by (apply Z.div_le_lower_bound; lia).
      lia. }
    rewrite Hk. exists (S k), r. split; [reflexivity|].
    split; [lia|]. split; [exact Hr|]. intros _.
    destruct k as [|k]; [lia|].
    apply Hpos. lia.
  - exists 0%nat, millis. split; [reflexivity|]. lia.
Qed.

(** X14.  [os::naked_sleep(millis)] returns; it calls [naked_short_sleep] with
    999 as often as 999 fits below [millis], then once with what is left,
    so that no call asks for more than 999 ms and the calls add up to
    [millis]. *)
Theorem naked_sleep_calls (millis : Z) :
  exists k r,
    naked_sleep millis = Some (repeat 999 k ++ [r]) /\
    millis = 999 * Z.of_nat k + r /\ r <= 999 /\ (k <> 0%nat -> 0 < r).
Proof.
  apply naked_sleep_loop_calls. unfold naked_sleep_fuel. lia.
Qed.

End NakedSleep.

Example naked_sleep_2500 : naked_sleep 2500 = Some [999; 999; 502].
Proof. reflexivity. Qed.


(** *** [os::write] *)

Section WriteLoop.

(** Number of bits of [size_t]. *)
Variable w : Z.

(** [pd_write(fd, buf, nBytes)], the platform's write: the number of bytes
    it took from [buf], or [OS_ERR].  What the platform answers may differ
    from call to call; [call] counts the calls made so far. *)
Variable pd_write : nat -> Z -> Z -> Z.

Definition OS_ERR_value : Z := -1.

(** The loop of [os::write], entered at its [call]-th turn.  The result
    comes with the chunks the platform accepted, in order: the address each
    started at and its length.  [None]: not finished within [fuel]
    iterations. *)
Fixpoint write_loop (fuel : nat) (call : nat) (buf nBytes : Z)
  : option (bool * list (Z * Z)) :=
  match fuel with
  | O => None
  | S fuel' =>
      if nBytes >? 0 then
        let res := pd_write call buf nBytes in
        if res =? OS_ERR_value then Some (false, [])
        else
          match write_loop fuel' (S call) (buf + res) (Word.wrap w (nBytes - res)) with
          | Some (b, chunks) => Some (b, (buf, res) :: chunks)
          | None => None
          end
      else Some (true, [])
  end.

Definition write (fuel : nat) (buf nBytes : Z) : option (bool * list (Z * Z)) :=
  write_loop fuel O buf nBytes.

(** The chunks follow one another without gap from [buf] on, and none is
    empty. *)
Fixpoint contiguous (buf : Z) (chunks : list (Z * Z)) : Prop :=
  match chunks with
  | [] => True
  | (start, len) :: rest => start = buf /\ 0 < len /\ contiguous (buf + len) rest
  end.

Definition written (chunks : list (Z * Z)) : Z :=
  fold_right (fun c acc => snd c + acc) 0 chunks.

(** The platform takes at least one byte and at most what it is offered,
    or reports an error. *)
Definition pd_write_contract : Prop :=
  forall call buf n, 0 < n ->
    pd_write call buf n = OS_ERR_value \/ 0 < pd_write call buf n <= n.

Lemma write_loop_spec fuel call buf nBytes :
  pd_write_contract ->
  0 <= nBytes < 2 ^ w ->
  (Z.to_nat nBytes < fuel)%nat ->
  exists b chunks,
    write_loop fuel call buf nBytes = Some (b, chunks) /\
    contiguous buf chunks /\
    (b = true -> written chunks = nBytes) /\
    (b = false -> written chunks < nBytes).
Proof.
  intros Hc. revert call buf nBytes.
  induction fuel as [|fuel IH]; intros call buf nBytes Hn Hf; [lia|].
  cbn [write_loop].
  destruct (Z.gtb_spec nBytes 0) as [Hpos|Hzero].
  - cbv zeta.
    destruct (Z.eqb_spec (pd_write call buf nBytes) OS_ERR_value) as [Herr|Hok].
    + exists false, []. split; [reflexivity|]. split; [exact I|].
      split; [discriminate|]. intros _. simpl. lia.
    + destruct (Hc call buf nBytes ltac:(lia)) as [Herr|Hres]; [contradiction|].
      set (res := pd_write call buf nBytes) in *.
      assert (Hwrap : Word.wrap w (nBytes - res) = nBytes - res).
      { apply Word.wrap_small. unfold Word.in_range. lia. }
      rewrite Hwrap.
      destruct (IH (S call) (buf + res) (nBytes - res) ltac:(lia) ltac:(lia))
        as (b & chunks & Hl & Hcont & Ht & Hf').
      rewrite Hl. exists b, ((buf, res) :: chunks).
      split; [reflexivity|].
      split; [simpl; repeat split; [lia|exact Hcont]|].
      split; intros Hb; simpl; [specialize (Ht Hb)|specialize (Hf' Hb)]; lia.
  - exists true, []. split; [reflexivity|]. split; [exact I|].
    split; [intros _; simpl; lia|discriminate].
Qed.

(** X15.  With a platform that takes between one and all of the bytes offered or
    reports an error, [os::write] returns; the chunks the platform accepted
    follow one another from the start of the buffer; the result is [true]
    when together they are the whole buffer, and [false] when the platform
    reported an error before that. *)
Theorem write_all_or_error (buf nBytes : Z) :
  pd_write_contract ->
  0 <= nBytes < 2 ^ w ->
  exists b chunks,
    write (S (Z.to_nat nBytes)) buf nBytes = Some (b, chunks) /\
    contiguous buf chunks /\
    (b = true -> written chunks = nBytes) /\
    (b = false -> written chunks < nBytes).
Proof.
  intros Hc Hn. apply write_loop_spec; [exact Hc|exact Hn|lia].
Qed.

(** X16.  A platform that keeps answering 0 to a request that is not empty: the
    loop of [os::write] makes no progress and never returns. *)
Theorem write_zero_never_returns (fuel : nat) (buf nBytes : Z) :
  (forall call b n, pd_write call b n = 0) ->
  0 < nBytes < 2 ^ w ->
  write fuel buf nBytes = None.
Proof.
  intros Hz Hn. unfold write. generalize O as call.
  assert (Hbuf : forall b, b + 0 = b) by (intros; lia).
  revert buf. induction fuel as [|fuel IH]; intros buf call; [reflexivity|].
  cbn [write_loop]. cbv zeta.
  destruct (Z.gtb_spec nBytes 0) as [_|Hle]; [|lia].
  rewrite Hz. change (0 =? OS_ERR_value) with false. cbv iota.
  rewrite Z.sub_0_r, Word.wrap_small by (unfold Word.in_range; lia).
  rewrite IH. reflexivity.
Qed.

End WriteLoop.

(** A platform that takes at most 4 bytes a time, and one that takes
    nothing. *)
Definition short_pd_write (call : nat) (buf n : Z) : Z := Z.min 4 n.
Definition stuck_pd_write (call : nat) (buf n : Z) : Z := 0.

Lemma short_pd_write_contract : pd_write_contract short_pd_write.
Proof. intros call buf n Hn. right. unfold short_pd_write. lia. Qed.

Example write_in_chunks :
  write 64 short_pd_write 11 1000 10
  = Some (true, [(1000, 4); (1004, 4); (1008, 2)]).
Proof. reflexivity. Qed.

Lemma write_all_or_error_witness :
  0 <= 10 < 2 ^ 64 /\
  exists b chunks,
    write 64 short_pd_write 11 1000 10 = Some (b, chunks) /\
    contiguous 1000 chunks /\
    (b = true -> written chunks = 10) /\
    (b = false -> written chunks < 10).
Proof.
  assert (H : 0 <= 10 < 2 ^ 64) by (change (2 ^ 64) with 18446744073709551616; lia).
  exact (conj H (write_all_or_error 64 short_pd_write 1000 10
                   short_pd_write_contract H)).
Defined.

Lemma write_zero_never_returns_witness :
  0 < 10 < 2 ^ 64 /\ write 64 stuck_pd_write 1000 1000 10 = None.
Proof.
  assert (H : 0 < 10 < 2 ^ 64) by (change (2 ^ 64) with 18446744073709551616; lia).
  exact (conj H (write_zero_never_returns 64 stuck_pd_write 1000 1000 10
                   (fun _ _ _ => eq_refl) H)).
Defined.


(** *** [os::split_path] *)

(** A C string is the list of its bytes up to the terminating NUL, which is
    not part of the list; a [char*] into a string is what is left of the
    string from there on. *)

(** [strchr(s, c)] for a [c] other than NUL. *)
Fixpoint strchr (s : list byte) (c : byte) : option (list byte) :=
  match s with
  | [] => None
  | b :: rest => if Byte.eqb b c then Some s else strchr rest c
  end.

(** [strcspn(s, reject)]. *)
Fixpoint strcspn (s reject : list byte) : nat :=
  match s with
  | [] => O
  | b :: rest =>
      if existsb (Byte.eqb b) reject then O else S (strcspn rest reject)
  end.

(** The elements of a path put together again. *)
Fixpoint join (c : byte) (elements : list (list byte)) : list byte :=
  match elements with
  | [] => []
  | s :: rest =>
      match rest with
      | [] => s
      | _ :: _ => s ++ c :: join c rest
      end
  end.

(** [vm_exit]: the call of [vm_exit_during_initialization]; [returned]:
    the array returned, [None] for [nullptr], and the value left in
    [*elements]. *)
Inductive split_path_result : Type :=
| vm_exit
| returned (opath : option (list (list byte))) (elements : nat).

Section SplitPath.

(** Number of bits of [size_t]. *)
Variable w : Z.

(** [os::path_separator()] and [JVM_MAXPATHLEN]. *)
Variable path_separator : list byte.
Variable JVM_MAXPATHLEN : Z.

(** The loop that counts the elements, entered with the result [p] of the
    last [strchr].  [count] is at most the length of the path plus one.
    [None]: not finished within [fuel] iterations. *)
Fixpoint count_elements (fuel : nat) (p : option (list byte)) (psepchar : byte)
    (count : nat) : option nat :=
  match fuel with
  | O => None
  | S fuel' =>
      match p with
      | None => Some count
      | Some p => count_elements fuel' (strchr (tl p) psepchar) psepchar (S count)
      end
  end.

(** The loop that splits, with [n] elements still to come; [None] when the
    VM exits. *)
Fixpoint split_loop (n : nat) (p : list byte) (file_name_length : Z)
  : option (list (list byte)) :=
  match n with
  | O => Some []
  | S n' =>
      let len := strcspn p path_separator in
      if Word.add w (Z.of_nat len) file_name_length >? JVM_MAXPATHLEN then None
      else
        let s := take len p in
        match split_loop n' (drop (len + 1) p) file_name_length with
        | Some opath => Some (s :: opath)
        | None => None
        end
  end.

(** [None]: the counting loop did not finish. *)
Definition split_path (path : option (list byte)) (file_name_length : Z)
  : option split_path_result :=
  match path with
  | None => Some (returned None O)
  | Some path =>
      if (length path =? 0)%nat || (file_name_length =? 0)
      then Some (returned None O)
      else
        let psepchar := hd "000"%byte path_separator in
        let inpath := path in
        match count_elements (S (length inpath)) (strchr inpath psepchar)
                             psepchar 1 with
        | None => None
        | Some count =>
            match split_loop count inpath file_name_length with
            | None => Some vm_exit
            | Some opath => Some (returned (Some opath) count)
            end
        end
  end.

(** An element leaves room for a file name of [file_name_length] bytes. *)
Definition fits (file_name_length : Z) (s : list byte) : bool :=
  Z.of_nat (length s) + file_name_length <=? JVM_MAXPATHLEN.

Lemma split_path_nothing (path : option (list byte)) (file_name_length : Z) :
  path = None \/ path = Some [] \/ file_name_length = 0 ->
  split_path path file_name_length = Some (returned None O).
Proof.
  intros [ -> | [ -> | -> ] ]; [reflexivity|reflexivity|].
  destruct path as [path|]; [|reflexivity].
  unfold split_path. rewrite orb_true_r. reflexivity.
Qed.

Lemma strchr_spec (s : list byte) (c : byte) :
  match strchr s c with
  | None => count_occ byte_eq_dec s c = O
  | Some q => exists t, q = c :: t /\
                        count_occ byte_eq_dec s c = S (count_occ byte_eq_dec t c) /\
                        (length t < length s)%nat
  end.
Proof.
  induction s as [|b rest IH]; [reflexivity|].
  cbn [strchr]. destruct (Byte.eqb b c) eqn:Hb.
  - apply byte_dec_bl in Hb. subst b. exists rest.
    split; [reflexivity|]. split; [apply count_occ_cons_eq; reflexivity|].
    simpl. lia.
  - apply eqb_false in Hb. rewrite count_occ_cons_neq by exact Hb.
    destruct (strchr rest c) as [q|]; [|exact IH].
    destruct IH as (t & Hq & Hc & Hl). exists t.
    split; [exact Hq|]. split; [exact Hc|]. simpl. lia.
Qed.

Lemma count_elements_spec (fuel : nat) (s : list byte) (c : byte) (count : nat) :
  (length s < fuel)%nat ->
  count_elements fuel (strchr s c) c count
  = Some (count + count_occ byte_eq_dec s c)%nat.
Proof.
  revert s count. induction fuel as [|fuel IH]; intros s count Hf; [lia|].
  cbn [count_elements]. pose proof (strchr_spec s c) as Hs.
  destruct (strchr s c) as [q|].
  - destruct Hs as (t & -> & Hc & Hl). cbn [tl].
    rewrite IH by lia. rewrite Hc. f_equal. lia.
  - rewrite Hs. f_equal. lia.
Qed.

Lemma strcspn_single (p : list byte) (c : byte) :
  let len := strcspn p [c] in
  ~ In c (take len p) /\
  (drop len p = [] \/ exists rest, drop len p = c :: rest) /\
  length (take len p) = len.
Proof.
  induction p as [|b rest IH]; cbn [strcspn existsb].
  - simpl. split; [tauto|]. split; [left; reflexivity|reflexivity].
  - rewrite orb_false_r. destruct (Byte.eqb b c) eqn:Hb.
    + apply byte_dec_bl in Hb. subst b. simpl.
      split; [tauto|]. split; [right; eauto|reflexivity].
    + apply eqb_false in Hb. cbv zeta in IH. destruct IH as (Hin & Hd & Hl).
      simpl. split; [intros [He|Hi]; [congruence|contradiction]|].
      split; [exact Hd|]. f_equal. exact Hl.
Qed.

Lemma split_loop_spec (c : byte) (file_name_length : Z) (n : nat) (p : list byte) :
  path_separator = [c] ->
  0 <= file_name_length ->
  Z.of_nat (length p) + file_name_length < 2 ^ w ->
  n = S (count_occ byte_eq_dec p c) ->
  exists opath,
    length opath = n /\ join c opath = p /\
    Forall (fun s => ~ In c s) opath /\
    split_loop n p file_name_length
    = if forallb (fits file_name_length) opath then Some opath else None.
Proof.
  intros Hsep Hfnl. revert p.
  induction n as [|n IH]; intros p Hlen Hn; [discriminate|].
  cbn [split_loop]. cbv zeta. rewrite Hsep.
  destruct (strcspn_single p c) as (Hnin & Hdrop & Hl).
  set (len := strcspn p [c]) in *.
  assert (Hp : p = take len p ++ drop len p) by (symmetry; apply firstn_skipn).
  assert (Hlenp : (len <= length p)%nat).
  { rewrite <- Hl. rewrite length_take. lia. }
  rewrite Word.add_no_overflow by lia.
  assert (Hfit : (Z.of_nat len + file_name_length >? JVM_MAXPATHLEN)
                 = negb (fits file_name_length (take len p))).
  { unfold fits. rewrite Hl, Z.gtb_ltb, Z.leb_antisym, negb_involutive.
    reflexivity. }
  rewrite Hfit.
  destruct Hdrop as [Hnil|[rest Hrest]].
  - assert (Hall : take len p = p) by (rewrite Hp at 2; rewrite Hnil, app_nil_r; reflexivity).
    assert (Hn0 : n = O).
    { apply count_occ_not_In with (eq_dec := byte_eq_dec) in Hnin.
      rewrite Hall in Hnin. lia. }
    subst n. exists [take len p].
    split; [reflexivity|]. split; [exact Hall|].
    split; [constructor; [exact Hnin|constructor]|].
    cbn [forallb split_loop]. rewrite andb_true_r.
    destruct (fits file_name_length (take len p)); reflexivity.
  - assert (Hdrop1 : drop (len + 1) p = rest).
    { rewrite <- drop_drop, Hrest. reflexivity. }
    rewrite Hdrop1.
    assert (Hcount : count_occ byte_eq_dec p c = S (count_occ byte_eq_dec rest c)).
    { rewrite Hp, Hrest, count_occ_app.
      apply count_occ_not_In with (eq_dec := byte_eq_dec) in Hnin.
      rewrite Hnin, count_occ_cons_eq by reflexivity. reflexivity. }
    assert (Hrl : (length rest < length p)%nat).
    { pose proof (f_equal length Hp) as Hpl.
      rewrite length_app, Hrest in Hpl. simpl in Hpl. lia. }
    destruct (IH rest ltac:(lia) ltac:(lia)) as (opath & Hlo & Hj & Hno & Hsl).
    exists (take len p :: opath).
    split; [simpl; lia|].
    split.
    { destruct opath as [|s0 opath0]; [simpl in Hlo; lia|].
      change (join c (take len p :: s0 :: opath0))
        with (take len p ++ c :: join c (s0 :: opath0)).
      rewrite Hj, <- Hrest. symmetry. exact Hp. }
    split; [constructor; assumption|].
    cbn [forallb]. rewrite Hsl.
    destruct (fits file_name_length (take len p)); [|reflexivity].
    destruct (forallb (fits file_name_length) opath); reflexivity.
Qed.

Lemma split_path_split (c : byte) (path : list byte) (file_name_length : Z) :
  path_separator = [c] ->
  path <> [] ->
  0 < file_name_length ->
  Z.of_nat (length path) + file_name_length < 2 ^ w ->
  exists opath,
    length opath = S (count_occ byte_eq_dec path c) /\
    join c opath = path /\
    Forall (fun s => ~ In c s) opath /\
    split_path (Some path) file_name_length
    = Some (if forallb (fits file_name_length) opath
            then returned (Some opath) (length opath)
            else vm_exit).
Proof.
  intros Hsep Hne Hfnl Hlen.
  destruct (split_loop_spec c file_name_length _ path Hsep ltac:(lia) Hlen eq_refl)
    as (opath & Hlo & Hj & Hno & Hsl).
  exists opath. split; [exact Hlo|]. split; [exact Hj|]. split; [exact Hno|].
  unfold split_path.
  assert (Hl0 : (length path =? 0)%nat = false).
  { apply Nat.eqb_neq. destruct path; [congruence|simpl; lia]. }
  assert (Hf0 : (file_name_length =? 0) = false) by (apply Z.eqb_neq; lia).
  rewrite Hl0, Hf0. cbn [orb]. cbv zeta. rewrite Hsep. cbn [hd].
  rewrite count_elements_spec by lia.
  change (1 + count_occ byte_eq_dec path c)%nat
    with (S (count_occ byte_eq_dec path c)).
  rewrite Hsl, Hlo.
  destruct (forallb (fits file_name_length) opath); reflexivity.
Qed.

(** X17.  With a separator of one character, a path that is not empty and a file
    name length above 0, [os::split_path] cuts the path at every
    separator: the elements contain no separator, there is one more of
    them than there are separators in the path, and put together again with
    a separator between them they give the path.  It returns them, and
    their number in [*elements], when every element leaves room for the
    file name within [JVM_MAXPATHLEN]; otherwise the VM exits. *)
Theorem split_path_elements (c : byte) (path : list byte) (file_name_length : Z) :
  path_separator = [c] ->
  c <> "000"%byte ->
  path <> [] ->
  0 < file_name_length ->
  Z.of_nat (length path) + file_name_length < 2 ^ w ->
  exists opath,
    length opath = S (count_occ byte_eq_dec path c) /\
    join c opath = path /\
    Forall (fun s => ~ In c s) opath /\
    split_path (Some path) file_name_length
    = Some (if forallb (fits file_name_length) opath
            then returned (Some opath) (length opath)
            else vm_exit).
Proof.
  intros Hsep _ Hne Hfnl Hlen. apply split_path_split; assumption.
Qed.

End SplitPath.

(** The class path ["/a:/bb::c"], split at [":"] for a file name of 8
    bytes. *)
Definition example_path : list byte :=
  ["/"; "a"; ":"; "/"; "b"; "b"; ":"; ":"; "c"]%byte.

Example split_path_example :
  split_path 64 [":"%byte] 4096 (Some example_path) 8
  = Some (returned (Some [["/"; "a"]; ["/"; "b"; "b"]; []; ["c"]]%byte) 4).
Proof. reflexivity. Qed.

Example split_path_too_long :
  split_path 64 [":"%byte] 10 (Some example_path) 8 = Some vm_exit.
Proof. reflexivity. Qed.

Lemma split_path_elements_witness :
  exists opath,
    length opath = S (count_occ byte_eq_dec example_path ":"%byte) /\
    join ":"%byte opath = example_path /\
    Forall (fun s => ~ In ":"%byte s) opath /\
    split_path 64 [":"%byte] 4096 (Some example_path) 8
    = Some (if forallb (fits 4096 8) opath
            then returned (Some opath) (length opath)
            else vm_exit).
Proof.
  apply (split_path_elements 64 [":"%byte] 4096 ":"%byte example_path 8).
  - reflexivity.
  - discriminate.
  - discriminate.
  - lia.
  - vm_compute. reflexivity.
Defined.


(** *** [errno_to_string], [os::strerror], [os::errno_name] *)

Section ErrnoToString.

(** A row of the table: the errno value, its short text (the name of the
    constant) and its long text. *)
Record errno_entry : Type := {
  v : Z;
  short_text : list byte;
  long_text : list byte
}.

(** The rows before the end marker; the values of the constants come from
    the platform's [errno.h]. *)
Variable entries : list errno_entry.

Definition end_marker : errno_entry :=
  {| v := -1;
     short_text := ["U"; "n"; "k"; "n"; "o"; "w"; "n"; " "; "e"; "r"; "r"; "n"; "o"]%byte;
     long_text := ["U"; "n"; "k"; "n"; "o"; "w"; "n"; " "; "e"; "r"; "r"; "o"; "r"]%byte |}.

Definition table : list errno_entry := entries ++ [end_marker].

(** The scan [while (table[i].v != -1 && table[i].v != e) i++], on what is
    left of the table from index [i] on; the result is the row it stops
    at.  [None]: the scan left the table. *)
Fixpoint errno_scan (rows : list errno_entry) (e : Z) : option errno_entry :=
  match rows with
  | [] => None
  | row :: rest =>
      if negb (v row =? -1) && negb (v row =? e) then errno_scan rest e
      else Some row
  end.

Definition errno_to_string (e : Z) (short : bool) : option (list byte) :=
  match errno_scan table e with
  | Some row => Some (if short then short_text row else long_text row)
  | None => None
  end.

Definition strerror (e : Z) : option (list byte) := errno_to_string e false.

Definition errno_name (e : Z) : option (list byte) := errno_to_string e true.

(** The row of the first entry for [e], the end marker when there is
    none. *)
Definition first_entry (e : Z) : errno_entry :=
  match find (fun row => v row =? e) entries with
  | Some row => row
  | None => end_marker
  end.

Lemma errno_scan_first (rows : list errno_entry) (e : Z) :
  Forall (fun row => v row <> -1) rows ->
  errno_scan (rows ++ [end_marker]) e
  = Some (match find (fun row => v row =? e) rows with
          | Some row => row
          | None => end_marker
          end).
Proof.
  induction 1 as [|row rest Hrow _ IH]; [reflexivity|].
  cbn [app errno_scan find].
  apply Z.eqb_neq in Hrow. rewrite Hrow. cbn [negb andb].
  destruct (v row =? e); [reflexivity|exact IH].
Qed.

(** X18.  With no errno constant equal to -1, the scan stays inside the table;
    [os::strerror] and [os::errno_name] give the long and the short text of
    the same row, the first one for the errno, and the texts of the end
    marker for an errno the table does not have. *)
Theorem strerror_errno_name (e : Z) :
  Forall (fun row => v row <> -1) entries ->
  strerror e = Some (long_text (first_entry e)) /\
  errno_name e = Some (short_text (first_entry e)) /\
  (Forall (fun row => v row <> e) entries ->
   strerror e = Some (long_text end_marker) /\
   errno_name e = Some (short_text end_marker)).
Proof.
  intros Hall.
  assert (Hscan : errno_scan table e = Some (first_entry e))
    by (apply errno_scan_first; exact Hall).
  assert (Hs : strerror e = Some (long_text (first_entry e))).
  { unfold strerror, errno_to_string. rewrite Hscan. reflexivity. }
  assert (Hn : errno_name e = Some (short_text (first_entry e))).
  { unfold errno_name, errno_to_string. rewrite Hscan. reflexivity. }
  split; [exact Hs|]. split; [exact Hn|].
  intros Hnone.
  assert (Hf : first_entry e = end_marker).
  { unfold first_entry.
    destruct (find (fun row => v row =? e) entries) as [row|] eqn:Hfind;
      [|reflexivity].
    apply find_some in Hfind. destruct Hfind as [Hin Heq].
    rewrite Forall_forall in Hnone. apply Hnone in Hin.
    apply Z.eqb_eq in Heq. contradiction. }
  rewrite Hs, Hn, Hf. split; reflexivity.
Qed.

End ErrnoToString.

(** A table of two rows. *)
Definition two_entries : list errno_entry :=
  [ {| v := 7; short_text := ["E"; "2"; "B"; "I"; "G"]%byte;
       long_text := ["t"; "o"; "o"; " "; "l"; "o"; "n"; "g"]%byte |};
    {| v := 13; short_text := ["E"; "A"; "C"; "C"; "E"; "S"]%byte;
       long_text := ["d"; "e"; "n"; "i"; "e"; "d"]%byte |} ].

Lemma two_entries_positive : Forall (fun row => v row <> -1) two_entries.
Proof. repeat constructor; simpl; lia. Qed.

Lemma strerror_errno_name_witness :
  strerror two_entries 13 = Some ["d"; "e"; "n"; "i"; "e"; "d"]%byte /\
  errno_name two_entries 13 = Some ["E"; "A"; "C"; "C"; "E"; "S"]%byte.
Proof.
  destruct (strerror_errno_name two_entries 13 two_entries_positive)
    as (Hs & Hn & _).
  exact (conj Hs Hn).
Defined.


(** *** [os::format_boot_path] *)

Section FormatBootPath.

(** What a fresh array of [n] chars holds before it is written. *)
Variable uninitialized : nat -> list byte.

(** The first loop: the length computed for the boot class path.  [int]
    arithmetic, taken without overflow. *)
Definition formatted_length (format_string : list byte) (home_len : Z) : Z :=
  fold_left
    (fun formatted_path_len c =>
       (if Byte.eqb c "%" then formatted_path_len + (home_len - 1)
        else formatted_path_len) + 1)
    format_string 0.

(** [*q = b] on the array [buf], with [q] the offset from its start;
    [None] for a write outside the array. *)
Definition store (buf : list byte) (q : Z) (b : byte) : option (list byte) :=
  if (0 <=? q) && (q <? Z.of_nat (length buf))
  then Some (<[Z.to_nat q := b]> buf)
  else None.

(** [strcpy(q, s)]: the bytes of [s] and the terminating NUL. *)
Fixpoint strcpy (buf : list byte) (q : Z) (s : list byte) : option (list byte) :=
  match s with
  | [] => store buf q "000"
  | b :: rest =>
      match store buf q b with
      | Some buf' => strcpy buf' (q + 1) rest
      | None => None
      end
  end.

(** The second loop, with [p] what is left of the format string. *)
Fixpoint format_loop (p home : list byte) (home_len : Z) (fileSep pathSep : byte)
    (buf : list byte) (q : Z) : option (list byte * Z) :=
  match p with
  | [] => Some (buf, q)
  | c :: p' =>
      if Byte.eqb c "%" then
        match strcpy buf q home with
        | Some buf' => format_loop p' home home_len fileSep pathSep buf' (q + home_len)
        | None => None
        end
      else
        let b := if Byte.eqb c "/" then fileSep
                 else if Byte.eqb c ":" then pathSep
                 else c in
        match store buf q b with
        | Some buf' => format_loop p' home home_len fileSep pathSep buf' (q + 1)
        | None => None
        end
  end.

(** The result is the array returned, with the final value of
    [q - formatted_path], which the closing assertion compares with
    [formatted_path_len].  [None]: a write outside the array, or an array
    of negative size. *)
Definition format_boot_path (format_string home : list byte) (home_len : Z)
    (fileSep pathSep : byte) : option (list byte * Z) :=
  let formatted_path_len := formatted_length format_string home_len in
  if formatted_path_len + 1 <? 0 then None
  else
    let formatted_path := uninitialized (Z.to_nat (formatted_path_len + 1)) in
    match format_loop format_string home home_len fileSep pathSep formatted_path 0 with
    | Some (buf, q) =>
        match store buf q "000" with
        | Some buf' => Some (buf', q)
        | None => None
        end
    | None => None
    end.

(** What a character of the format string stands for. *)
Definition expansion (home : list byte) (fileSep pathSep : byte) (c : byte)
  : list byte :=
  if Byte.eqb c "%" then home
  else if Byte.eqb c "/" then [fileSep]
  else if Byte.eqb c ":" then [pathSep]
  else [c].

Lemma formatted_length_expansion (format_string home : list byte)
    (fileSep pathSep : byte) :
  formatted_length format_string (Z.of_nat (length home))
  = Z.of_nat (length (flat_map (expansion home fileSep pathSep) format_string)).
Proof.
  unfold formatted_length.
  assert (Hgen : forall acc,
    fold_left
      (fun formatted_path_len c =>
         (if Byte.eqb c "%" then formatted_path_len + (Z.of_nat (length home) - 1)
          else formatted_path_len) + 1)
      format_string acc
    = acc + Z.of_nat (length (flat_map (expansion home fileSep pathSep) format_string))).
  { induction format_string as [|c rest IH]; intros acc; [simpl; lia|].
    cbn [fold_left flat_map]. rewrite IH, length_app. unfold expansion.
    destruct (Byte.eqb c "%"); [lia|].
    destruct (Byte.eqb c "/"); [simpl; lia|].
    destruct (Byte.eqb c ":"); simpl; lia. }
  rewrite Hgen. lia.
Qed.

Lemma store_at (written rest : list byte) (x b : byte) :
  store (written ++ x :: rest) (Z.of_nat (length written)) b
  = Some (written ++ b :: rest).
Proof.
  unfold store. rewrite length_app. cbn [length].
  assert (Hin : (0 <=? Z.of_nat (length written))
                && (Z.of_nat (length written)
                    <? Z.of_nat (length written + S (length rest))) = true).
  { apply andb_true_intro. split; [apply Z.leb_le|apply Z.ltb_lt]; lia. }
  rewrite Hin, Nat2Z.id.
  replace (length written) with (length written + 0)%nat at 1 by lia.
  rewrite insert_app_r. reflexivity.
Qed.

Lemma strcpy_at (s written rest : list byte) :
  (length s < length rest)%nat ->
  strcpy (written ++ rest) (Z.of_nat (length written)) s
  = Some (written ++ s ++ "000"%byte :: drop (S (length s)) rest).
Proof.
  revert written rest. induction s as [|b s IH]; intros written rest Hlen.
  - destruct rest as [|x rest]; [simpl in Hlen; lia|].
    cbn [strcpy]. rewrite store_at. reflexivity.
  - destruct rest as [|x rest]; [simpl in Hlen; lia|].
    cbn [strcpy]. rewrite store_at.
    replace (written ++ b :: rest) with ((written ++ [b]) ++ rest)
      by (rewrite <- app_assoc; reflexivity).
    replace (Z.of_nat (length written) + 1)
      with (Z.of_nat (length (written ++ [b])))
      by (rewrite length_app; simpl; lia).
    rewrite IH by (simpl in Hlen; lia).
    rewrite <- app_assoc. reflexivity.
Qed.

Lemma format_loop_expansion (p home : list byte) (fileSep pathSep : byte)
    (written rest : list byte) :
  let out := flat_map (expansion home fileSep pathSep) p in
  (length out < length rest)%nat ->
  exists rest',
    length rest' = (length rest - length out)%nat /\
    format_loop p home (Z.of_nat (length home)) fileSep pathSep
                (written ++ rest) (Z.of_nat (length written))
    = Some (written ++ out ++ rest', Z.of_nat (length written + length out)).
Proof.
  revert written rest. induction p as [|c p IH]; intros written rest out Hlen.
  - exists rest. subst out. simpl. split; [lia|].
    rewrite Nat.add_0_r. reflexivity.
  - subst out. cbn [flat_map format_loop] in *. rewrite length_app in Hlen.
    set (outp := flat_map (expansion home fileSep pathSep) p) in *.
    unfold expansion in *.
    revert Hlen. destruct (Byte.eqb c "%"); intros Hlen.
    + rewrite strcpy_at by lia.
      replace (written ++ home ++ "000"%byte :: drop (S (length home)) rest)
        with ((written ++ home) ++ "000"%byte :: drop (S (length home)) rest)
        by (rewrite <- app_assoc; reflexivity).
      replace (Z.of_nat (length written) + Z.of_nat (length home))
        with (Z.of_nat (length (written ++ home)))
        by (rewrite length_app; lia).
      destruct (IH (written ++ home) ("000"%byte :: drop (S (length home)) rest))
        as (rest' & Hl & Hloop).
      { cbn [length]. rewrite length_drop. lia. }
      rewrite Hloop. exists rest'. split.
      * rewrite Hl. cbn [length]. rewrite length_drop, length_app. lia.
      * rewrite <- !app_assoc, !length_app. do 2 f_equal. lia.
    + set (b := if Byte.eqb c "/" then fileSep
                else if Byte.eqb c ":" then pathSep else c).
      assert (Hexp : (if Byte.eqb c "/" then [fileSep]
                      else if Byte.eqb c ":" then [pathSep] else [c]) = [b]).
      { unfold b. destruct (Byte.eqb c "/"); [reflexivity|].
        destruct (Byte.eqb c ":"); reflexivity. }
      rewrite Hexp in *. cbn [length] in Hlen.
      destruct rest as [|x rest]; [simpl in Hlen; lia|].
      rewrite store_at.
      replace (written ++ b :: rest) with ((written ++ [b]) ++ rest)
        by (rewrite <- app_assoc; reflexivity).
      replace (Z.of_nat (length written) + 1)
        with (Z.of_nat (length (written ++ [b])))
        by (rewrite length_app; simpl; lia).
      destruct (IH (written ++ [b]) rest) as (rest' & Hl & Hloop).
      { simpl in Hlen. lia. }
      rewrite Hloop. exists rest'. split.
      * rewrite Hl. simpl. lia.
      * rewrite <- !app_assoc, !length_app. cbn [length app].
        do 2 f_equal. lia.
Qed.

(** X19.  Called with the length of [home] as [home_len], the way
    [os::set_boot_path] does, [os::format_boot_path] writes inside the
    array it allocated, whatever that held before; the array returned is
    the format string with every ['%'] replaced by [home], every ['/'] by
    [fileSep] and every [':'] by [pathSep], followed by the terminating
    NUL, and the closing assertion holds. *)
Theorem format_boot_path_expansion (format_string home : list byte)
    (fileSep pathSep : byte) :
  (forall n, length (uninitialized n) = n) ->
  let out := flat_map (expansion home fileSep pathSep) format_string in
  format_boot_path format_string home (Z.of_nat (length home)) fileSep pathSep
  = Some (out ++ ["000"%byte], Z.of_nat (length out)) /\
  formatted_length format_string (Z.of_nat (length home)) = Z.of_nat (length out).
Proof.
  intros Hfresh out.
  pose proof (formatted_length_expansion format_string home fileSep pathSep)
    as Hlen.
  fold out in Hlen. split; [|exact Hlen].
  unfold format_boot_path. cbv zeta. rewrite Hlen.
  assert (Hneg : (Z.of_nat (length out) + 1 <? 0) = false)
    by (apply Z.ltb_ge; lia).
  rewrite Hneg.
  set (arr := uninitialized (Z.to_nat (Z.of_nat (length out) + 1))).
  assert (Harr : length arr = S (length out)).
  { unfold arr. rewrite Hfresh. lia. }
  destruct (format_loop_expansion format_string home fileSep pathSep [] arr)
    as (rest' & Hl & Hloop).
  { fold out. lia. }
  fold out in Hl, Hloop. cbn [app length] in Hloop.
  change (Z.of_nat 0) with 0 in Hloop. rewrite Hloop.
  destruct rest' as [|x rest']; [simpl in Hl; lia|].
  destruct rest' as [|y rest']; [|simpl in Hl; lia].
  cbn [Nat.add]. rewrite store_at. reflexivity.
Qed.

End FormatBootPath.

(** A fresh array full of ['?']. *)
Definition question_marks (n : nat) : list byte := repeat "?"%byte n.

Example format_boot_path_example :
  format_boot_path question_marks ["%"; "/"; "l"; "i"; "b"; ":"; "%"]%byte
                   ["C"; "J"]%byte 2 "092"%byte ";"%byte
  = Some (["C"; "J"; "092"; "l"; "i"; "b"; ";"; "C"; "J"; "000"]%byte, 9).
Proof. reflexivity. Qed.

(** With a [home_len] below the length of [home] the copy of [home] does
    not fit. *)
Example format_boot_path_short_home_len :
  format_boot_path question_marks ["%"]%byte ["C"; "J"]%byte 0 "/"%byte ":"%byte
  = None.
Proof. reflexivity. Qed.

Lemma format_boot_path_expansion_witness :
  format_boot_path question_marks ["%"; "/"; "l"; "i"; "b"]%byte
                   ["C"; "J"]%byte 2 "/"%byte ":"%byte
  = Some (["C"; "J"; "/"; "l"; "i"; "b"; "000"]%byte, 6).
Proof.
  destruct (format_boot_path_expansion question_marks
              ["%"; "/"; "l"; "i"; "b"]%byte ["C"; "J"]%byte "/"%byte ":"%byte
              (fun n => repeat_length "?"%byte n)) as [H _].
  exact H.
Defined.


(** *** [os::pretouch_memory] *)

Section Pretouch.

(** Number of bits of a pointer. *)
Variable w : Z.

(** [pd_pretouch_memory(first, last, page_size)]: the platform touches the
    pages itself and returns 0, or returns the size of the pages to
    touch. *)
Variable pd_pretouch_memory : Z -> Z -> Z -> Z.

(** The loop over the pages, entered with the current [cur]; the result is
    the list of the addresses touched by [Atomic::add], in order.  [None]:
    not finished within [fuel] iterations. *)
Fixpoint touch_loop (fuel : nat) (cur last pd_page_size : Z) : option (list Z) :=
  match fuel with
  | O => None
  | S fuel' =>
      if cur >=? last then Some [cur]
      else
        match touch_loop fuel' (Word.add w cur pd_page_size) last pd_page_size with
        | Some touched => Some (cur :: touched)
        | None => None
        end
  end.

Definition pretouch_memory (fuel : nat) (start end_ page_size : Z)
  : option (list Z) :=
  if start <? end_ then
    let first := align_down start page_size in
    let last := align_down (end_ - 1) page_size in
    let pd_page_size := pd_pretouch_memory first last page_size in
    if pd_page_size >? 0 then
      let last := align_down (end_ - 1) pd_page_size in
      touch_loop fuel first last pd_page_size
    else Some []
  else Some [].

(** The addresses from [first] on, [n + 1] of them, [step] apart. *)
Definition pages (first step : Z) (n : nat) : list Z :=
  map (fun i => first + Z.of_nat i * step) (seq 0 (S n)).

Lemma pages_S first step n :
  pages first step (S n) = first :: pages (first + step) step n.
Proof.
  unfold pages. rewrite <- cons_seq, <- seq_shift. cbn [map]. rewrite map_map.
  f_equal; [lia|]. apply map_ext. intros i. lia.
Qed.

Lemma touch_loop_pages (fuel : nat) (cur last pd_page_size : Z) (n : nat) :
  0 < pd_page_size -> 0 <= cur -> last < 2 ^ w ->
  last = cur + Z.of_nat n * pd_page_size ->
  (n < fuel)%nat ->
  touch_loop fuel cur last pd_page_size = Some (pages cur pd_page_size n).
Proof.
  intros Hpd. revert cur n.
  induction fuel as [|fuel IH]; intros cur n Hcur Hlast Hn Hf; [lia|].
  cbn [touch_loop]. destruct n as [|n].
  - assert (Hge : (cur >=? last) = true) by (apply Z.geb_le; lia).
    rewrite Hge. unfold pages. simpl. do 2 f_equal. lia.
  - assert (Hlt : (cur >=? last) = false).
    { destruct (Z.geb_spec cur last); [nia|reflexivity]. }
    rewrite Hlt.
    rewrite Word.add_no_overflow by nia.
    rewrite (IH (cur + pd_page_size) n) by (lia || nia).
    rewrite pages_S. reflexivity.
Qed.

(** X20.  For a range that is not empty, a page size [2 ^ k] and a platform page
    size [2 ^ j] that is not larger, the loop ends without the address
    wrapping around, also when the last page abuts the end of the address
    range.  It touches the start of every platform page from the aligned
    start of the range to the page of the last byte, each once, in
    ascending order; so the page of every byte of the range is touched. *)
Theorem pretouch_memory_pages (start end_ k j : Z) :
  0 <= start -> start < end_ -> end_ <= 2 ^ w ->
  0 <= j <= k ->
  pd_pretouch_memory (align_down start (2 ^ k)) (align_down (end_ - 1) (2 ^ k))
                     (2 ^ k) = 2 ^ j ->
  let first := align_down start (2 ^ k) in
  let last := align_down (end_ - 1) (2 ^ j) in
  exists n,
    last = first + Z.of_nat n * 2 ^ j /\
    pretouch_memory (S n) start end_ (2 ^ k) = Some (pages first (2 ^ j) n) /\
    forall a, start <= a < end_ -> In (align_down a (2 ^ j)) (pages first (2 ^ j) n).
Proof.
  intros Hstart Hlt Hend Hjk Hpd first last.
  assert (Hpj : 0 < 2 ^ j) by (apply Z.pow_pos_nonneg; lia).
  assert (Hpk : 0 < 2 ^ k) by (apply Z.pow_pos_nonneg; lia).
  assert (Hkj : 2 ^ k = 2 ^ (k - j) * 2 ^ j).
  { rewrite <- Z.pow_add_r by lia. f_equal. lia. }
  assert (Hfirst : first = 2 ^ k * (start / 2 ^ k)).
  { unfold first. rewrite align_down_mod by lia.
    pose proof (Z.div_mod start (2 ^ k) ltac:(lia)). lia. }
  assert (Hdown : forall a, align_down a (2 ^ j) = 2 ^ j * (a / 2 ^ j)).
  { intros a. rewrite align_down_mod by lia.
    pose proof (Z.div_mod a (2 ^ j) ltac:(lia)). lia. }
  assert (Hfj : first = 2 ^ j * (2 ^ (k - j) * (start / 2 ^ k))) by lia.
  assert (Hf0 : 0 <= first).
  { rewrite Hfirst. apply Z.mul_nonneg_nonneg; [lia|].
    apply Z.div_pos; lia. }
  assert (Hfs : first <= start).
  { rewrite Hfirst. apply Z.mul_div_le. lia. }
  set (q0 := 2 ^ (k - j) * (start / 2 ^ k)) in *.
  assert (Hq : forall a, start <= a -> q0 <= a / 2 ^ j).
  { intros a Ha. apply Z.div_le_lower_bound; [lia|]. lia. }
  set (n := Z.to_nat ((end_ - 1) / 2 ^ j - q0)).
  assert (Hn : Z.of_nat n = (end_ - 1) / 2 ^ j - q0).
  { unfold n. rewrite Z2Nat.id; [reflexivity|].
    specialize (Hq (end_ - 1) ltac:(lia)). lia. }
  assert (Hlast : last = first + Z.of_nat n * 2 ^ j).
  { unfold last. rewrite Hdown, Hn, Hfj. lia. }
  exists n. split; [exact Hlast|]. split.
  - unfold pretouch_memory.
    assert (Hse : (start <? end_) = true) by (apply Z.ltb_lt; lia).
    rewrite Hse. cbv zeta. rewrite Hpd.
    assert (Hpos : (2 ^ j >? 0) = true) by (apply Z.gtb_lt; lia).
    rewrite Hpos.
    assert (Hle : last <= end_ - 1).
    { unfold last. rewrite Hdown. apply Z.mul_div_le. lia. }
    apply touch_loop_pages; lia.
  - intros a Ha. unfold pages. apply in_map_iff.
    exists (Z.to_nat (a / 2 ^ j - q0)).
    pose proof (Hq a ltac:(lia)) as Hqa.
    assert (Hle : a / 2 ^ j <= (end_ - 1) / 2 ^ j)
      by (apply Z.div_le_mono; lia).
    split.
    + rewrite Hdown, Z2Nat.id, Hfj by lia. lia.
    + apply in_seq. lia.
Qed.

End Pretouch.

(** A platform with pages of 4K that leaves the touching to the loop. *)
Definition pd_pages_4K (first last page_size : Z) : Z := 4096.

Example pretouch_memory_example :
  pretouch_memory 64 pd_pages_4K 10 5000 20000 8192
  = Some [0; 4096; 8192; 12288; 16384].
Proof. reflexivity. Qed.

Lemma pretouch_memory_pages_witness :
  exists n,
    align_down (20000 - 1) (2 ^ 12) = align_down 5000 (2 ^ 13) + Z.of_nat n * 2 ^ 12 /\
    pretouch_memory 64 pd_pages_4K (S n) 5000 20000 (2 ^ 13)
    = Some (pages (align_down 5000 (2 ^ 13)) (2 ^ 12) n) /\
    forall a, 5000 <= a < 20000 ->
      In (align_down a (2 ^ 12)) (pages (align_down 5000 (2 ^ 13)) (2 ^ 12) n).
Proof.
  apply (pretouch_memory_pages 64 pd_pages_4K 5000 20000 13 12).
  - lia.
  - lia.
  - vm_compute. congruence.
  - lia.
  - reflexivity.
Defined.


(** *** [os::dll_build_name], [os::dll_locate_lib] *)

(** [dll_undefined]: a read in front of the buffer; [dll_returned]: the
    value returned and the string the buffer holds then. *)
Inductive dll_result : Type :=
| dll_vm_exit
| dll_undefined
| dll_returned (retval : bool) (buffer : list byte).

Section DllLocateLib.

(** Number of bits of [size_t]; [os::path_separator()],
    [os::file_separator()], [JVM_MAXPATHLEN], [JNI_LIB_PREFIX] and
    [JNI_LIB_SUFFIX]. *)
Variable w : Z.
Variable path_separator file_separator : list byte.
Variable JVM_MAXPATHLEN : Z.
Variable JNI_LIB_PREFIX JNI_LIB_SUFFIX : list byte.

(** [jio_snprintf(buf, size, "%s%s%s", a, b, c)], given [size] and the
    text [a ++ b ++ c]: the value returned and the string [buf] holds
    then. *)
Variable jio_snprintf : Z -> list byte -> Z * list byte.

(** [os::stat(path, &statbuf) == 0]. *)
Variable stat : list byte -> bool.

(** [get_current_directory(buffer, buflen)]: whether the result is not
    null, and the string the buffer holds then. *)
Variable get_current_directory : Z -> bool * list byte.

Definition dll_build_name (size : Z) (fname : list byte) : bool * list byte :=
  let '(n, buffer) :=
    jio_snprintf size (JNI_LIB_PREFIX ++ fname ++ JNI_LIB_SUFFIX) in
  (negb (n =? -1), buffer).

(** [before] is what the buffer holds in front of [printbuffer].  The
    test on [lastchar] for Windows is left out. *)
Definition conc_path_file_and_check (before : list byte) (printbuflen : Z)
    (pname : list byte) (lastchar : byte) (fname : list byte)
  : bool * list byte :=
  let filesep :=
    if Byte.eqb lastchar (hd "000"%byte file_separator) then []
    else file_separator in
  let '(ret, printed) := jio_snprintf printbuflen (pname ++ filesep ++ fname) in
  let buffer := before ++ printed in
  if negb (ret =? -1) then (stat buffer, buffer)
  else (false, buffer).

(** The loop over the elements of a list of paths. *)
Fixpoint locate_loop (pelements : list (list byte)) (buflen : Z)
    (fullfname buffer : list byte) : bool * list byte :=
  match pelements with
  | [] => (false, buffer)
  | path :: rest =>
      let plen := length path in
      if (plen =? 0)%nat then locate_loop rest buflen fullfname buffer
      else
        let lastchar := last path "000"%byte in
        let '(retval, buffer') :=
          conc_path_file_and_check [] buflen path lastchar fullfname in
        if retval then (true, buffer')
        else locate_loop rest buflen fullfname buffer'
  end.

(** [None]: [split_path] did not finish. *)
Definition dll_locate_lib (buffer : list byte) (buflen : Z)
    (pname : option (list byte)) (fname : list byte) : option dll_result :=
  let fullfnamelen :=
    Z.of_nat (length JNI_LIB_PREFIX) + Z.of_nat (length fname)
    + Z.of_nat (length JNI_LIB_SUFFIX) in
  let '(built, fullfname) := dll_build_name (fullfnamelen + 1) fname in
  if built then
    let pname := match pname with Some p => p | None => [] end in
    let pnamelen := length pname in
    if (pnamelen =? 0)%nat then
      let '(found, buffer) := get_current_directory buflen in
      if found then
        let plen := length buffer in
        if (plen =? 0)%nat then Some dll_undefined
        else
          let lastchar := last buffer "000"%byte in
          let '(retval, buffer) :=
            conc_path_file_and_check buffer (buflen - Z.of_nat plen) []
                                     lastchar fullfname in
          Some (dll_returned retval buffer)
      else Some (dll_returned false buffer)
    else
      match strchr pname (hd "000"%byte path_separator) with
      | Some _ =>
          match split_path w path_separator JVM_MAXPATHLEN (Some pname)
                           fullfnamelen with
          | None => None
          | Some vm_exit => Some dll_vm_exit
          | Some (returned None _) => Some (dll_returned false buffer)
          | Some (returned (Some pelements) n) =>
              let '(retval, buffer) :=
                locate_loop (take n pelements) buflen fullfname buffer in
              Some (dll_returned retval buffer)
          end
      | None =>
          let lastchar := last pname "000"%byte in
          let '(retval, buffer) :=
            conc_path_file_and_check [] buflen pname lastchar fullfname in
          Some (dll_returned retval buffer)
      end
  else Some (dll_returned false buffer).

(** [jio_snprintf] prints the whole text and returns its length when the
    text and the terminating NUL fit in [size] bytes, and returns -1 when
    they do not. *)
Definition jio_snprintf_contract : Prop :=
  forall size text,
    (Z.of_nat (length text) < size ->
     jio_snprintf size text = (Z.of_nat (length text), text)) /\
    (size <= Z.of_nat (length text) -> fst (jio_snprintf size text) = -1).

(** The file name tried in directory [dir]: no separator is added after a
    directory that ends in one. *)
Definition candidate (f : byte) (fullfname dir : list byte) : list byte :=
  dir ++ (if Byte.eqb (last dir "000"%byte) f then [] else [f]) ++ fullfname.

(** The directory is not the empty string, the file name fits in the
    buffer, and the file exists. *)
Definition located (f : byte) (buflen : Z) (fullfname dir : list byte) : bool :=
  negb (length dir =? 0)%nat
  && (Z.of_nat (length (candidate f fullfname dir)) <? buflen)
  && stat (candidate f fullfname dir).

Lemma locate_loop_find (f : byte) (pelements : list (list byte)) (buflen : Z)
    (fullfname buffer : list byte) :
  jio_snprintf_contract ->
  file_separator = [f] ->
  exists buffer',
    locate_loop pelements buflen fullfname buffer
    = match find (located f buflen fullfname) pelements with
      | Some dir => (true, candidate f fullfname dir)
      | None => (false, buffer')
      end.
Proof.
  intros Hjio Hsep. revert buffer.
  induction pelements as [|path rest IH]; intros buffer.
  - exists buffer. reflexivity.
  - cbn [locate_loop find]. cbv zeta. unfold located at 1.
    destruct (length path =? 0)%nat; [cbn [negb andb]; apply IH|].
    cbn [negb andb]. unfold conc_path_file_and_check.
    rewrite Hsep. cbn [hd]. fold (candidate f fullfname path).
    destruct (Hjio buflen (candidate f fullfname path)) as [Hfit Hcut].
    destruct (Z.ltb_spec (Z.of_nat (length (candidate f fullfname path))) buflen)
      as [Hlt|Hge].
    + rewrite (Hfit Hlt). cbn [app].
      assert (Hret : negb (Z.of_nat (length (candidate f fullfname path)) =? -1)
                     = true) by (apply negb_true_iff, Z.eqb_neq; lia).
      rewrite Hret. cbn [andb].
      destruct (stat (candidate f fullfname path)).
      * exists buffer. reflexivity.
      * apply IH.
    + specialize (Hcut Hge).
      destruct (jio_snprintf buflen (candidate f fullfname path)) as [ret printed].
      cbn [fst] in Hcut. subst ret. cbn [negb Z.eqb andb]. apply IH.
Qed.

Lemma strchr_In (s : list byte) (c : byte) : In c s -> strchr s c <> None.
Proof.
  intros Hin Hnone. pose proof (strchr_spec s c) as Hs. rewrite Hnone in Hs.
  apply (count_occ_not_In byte_eq_dec) in Hs. contradiction.
Qed.

(** X21.  For a list of directories, with one-character separators:
    [os::dll_locate_lib] tries the directories in the order of the list,
    skipping the empty ones, and returns [true] for the first in which the
    library file exists under a name that fits in the buffer; the buffer
    then holds that name, with exactly one file separator between
    directory and file.  It returns [false] when there is no such
    directory, and the VM exits when a directory's name leaves no room for
    the file name within [JVM_MAXPATHLEN]. *)
Theorem dll_locate_lib_path_list (c f : byte) (buffer : list byte) (buflen : Z)
    (pname fname : list byte) :
  jio_snprintf_contract ->
  path_separator = [c] -> file_separator = [f] ->
  In c pname ->
  let fullfname := JNI_LIB_PREFIX ++ fname ++ JNI_LIB_SUFFIX in
  0 < Z.of_nat (length fullfname) ->
  Z.of_nat (length pname) + Z.of_nat (length fullfname) < 2 ^ w ->
  exists pelements buffer',
    join c pelements = pname /\
    Forall (fun dir => ~ In c dir) pelements /\
    dll_locate_lib buffer buflen (Some pname) fname
    = Some (if forallb (fits JVM_MAXPATHLEN (Z.of_nat (length fullfname))) pelements
            then
              match find (located f buflen fullfname) pelements with
              | Some dir => dll_returned true (candidate f fullfname dir)
              | None => dll_returned false buffer'
              end
            else dll_vm_exit).
Proof.
  intros Hjio Hpsep Hfsep Hin fullfname Hpos Hlen.
  assert (Hfl : Z.of_nat (length JNI_LIB_PREFIX) + Z.of_nat (length fname)
                + Z.of_nat (length JNI_LIB_SUFFIX)
                = Z.of_nat (length fullfname)).
  { unfold fullfname. rewrite !length_app. lia. }
  assert (Hne : pname <> []) by (intros ->; contradiction).
  destruct (split_path_split w path_separator JVM_MAXPATHLEN c pname
              (Z.of_nat (length fullfname)) Hpsep Hne Hpos Hlen)
    as (pelements & Hcount & Hjoin & Hnosep & Hsplit).
  destruct (locate_loop_find f pelements buflen fullfname buffer Hjio Hfsep)
    as (buffer' & Hloop).
  exists pelements, buffer'. split; [exact Hjoin|]. split; [exact Hnosep|].
  unfold dll_locate_lib, dll_build_name. cbv zeta. rewrite Hfl.
  fold fullfname.
  destruct (Hjio (Z.of_nat (length fullfname) + 1) fullfname) as [Hfit _].
  rewrite Hfit by lia.
  assert (Hret : negb (Z.of_nat (length fullfname) =? -1) = true)
    by (apply negb_true_iff, Z.eqb_neq; lia).
  rewrite Hret.
  assert (Hl0 : (length pname =? 0)%nat = false).
  { apply Nat.eqb_neq. destruct pname; [congruence|simpl; lia]. }
  rewrite Hl0. rewrite Hpsep. cbn [hd].
  pose proof (strchr_In pname c Hin) as Hchr.
  destruct (strchr pname c) as [q|]; [|congruence].
  rewrite <- Hpsep, Hsplit.
  destruct (forallb (fits JVM_MAXPATHLEN (Z.of_nat (length fullfname))) pelements);
    [|reflexivity].
  rewrite firstn_all, Hloop.
  destruct (find (located f buflen fullfname) pelements); reflexivity.
Qed.

End DllLocateLib.

(** A platform on which [jio_snprintf] behaves as expected and the only
    file is ["/b/libz.so"]. *)
Definition plain_snprintf (size : Z) (text : list byte) : Z * list byte :=
  if Z.of_nat (length text) <? size then (Z.of_nat (length text), text)
  else (-1, take (Z.to_nat (size - 1)) text).

Definition libz_so : list byte :=
  ["/"; "b"; "/"; "l"; "i"; "b"; "z"; "."; "s"; "o"]%byte.

Definition only_libz (path : list byte) : bool :=
  if list_eq_dec byte_eq_dec path libz_so then true else false.

Definition no_cwd (buflen : Z) : bool * list byte := (false, []).

Lemma plain_snprintf_contract : jio_snprintf_contract plain_snprintf.
Proof.
  intros size text. unfold plain_snprintf. split; intros H.
  - apply Z.ltb_lt in H. rewrite H. reflexivity.
  - apply Z.ltb_ge in H. rewrite H. reflexivity.
Qed.

Example dll_locate_lib_example :
  dll_locate_lib 64 [":"%byte] ["/"%byte] 4096 ["l"; "i"; "b"]%byte
                 ["."; "s"; "o"]%byte plain_snprintf only_libz no_cwd
                 [] 256 (Some ["/"; "a"; ":"; ":"; "/"; "b"; "/"]%byte) ["z"%byte]
  = Some (dll_returned true libz_so).
Proof. vm_compute. reflexivity. Qed.

Lemma dll_locate_lib_path_list_witness :
  exists pelements buffer',
    join ":"%byte pelements = ["/"; "a"; ":"; ":"; "/"; "b"; "/"]%byte /\
    Forall (fun dir => ~ In ":"%byte dir) pelements /\
    dll_locate_lib 64 [":"%byte] ["/"%byte] 4096 ["l"; "i"; "b"]%byte
                   ["."; "s"; "o"]%byte plain_snprintf only_libz no_cwd
                   [] 256 (Some ["/"; "a"; ":"; ":"; "/"; "b"; "/"]%byte) ["z"%byte]
    = Some (if forallb (fits 4096 7) pelements
            then
              match find (located only_libz "/"%byte 256
                            ["l"; "i"; "b"; "z"; "."; "s"; "o"]%byte) pelements with
              | Some dir =>
                  dll_returned true
                    (candidate "/"%byte ["l"; "i"; "b"; "z"; "."; "s"; "o"]%byte dir)
              | None => dll_returned false buffer'
              end
            else dll_vm_exit).
Proof.
  apply (dll_locate_lib_path_list 64 [":"%byte] ["/"%byte] 4096
           ["l"; "i"; "b"]%byte ["."; "s"; "o"]%byte plain_snprintf only_libz
           no_cwd ":"%byte "/"%byte [] 256
           ["/"; "a"; ":"; ":"; "/"; "b"; "/"]%byte ["z"%byte]).
  - exact plain_snprintf_contract.
  - reflexivity.
  - reflexivity.
  - simpl. tauto.
  - simpl. lia.
  - vm_compute. reflexivity.
Defined.


(** *** [os::print_hex_dump] *)

(** Modelled from the spec: [align_up(x, a)] (utilities/align.hpp) rounds
    up to the next multiple of the power-of-two alignment [a]. *)
Definition align_up (x a : Z) : Z := align_down (x + (a - 1)) a.

(** The calls on the output stream: the address that opens a line, the
    unit at [p] as [print_hex_location] prints it, the blank between two
    units, the end of a line. *)
Inductive dump_call : Type :=
| print_address (logical_p : Z)
| hex_location (p unitsize : Z)
| print_blank
| dump_cr.

Section HexDump.

(** Number of bits of a pointer. *)
Variable w : Z.

(** The [while] loop of [os::print_hex_dump].  [None]: not finished within
    [fuel] iterations. *)
Fixpoint hex_dump_loop (fuel : nat) (end_ unitsize cols_per_line : Z)
    (p logical_p cols : Z) : option (list dump_call) :=
  match fuel with
  | O => None
  | S fuel' =>
      if p <? end_ then
        let p' := Word.add w p unitsize in
        let logical_p' := Word.add w logical_p unitsize in
        let cols' := cols + 1 in
        if (cols' >=? cols_per_line) && (p' <? end_) then
          match hex_dump_loop fuel' end_ unitsize cols_per_line p' logical_p' 0 with
          | Some calls =>
              Some (hex_location p unitsize :: dump_cr
                    :: print_address logical_p' :: calls)
          | None => None
          end
        else
          match hex_dump_loop fuel' end_ unitsize cols_per_line p' logical_p' cols' with
          | Some calls => Some (hex_location p unitsize :: print_blank :: calls)
          | None => None
          end
      else Some []
  end.

Definition print_hex_dump (fuel : nat) (start end_ unitsize bytes_per_line
    logical_start : Z) : option (list dump_call) :=
  let start := align_down start unitsize in
  let logical_start := align_down logical_start unitsize in
  let bytes_per_line := align_up bytes_per_line 8 in
  let cols := 0 in
  let cols_per_line := bytes_per_line ÷ unitsize in
  let p := start in
  let logical_p := logical_start in
  match hex_dump_loop fuel end_ unitsize cols_per_line p logical_p cols with
  | Some calls => Some (print_address logical_p :: calls ++ [dump_cr])
  | None => None
  end.

(** The calls for the unit of index [i] out of [n], with [cols_per_line]
    units to a line: the unit, then a new line with its address when the
    line is full and the unit is not the last, a blank otherwise. *)
Definition unit_calls (start logical_start unitsize cols_per_line : Z) (n : nat)
    (i : nat) : list dump_call :=
  hex_location (start + Z.of_nat i * unitsize) unitsize
  :: (if (Z.of_nat (S i) mod cols_per_line =? 0) && (S i <? n)%nat
      then [dump_cr;
            print_address (Word.wrap w (logical_start + Z.of_nat (S i) * unitsize))]
      else [print_blank]).

Lemma cols_full (cols_per_line : Z) (i : nat) :
  0 < cols_per_line ->
  (Z.of_nat i mod cols_per_line + 1 >=? cols_per_line)
  = (Z.of_nat (S i) mod cols_per_line =? 0).
Proof.
  intros Hc. pose proof (Z.mod_pos_bound (Z.of_nat i) cols_per_line Hc) as Hb.
  replace (Z.of_nat (S i)) with (Z.of_nat i + 1) by lia.
  rewrite <- Zplus_mod_idemp_l.
  destruct (Z.eq_dec (Z.of_nat i mod cols_per_line + 1) cols_per_line) as [He|Hne].
  - rewrite He, Z.mod_same by lia.
    destruct (Z.geb_spec cols_per_line cols_per_line); [reflexivity|lia].
  - rewrite (Z.mod_small (Z.of_nat i mod cols_per_line + 1)) by lia.
    destruct (Z.geb_spec (Z.of_nat i mod cols_per_line + 1) cols_per_line);
      [lia|].
    symmetry. apply Z.eqb_neq. lia.
Qed.

Lemma hex_dump_loop_units (start logical_start end_ unitsize cols_per_line : Z)
    (n m i : nat) (fuel : nat) (cols : Z) :
  0 < unitsize -> 0 < cols_per_line -> 0 <= start ->
  end_ + unitsize <= 2 ^ w ->
  (forall k : nat, start + Z.of_nat k * unitsize < end_ <-> (k < n)%nat) ->
  (i + m = n)%nat -> (m < fuel)%nat ->
  (m <> O -> cols = Z.of_nat i mod cols_per_line) ->
  hex_dump_loop fuel end_ unitsize cols_per_line
    (start + Z.of_nat i * unitsize)
    (Word.wrap w (logical_start + Z.of_nat i * unitsize)) cols
  = Some (flat_map (unit_calls start logical_start unitsize cols_per_line n)
                   (seq i m)).
Proof.
  intros Hus Hcpl Hstart Hend Hn. revert m i cols.
  induction fuel as [|fuel IH]; intros m i cols Him Hf Hcols; [lia|].
  cbn [hex_dump_loop]. cbv zeta.
  destruct m as [|m].
  - assert (Hge : (start + Z.of_nat i * unitsize <? end_) = false).
    { apply Z.ltb_ge. destruct (Z_lt_le_dec (start + Z.of_nat i * unitsize) end_)
        as [Hlt|Hle]; [apply Hn in Hlt; lia|exact Hle]. }
    rewrite Hge. reflexivity.
  - assert (Hlt : start + Z.of_nat i * unitsize < end_) by (apply Hn; lia).
    assert (Hltb : (start + Z.of_nat i * unitsize <? end_) = true)
      by (apply Z.ltb_lt; exact Hlt).
    rewrite Hltb.
    assert (Hp' : Word.add w (start + Z.of_nat i * unitsize) unitsize
                  = start + Z.of_nat (S i) * unitsize).
    { rewrite Word.add_no_overflow by nia. lia. }
    assert (Hl' : Word.add w (Word.wrap w (logical_start + Z.of_nat i * unitsize))
                             unitsize
                  = Word.wrap w (logical_start + Z.of_nat (S i) * unitsize)).
    { unfold Word.add, Word.wrap. rewrite Zplus_mod_idemp_l. f_equal. lia. }
    rewrite Hp', Hl'.
    rewrite (Hcols ltac:(lia)), cols_full by exact Hcpl.
    assert (Hnext : (start + Z.of_nat (S i) * unitsize <? end_) = (S i <? n)%nat).
    { destruct (Nat.ltb_spec (S i) n) as [Hk|Hk].
      - apply Z.ltb_lt, Hn. exact Hk.
      - apply Z.ltb_ge.
        destruct (Z_lt_le_dec (start + Z.of_nat (S i) * unitsize) end_)
          as [Hx|Hx]; [apply Hn in Hx; lia|exact Hx]. }
    rewrite Hnext.
    cbn [seq flat_map]. unfold unit_calls at 1.
    destruct ((Z.of_nat (S i) mod cols_per_line =? 0) && (S i <? n)%nat) eqn:Hbreak.
    + rewrite (IH m (S i) 0) by
        (try lia; intros _; apply andb_true_iff in Hbreak as [Hz _];
         apply Z.eqb_eq in Hz; lia).
      reflexivity.
    + rewrite (IH m (S i) (Z.of_nat i mod cols_per_line + 1)).
      * reflexivity.
      * lia.
      * lia.
      * intros Hm.
        assert (Hin : (S i <? n)%nat = true) by (apply Nat.ltb_lt; lia).
        rewrite Hin, andb_true_r in Hbreak. apply Z.eqb_neq in Hbreak.
        pose proof (Z.mod_pos_bound (Z.of_nat i) cols_per_line Hcpl) as Hb.
        replace (Z.of_nat (S i)) with (Z.of_nat i + 1) in * by lia.
        rewrite <- Zplus_mod_idemp_l in Hbreak |- *.
        destruct (Z.eq_dec (Z.of_nat i mod cols_per_line + 1) cols_per_line)
          as [He|Hne].
        -- rewrite He, Z.mod_same in Hbreak by lia. congruence.
        -- rewrite (Z.mod_small (Z.of_nat i mod cols_per_line + 1)) by lia.
           reflexivity.
Qed.

Lemma divide_mod (a x m : Z) : (a | x) -> (a | m) -> (a | x mod m).
Proof.
  intros Hx Hm. destruct (Z.eq_dec m 0) as [->|Hnz].
  - rewrite Z.mod_0_r. exact Hx.
  - rewrite Z.mod_eq by exact Hnz.
    apply Z.divide_sub_r; [exact Hx|]. apply Z.divide_mul_l. exact Hm.
Qed.

(** When [end_] lies within the last unit of the address space, every
    unit start is below it, also after [p] has wrapped around: the loop
    has no way out. *)
Lemma hex_dump_loop_wraps (fuel : nat) (end_ unitsize cols_per_line : Z)
    (p logical_p cols : Z) :
  0 < unitsize -> (unitsize | 2 ^ w) -> 2 ^ w < end_ + unitsize ->
  0 <= p < 2 ^ w -> (unitsize | p) ->
  hex_dump_loop fuel end_ unitsize cols_per_line p logical_p cols = None.
Proof.
  intros Hus Hdw Hend. revert p logical_p cols.
  induction fuel as [|fuel IH]; intros p logical_p cols Hp Hdp; [reflexivity|].
  cbn [hex_dump_loop]. cbv zeta.
  assert (Hlast : p + unitsize <= 2 ^ w).
  { destruct Hdw as [b Hb]. destruct Hdp as [a Ha]. rewrite Hb, Ha in *.
    assert (a < b) by nia. nia. }
  assert (Hlt : (p <? end_) = true) by (apply Z.ltb_lt; lia).
  rewrite Hlt.
  assert (Hp' : 0 <= Word.add w p unitsize < 2 ^ w).
  { unfold Word.add, Word.wrap. apply Z.mod_pos_bound. lia. }
  assert (Hdp' : (unitsize | Word.add w p unitsize)).
  { unfold Word.add, Word.wrap. apply divide_mod; [|exact Hdw].
    apply Z.divide_add_r; [exact Hdp|apply Z.divide_refl]. }
  rewrite !(IH (Word.add w p unitsize)) by assumption.
  destruct ((cols + 1 >=? cols_per_line) && (Word.add w p unitsize <? end_));
    reflexivity.
Qed.

(** X22.  As long as the units do not reach the end of the address space,
    [os::print_hex_dump] returns: it prints the units from the aligned
    [start] up to [end_], each once and in ascending order,
    [cols_per_line] to a line; every line opens with the logical address
    of its first unit, and there is no empty line after a last line that
    is full.  When [end_] lies within the last unit of the address space,
    [p] wraps around to 0 and the loop does not end. *)
Theorem print_hex_dump_units (start end_ u bytes_per_line logical_start : Z) :
  0 <= u <= 3 ->
  0 < bytes_per_line ->
  0 <= start ->
  0 <= logical_start < 2 ^ w ->
  let unitsize := 2 ^ u in
  let first := align_down start unitsize in
  let logical_first := align_down logical_start unitsize in
  let cols_per_line := align_up bytes_per_line 8 / unitsize in
  let n := Z.to_nat ((end_ - first + unitsize - 1) / unitsize) in
  0 < cols_per_line /\
  (end_ + unitsize <= 2 ^ w ->
   print_hex_dump (S n) start end_ unitsize bytes_per_line logical_start
   = Some (print_address logical_first
           :: flat_map (unit_calls first logical_first unitsize cols_per_line n)
                       (seq 0 n)
           ++ [dump_cr])) /\
  (u <= w -> start < 2 ^ w -> 2 ^ w < end_ + unitsize ->
   forall fuel : nat,
     print_hex_dump fuel start end_ unitsize bytes_per_line logical_start = None).
Proof.
  intros Hu Hbpl Hstart Hlog unitsize first logical_first cols_per_line n.
  assert (Hus : 0 < unitsize) by (apply Z.pow_pos_nonneg; lia).
  assert (Hus8 : unitsize <= 8).
  { unfold unitsize. change 8 with (2 ^ 3). apply Z.pow_le_mono_r; lia. }
  assert (Hfirst : 0 <= first <= start)
    by (apply align_down_bounds; lia).
  assert (Hlf : 0 <= logical_first <= logical_start)
    by (apply align_down_bounds; lia).
  assert (Hup : 8 <= align_up bytes_per_line 8).
  { unfold align_up. change 8 with (2 ^ 3) at 2 3. rewrite align_down_mod by lia.
    change (2 ^ 3) with 8.
    pose proof (Z.div_mod (bytes_per_line + 7) 8 ltac:(lia)) as Hdm.
    assert (1 <= (bytes_per_line + 7) / 8)
      by (apply Z.div_le_lower_bound; lia).
    replace (bytes_per_line + (8 - 1)) with (bytes_per_line + 7) by lia.
    lia. }
  assert (Hcpl : 0 < cols_per_line).
  { unfold cols_per_line.
    assert (1 <= align_up bytes_per_line 8 / unitsize)
      by (apply Z.div_le_lower_bound; lia).
    lia. }
  split; [exact Hcpl|]. split.
  - intros Hend.
    assert (Hn : forall k : nat,
               first + Z.of_nat k * unitsize < end_ <-> (k < n)%nat).
    { intros k. unfold n.
      destruct (Z_lt_le_dec first end_) as [Hlt|Hle].
      - assert (Hq : 0 <= (end_ - first + unitsize - 1) / unitsize)
          by (apply Z.div_pos; lia).
        pose proof (Z.div_mod (end_ - first + unitsize - 1) unitsize ltac:(lia))
          as Hdm.
        pose proof (Z.mod_pos_bound (end_ - first + unitsize - 1) unitsize Hus)
          as Hmb.
        split; intros H.
        + apply Nat2Z.inj_lt. rewrite Z2Nat.id by lia. nia.
        + apply Nat2Z.inj_lt in H. rewrite Z2Nat.id in H by lia. nia.
      - assert (Hq : (end_ - first + unitsize - 1) / unitsize <= 0).
        { apply Z.lt_succ_r. apply Z.div_lt_upper_bound; lia. }
        split; intros H; [nia|lia]. }
    unfold print_hex_dump. cbv zeta.
    fold unitsize. fold first. fold logical_first.
    rewrite Z.quot_div_nonneg by lia. fold cols_per_line.
    pose proof (hex_dump_loop_units first logical_first end_ unitsize
                  cols_per_line n n O (S n) 0 Hus Hcpl ltac:(lia) Hend Hn
                  ltac:(lia) ltac:(lia))
      as Hloop.
    rewrite Z.mul_0_l, !Z.add_0_r in Hloop.
    rewrite Word.wrap_small in Hloop by (unfold Word.in_range; lia).
    rewrite Hloop; [reflexivity|].
    intros _. rewrite Z.mod_0_l by lia. reflexivity.
  - intros Huw Hsw Hwrap fuel.
    unfold print_hex_dump. cbv zeta.
    fold unitsize. fold first. fold logical_first.
    rewrite hex_dump_loop_wraps; [reflexivity|exact Hus| |exact Hwrap|lia|].
    + exists (2 ^ (w - u)). unfold unitsize.
      rewrite <- Z.pow_add_r by lia. f_equal. lia.
    + unfold first, unitsize. rewrite align_down_mod by lia.
      exists (start / 2 ^ u).
      pose proof (Z.div_mod start (2 ^ u) ltac:(lia)). lia.
Qed.

End HexDump.

Example print_hex_dump_example :
  print_hex_dump 64 10 1001 1018 4 8 5001
  = Some [print_address 5000;
          hex_location 1000 4; print_blank;
          hex_location 1004 4; dump_cr; print_address 5008;
          hex_location 1008 4; print_blank;
          hex_location 1012 4; dump_cr; print_address 5016;
          hex_location 1016 4; print_blank;
          dump_cr].
Proof. reflexivity. Qed.

(** A dump that ends with the last byte of a 64-bit address space. *)
Example print_hex_dump_at_the_top :
  print_hex_dump 64 200 (2 ^ 64 - 17) (2 ^ 64 - 1) 8 16 0 = None /\
  print_hex_dump 64 200 (2 ^ 64 - 17) (2 ^ 64 - 8) 8 16 0
  = Some [print_address 0;
          hex_location (2 ^ 64 - 24) 8; print_blank;
          hex_location (2 ^ 64 - 16) 8; print_blank;
          dump_cr].
Proof. split; vm_compute; reflexivity. Qed.

Lemma print_hex_dump_units_witness :
  print_hex_dump 64 5 1001 1016 (2 ^ 2) 8 5001
  = Some [print_address 5000;
          hex_location 1000 4; print_blank;
          hex_location 1004 4; dump_cr; print_address 5008;
          hex_location 1008 4; print_blank;
          hex_location 1012 4; print_blank;
          dump_cr] /\
  print_hex_dump 64 200 (2 ^ 64 - 17) (2 ^ 64 - 1) (2 ^ 3) 16 0 = None.
Proof.
  split.
  - destruct (print_hex_dump_units 64 1001 1016 2 8 5001) as (_ & Hreturns & _).
    + lia.
    + lia.
    + lia.
    + split; [lia|vm_compute; reflexivity].
    + exact (Hreturns ltac:(vm_compute; congruence)).
  - destruct (print_hex_dump_units 64 (2 ^ 64 - 17) (2 ^ 64 - 1) 3 16 0)
      as (_ & _ & Hwraps).
    + lia.
    + lia.
    + vm_compute. congruence.
    + split; [lia|vm_compute; reflexivity].
    + exact (Hwraps ltac:(lia) ltac:(vm_compute; reflexivity)
                    ltac:(vm_compute; reflexivity) 200%nat).
Defined.


(** *** [os::set_minimum_stack_sizes] *)

Inductive jint_result : Type := JNI_OK | JNI_ERR.

(** The three lines the function may print, each with the number it
    gives. *)
Inductive stack_message : Type :=
| JavaStackTooSmall (at_least_k : Z)
| CompilerStackTooSmall (at_least_k : Z)
| VMStackTooSmall (at_least_k : Z).

(** The static fields the function updates, the value handed to
    [JavaThread::set_stack_size_at_create], and the lines on the tty. *)
Record stack_sizes : Type := {
  _java_thread_min_stack_allowed : Z;
  _compiler_thread_min_stack_allowed : Z;
  _vm_internal_thread_min_stack_allowed : Z;
  stack_size_at_create : Z;
  tty : list stack_message
}.

Section MinimumStackSizes.

(** Number of bits of [size_t]; the constant [K]; [os::vm_page_size()];
    [_os_min_stack_allowed]; the sizes of the guard and the shadow zone;
    the three flags. *)
Variable w : Z.
Variable K : Z.
Variable vm_page_size : Z.
Variable _os_min_stack_allowed : Z.
Variable stack_guard_zone_size stack_shadow_zone_size : Z.
Variable ThreadStackSize CompilerThreadStackSize VMThreadStackSize : Z.

(** [align_up] on [size_t]. *)
Definition align_up_size (x a : Z) : Z := Word.wrap w (align_up x a).

Definition set_minimum_stack_sizes (st : stack_sizes) : jint_result * stack_sizes :=
  let java_min :=
    Word.add w (Word.add w (_java_thread_min_stack_allowed st)
                           stack_guard_zone_size)
               stack_shadow_zone_size in
  let java_min := align_up_size java_min vm_page_size in
  let java_min := Z.max java_min _os_min_stack_allowed in
  let st := {| _java_thread_min_stack_allowed := java_min;
               _compiler_thread_min_stack_allowed :=
                 _compiler_thread_min_stack_allowed st;
               _vm_internal_thread_min_stack_allowed :=
                 _vm_internal_thread_min_stack_allowed st;
               stack_size_at_create := stack_size_at_create st;
               tty := tty st |} in
  let stack_size_in_bytes := Word.wrap w (ThreadStackSize * K) in
  if negb (stack_size_in_bytes =? 0) && (stack_size_in_bytes <? java_min) then
    (JNI_ERR,
     {| _java_thread_min_stack_allowed := java_min;
        _compiler_thread_min_stack_allowed :=
          _compiler_thread_min_stack_allowed st;
        _vm_internal_thread_min_stack_allowed :=
          _vm_internal_thread_min_stack_allowed st;
        stack_size_at_create := stack_size_at_create st;
        tty := tty st ++ [JavaStackTooSmall (java_min / K)] |})
  else
    let at_create := align_up_size stack_size_in_bytes vm_page_size in
    let compiler_min :=
      Word.add w (Word.add w (_compiler_thread_min_stack_allowed st)
                             stack_guard_zone_size)
                 stack_shadow_zone_size in
    let compiler_min := align_up_size compiler_min vm_page_size in
    let compiler_min := Z.max compiler_min _os_min_stack_allowed in
    let stack_size_in_bytes := Word.wrap w (CompilerThreadStackSize * K) in
    if negb (stack_size_in_bytes =? 0) && (stack_size_in_bytes <? compiler_min) then
      (JNI_ERR,
       {| _java_thread_min_stack_allowed := java_min;
          _compiler_thread_min_stack_allowed := compiler_min;
          _vm_internal_thread_min_stack_allowed :=
            _vm_internal_thread_min_stack_allowed st;
          stack_size_at_create := at_create;
          tty := tty st ++ [CompilerStackTooSmall (compiler_min / K)] |})
    else
      let vm_min :=
        align_up_size (_vm_internal_thread_min_stack_allowed st) vm_page_size in
      let vm_min := Z.max vm_min _os_min_stack_allowed in
      let stack_size_in_bytes := Word.wrap w (VMThreadStackSize * K) in
      if negb (stack_size_in_bytes =? 0) && (stack_size_in_bytes <? vm_min) then
        (JNI_ERR,
         {| _java_thread_min_stack_allowed := java_min;
            _compiler_thread_min_stack_allowed := compiler_min;
            _vm_internal_thread_min_stack_allowed := vm_min;
            stack_size_at_create := at_create;
            tty := tty st ++ [VMStackTooSmall (vm_min / K)] |})
      else
        (JNI_OK,
         {| _java_thread_min_stack_allowed := java_min;
            _compiler_thread_min_stack_allowed := compiler_min;
            _vm_internal_thread_min_stack_allowed := vm_min;
            stack_size_at_create := at_create;
            tty := tty st |}).

Lemma align_up_bounds x k :
  0 <= k -> 0 <= x ->
  x <= align_up x (2 ^ k) < x + 2 ^ k /\ (2 ^ k | align_up x (2 ^ k)).
Proof.
  intros Hk Hx. unfold align_up. rewrite align_down_mod by assumption.
  assert (Hp : 0 < 2 ^ k) by (apply Z.pow_pos_nonneg; lia).
  pose proof (Z.mod_pos_bound (x + (2 ^ k - 1)) (2 ^ k) Hp) as Hb.
  pose proof (Z.div_mod (x + (2 ^ k - 1)) (2 ^ k) ltac:(lia)) as Hdm.
  split.
  - split; [|lia].
    destruct (Z_lt_le_dec (x + (2 ^ k - 1) - (x + (2 ^ k - 1)) mod 2 ^ k) x)
      as [Hlt|Hle]; [exfalso|exact Hle].
    pose proof (Z.div_mod x (2 ^ k) ltac:(lia)) as Hdx.
    pose proof (Z.mod_pos_bound x (2 ^ k) Hp) as Hbx.
    assert (Hq : (x + (2 ^ k - 1)) / 2 ^ k <= x / 2 ^ k).
    { destruct (Z.eq_dec (x mod 2 ^ k) 0) as [Hz|Hnz]; nia. }
    destruct (Z.eq_dec (x mod 2 ^ k) 0) as [Hz|Hnz].
    + assert ((x + (2 ^ k - 1)) / 2 ^ k = x / 2 ^ k).
      { symmetry. apply (Z.div_unique _ _ _ (2 ^ k - 1)); lia. }
      nia.
    + assert ((x + (2 ^ k - 1)) / 2 ^ k = x / 2 ^ k + 1).
      { symmetry. apply (Z.div_unique _ _ _ (x mod 2 ^ k - 1)); lia. }
      lia.
  - exists ((x + (2 ^ k - 1)) / 2 ^ k). lia.
Qed.

(** X23.  When [os::set_minimum_stack_sizes] returns [JNI_OK], and the sizes do
    not overflow [size_t]: the minimum for Java threads covers what it was
    before plus the guard and shadow zones, and the platform's minimum;
    the stack size for new Java threads is the configured size rounded up
    to a multiple of the page size, and it is 0, for the platform's
    default, or at least that minimum; a line on the tty is printed
    only with [JNI_ERR]. *)
Theorem set_minimum_stack_sizes_ok (k : Z) (st st' : stack_sizes) :
  0 <= k -> vm_page_size = 2 ^ k ->
  0 <= _java_thread_min_stack_allowed st ->
  0 <= stack_guard_zone_size -> 0 <= stack_shadow_zone_size ->
  _java_thread_min_stack_allowed st + stack_guard_zone_size
    + stack_shadow_zone_size + vm_page_size <= 2 ^ w ->
  0 <= ThreadStackSize * K -> ThreadStackSize * K + vm_page_size <= 2 ^ w ->
  set_minimum_stack_sizes st = (JNI_OK, st') ->
  _java_thread_min_stack_allowed st + stack_guard_zone_size
    + stack_shadow_zone_size <= _java_thread_min_stack_allowed st' /\
  _os_min_stack_allowed <= _java_thread_min_stack_allowed st' /\
  (vm_page_size | stack_size_at_create st') /\
  ThreadStackSize * K <= stack_size_at_create st' < ThreadStackSize * K + vm_page_size /\
  (stack_size_at_create st' = 0 \/
   _java_thread_min_stack_allowed st' <= stack_size_at_create st') /\
  tty st' = tty st.
Proof.
  intros Hk Hps Hj Hg Hs Hfit Hts Htsfit Hok.
  assert (Hp : 0 < 2 ^ k) by (apply Z.pow_pos_nonneg; lia).
  rewrite Hps in *.
  unfold set_minimum_stack_sizes in Hok. cbv zeta in Hok.
  rewrite (Word.add_no_overflow w (_java_thread_min_stack_allowed st)
             stack_guard_zone_size) in Hok by lia.
  rewrite (Word.add_no_overflow w (_java_thread_min_stack_allowed st
                                   + stack_guard_zone_size)
             stack_shadow_zone_size) in Hok by lia.
  rewrite (Word.wrap_small w (ThreadStackSize * K)) in Hok
    by (unfold Word.in_range; lia).
  unfold align_up_size in Hok. rewrite Hps in Hok.
  pose proof (align_up_bounds (_java_thread_min_stack_allowed st
                               + stack_guard_zone_size + stack_shadow_zone_size)
                k Hk ltac:(lia)) as [Hjb _].
  pose proof (align_up_bounds (ThreadStackSize * K) k Hk Hts) as [Hcb Hcd].
  rewrite (Word.wrap_small w (align_up (_java_thread_min_stack_allowed st
                                        + stack_guard_zone_size
                                        + stack_shadow_zone_size) (2 ^ k)))
    in Hok by (unfold Word.in_range; lia).
  rewrite (Word.wrap_small w (align_up (ThreadStackSize * K) (2 ^ k))) in Hok
    by (unfold Word.in_range; lia).
  set (java_min := Z.max (align_up (_java_thread_min_stack_allowed st
                                    + stack_guard_zone_size
                                    + stack_shadow_zone_size) (2 ^ k))
                         _os_min_stack_allowed) in *.
  destruct (negb (ThreadStackSize * K =? 0) && (ThreadStackSize * K <? java_min))
    eqn:Hjava; [discriminate|].
  assert (Hst' : _java_thread_min_stack_allowed st' = java_min /\
                 stack_size_at_create st' = align_up (ThreadStackSize * K) (2 ^ k) /\
                 tty st' = tty st).
  { destruct (negb _ && _) in Hok; [discriminate|].
    destruct (negb _ && _) in Hok; [discriminate|].
    inversion Hok. simpl. auto. }
  destruct Hst' as (-> & -> & ->).
  split; [unfold java_min; lia|]. split; [unfold java_min; lia|].
  split; [exact Hcd|]. split; [exact Hcb|]. split; [|reflexivity].
  apply andb_false_iff in Hjava as [Hzero|Hge].
  - apply negb_false_iff, Z.eqb_eq in Hzero. left. rewrite Hzero.
    pose proof (align_up_bounds 0 k Hk ltac:(lia)) as [Hzb [q Hq]].
    destruct (Z.eq_dec q 0) as [->|Hq0]; [lia|nia].
  - apply Z.ltb_ge in Hge. right. lia.
Qed.

End MinimumStackSizes.

(** A 64-bit platform with pages of 4K and zones of 16K and 80K. *)
Definition stack_sizes0 : stack_sizes :=
  {| _java_thread_min_stack_allowed := 40960;
     _compiler_thread_min_stack_allowed := 65536;
     _vm_internal_thread_min_stack_allowed := 65536;
     stack_size_at_create := 0;
     tty := [] |}.

Example set_minimum_stack_sizes_too_small :
  fst (set_minimum_stack_sizes 64 1024 4096 16384 16384 81920 100 0 0 stack_sizes0)
  = JNI_ERR.
Proof. vm_compute. reflexivity. Qed.

Lemma set_minimum_stack_sizes_ok_witness :
  exists st',
    set_minimum_stack_sizes 64 1024 4096 16384 16384 81920 1023 0 0 stack_sizes0
    = (JNI_OK, st') /\
    40960 + 16384 + 81920 <= _java_thread_min_stack_allowed st' /\
    (4096 | stack_size_at_create st') /\
    1023 * 1024 <= stack_size_at_create st' < 1023 * 1024 + 4096.
Proof.
  eexists. split; [vm_compute; reflexivity|].
  destruct (set_minimum_stack_sizes_ok 64 1024 4096 16384 16384 81920 1023 0 0 12
              stack_sizes0 _ ltac:(lia) eq_refl ltac:(simpl; lia) ltac:(lia)
              ltac:(lia) ltac:(vm_compute; congruence) ltac:(lia)
              ltac:(vm_compute; congruence) eq_refl)
    as (Hmin & _ & Hdiv & Hsize & _).
  exact (conj Hmin (conj Hdiv Hsize)).
Defined.


(** *** [os::is_server_class_machine] *)

Section ServerClass.

(** The two flags and the constants [G] and [M]. *)
Variable NeverActAsServerClassMachine AlwaysActAsServerClassMachine : bool.
Variable G M : Z.

(** The arguments are the answers of [os::active_processor_count()],
    [os::physical_memory()] and
    [VM_Version::logical_processors_per_package()]. *)
Definition is_server_class_machine (active_processor_count physical_memory
    logical_processors_per_package : Z) : bool :=
  if NeverActAsServerClassMachine then false
  else if AlwaysActAsServerClassMachine then true
  else
    let result := false in
    let server_processors := 2 in
    let server_memory := Word.wrap 64 (2 * G) in
    let missing_memory := Word.wrap 64 (256 * M) in
    if (active_processor_count >=? server_processors)
       && (physical_memory >=? Word.sub 64 server_memory missing_memory)
    then
      let logical_processors := logical_processors_per_package in
      if logical_processors >? 1 then
        let physical_packages := active_processor_count / logical_processors in
        if physical_packages >=? server_processors then true else result
      else true
    else result.

(** X24.  [NeverActAsServerClassMachine] wins over
    [AlwaysActAsServerClassMachine]; and a machine with at least the
    processors and the memory of a server class machine, and the same
    number of logical processors per package, is a server class machine
    too. *)
Theorem is_server_class_machine_monotone (processors processors' memory memory'
    logical : Z) :
  processors <= processors' -> memory <= memory' ->
  (NeverActAsServerClassMachine = true ->
   is_server_class_machine processors memory logical = false) /\
  (is_server_class_machine processors memory logical = true ->
   is_server_class_machine processors' memory' logical = true).
Proof.
  intros Hp Hm. unfold is_server_class_machine. split.
  - intros ->. reflexivity.
  - destruct NeverActAsServerClassMachine; [discriminate|].
    destruct AlwaysActAsServerClassMachine; [reflexivity|].
    cbv zeta.
    set (need := Word.sub 64 (Word.wrap 64 (2 * G)) (Word.wrap 64 (256 * M))).
    destruct (Z.geb_spec processors 2) as [Hp2|]; [|discriminate].
    destruct (Z.geb_spec memory need) as [Hm2|]; [|discriminate].
    destruct (Z.geb_spec processors' 2) as [_|]; [|lia].
    destruct (Z.geb_spec memory' need) as [_|]; [|lia].
    cbn [andb].
    destruct (Z.gtb_spec logical 1) as [Hl|]; [|reflexivity].
    destruct (Z.geb_spec (processors / logical) 2) as [Hq|]; [|discriminate].
    intros _.
    assert (Hle : processors / logical <= processors' / logical)
      by (apply Z.div_le_mono; lia).
    destruct (Z.geb_spec (processors' / logical) 2); [reflexivity|lia].
Qed.

End ServerClass.

Lemma is_server_class_machine_monotone_witness :
  4 <= 8 /\ 2147483648 <= 4294967296 /\
  is_server_class_machine false false 1073741824 1048576 8 4294967296 2 = true.
Proof.
  assert (Hp : 4 <= 8) by lia.
  assert (Hm : 2147483648 <= 4294967296) by lia.
  destruct (is_server_class_machine_monotone false false 1073741824 1048576
              4 8 2147483648 4294967296 2 Hp Hm) as [_ Hmono].
  exact (conj Hp (conj Hm (Hmono eq_refl))).
Defined.


(** *** [os::find_agent_function], [os::find_builtin_agent] *)

(** The fields of a [JvmtiAgent] that the two functions read and write. *)
Record JvmtiAgent : Type := {
  name : option (list byte);
  os_lib : Z;
  is_static_lib : bool;
  is_loaded : bool;
  is_absolute_path : bool
}.

Definition set_os_lib (handle : Z) (agent : JvmtiAgent) : JvmtiAgent :=
  {| name := name agent; os_lib := handle;
     is_static_lib := is_static_lib agent; is_loaded := is_loaded agent;
     is_absolute_path := is_absolute_path agent |}.

Definition set_static_lib (agent : JvmtiAgent) : JvmtiAgent :=
  {| name := name agent; os_lib := os_lib agent;
     is_static_lib := true; is_loaded := is_loaded agent;
     is_absolute_path := is_absolute_path agent |}.

Definition set_loaded (agent : JvmtiAgent) : JvmtiAgent :=
  {| name := name agent; os_lib := os_lib agent;
     is_static_lib := is_static_lib agent; is_loaded := true;
     is_absolute_path := is_absolute_path agent |}.

Section FindAgent.

(** [build_agent_function_name(sym, lib_name, is_absolute_path)], [None]
    for null; [dll_lookup(handle, name)], [0] for null;
    [get_default_process_handle()]. *)
Variable build_agent_function_name :
  list byte -> option (list byte) -> bool -> option (list byte).
Variable dll_lookup : Z -> list byte -> Z.
Variable get_default_process_handle : Z.

(** The [for] loop over [syms], with [entryName] still null. *)
Fixpoint find_agent_loop (handle : Z) (lib_name : option (list byte))
    (absolute : bool) (syms : list (list byte)) : Z :=
  match syms with
  | [] => 0
  | sym :: rest =>
      match build_agent_function_name sym lib_name absolute with
      | None => 0
      | Some agent_function_name =>
          let entryName := dll_lookup handle agent_function_name in
          if negb (entryName =? 0) then entryName
          else find_agent_loop handle lib_name absolute rest
      end
  end.

Definition find_agent_function (agent_lib : JvmtiAgent) (check_lib : bool)
    (syms : list (list byte)) : Z :=
  let handle := os_lib agent_lib in
  let lib_name :=
    if check_lib || is_static_lib agent_lib then name agent_lib else None in
  find_agent_loop handle lib_name (is_absolute_path agent_lib) syms.

Definition find_builtin_agent (agent : JvmtiAgent) (syms : list (list byte))
  : bool * JvmtiAgent :=
  match name agent with
  | None => (false, agent)
  | Some _ =>
      let proc_handle := get_default_process_handle in
      let save_handle := os_lib agent in
      let agent := set_os_lib proc_handle agent in
      let ret := find_agent_function agent true syms in
      if negb (ret =? 0) then (true, set_loaded (set_static_lib agent))
      else (false, set_os_lib save_handle agent)
  end.

Lemma find_agent_loop_found (handle : Z) (lib_name : option (list byte))
    (absolute : bool) (syms : list (list byte)) :
  find_agent_loop handle lib_name absolute syms <> 0 ->
  exists before sym rest agent_function_name,
    syms = before ++ sym :: rest /\
    build_agent_function_name sym lib_name absolute = Some agent_function_name /\
    dll_lookup handle agent_function_name
    = find_agent_loop handle lib_name absolute syms /\
    Forall (fun s => exists n,
              build_agent_function_name s lib_name absolute = Some n /\
              dll_lookup handle n = 0) before.
Proof.
  induction syms as [|sym rest IH]; cbn [find_agent_loop]; [congruence|].
  destruct (build_agent_function_name sym lib_name absolute) as [fn|] eqn:Hb;
    [|congruence].
  cbv zeta. destruct (Z.eqb_spec (dll_lookup handle fn) 0) as [Hz|Hnz];
    cbn [negb]; intros Hfound.
  - destruct (IH Hfound) as (before & s & rest' & n & -> & Hn & Hl & Hall).
    exists (sym :: before), s, rest', n.
    split; [reflexivity|]. split; [exact Hn|]. split; [exact Hl|].
    constructor; [|exact Hall]. exists fn. split; assumption.
  - exists [], sym, rest, fn.
    split; [reflexivity|]. split; [exact Hb|]. split; [reflexivity|].
    constructor.
Qed.

(** X25.  When [os::find_builtin_agent] returns [false] the agent is as it was
    before the call: the process handle it installed for the lookup is
    replaced by the saved library handle.  When it returns [true] the
    agent holds the process handle and is marked static and loaded, and
    the entry point found belongs to the first symbol of the list that the
    process exports under the agent's name. *)
Theorem find_builtin_agent_restores (agent : JvmtiAgent) (syms : list (list byte)) :
  let result := find_builtin_agent agent syms in
  (fst result = false -> snd result = agent) /\
  (fst result = true ->
   snd result
   = {| name := name agent; os_lib := get_default_process_handle;
        is_static_lib := true; is_loaded := true;
        is_absolute_path := is_absolute_path agent |} /\
   exists before sym rest agent_function_name,
     syms = before ++ sym :: rest /\
     build_agent_function_name sym (name agent) (is_absolute_path agent)
     = Some agent_function_name /\
     dll_lookup get_default_process_handle agent_function_name <> 0 /\
     Forall (fun s => exists n,
               build_agent_function_name s (name agent) (is_absolute_path agent)
               = Some n /\
               dll_lookup get_default_process_handle n = 0) before).
Proof.
  unfold find_builtin_agent. cbv zeta.
  destruct (name agent) as [nm|] eqn:Hname.
  - unfold find_agent_function. cbn [orb os_lib set_os_lib name is_absolute_path].
    rewrite Hname.
    destruct (Z.eqb_spec
                (find_agent_loop get_default_process_handle (Some nm)
                   (is_absolute_path agent) syms) 0) as [Hz|Hnz]; cbn [negb fst snd].
    + split; [|discriminate]. intros _.
      destruct agent; reflexivity.
    + split; [discriminate|]. intros _.
      split; [unfold set_loaded, set_static_lib; cbn; rewrite Hname; reflexivity|].
      destruct (find_agent_loop_found _ _ _ _ Hnz)
        as (before & sym & rest & fn & Hs & Hb & Hl & Hall).
      exists before, sym, rest, fn.
      split; [exact Hs|]. split; [exact Hb|]. split; [congruence|exact Hall].
  - cbn [fst snd]. split; [reflexivity|discriminate].
Qed.

End FindAgent.


(** An agent named ["x"], a process that exports no symbol. *)
Definition agent_x : JvmtiAgent :=
  {| name := Some ["x"%byte]; os_lib := 42; is_static_lib := false;
     is_loaded := false; is_absolute_path := false |}.

Definition suffixed_name (sym : list byte) (lib_name : option (list byte))
    (absolute : bool) : option (list byte) :=
  match lib_name with
  | Some n => Some (sym ++ "_"%byte :: n)
  | None => Some sym
  end.

Definition no_symbol (handle : Z) (fn : list byte) : Z := 0.

Lemma find_builtin_agent_restores_witness :
  fst (find_builtin_agent suffixed_name no_symbol 7 agent_x [["A"%byte]]) = false /\
  snd (find_builtin_agent suffixed_name no_symbol 7 agent_x [["A"%byte]]) = agent_x.
Proof.
  destruct (find_builtin_agent_restores suffixed_name no_symbol 7 agent_x
              [["A"%byte]]) as [Hfalse _].
  exact (conj eq_refl (Hfalse eq_refl)).
Defined.

End os.
